(** * Iterative solvers for sparse linear systems: a shallow embedding

    The development models [LinearSystemLibrary/methodsDeepseek.py]: the
    name-based dispatcher [solve_linear_system] and the four iterative
    methods [jacobi], [gauss_seidel], [gradient] and [conjugate_gradient].
    Of [LinearSystemLibrary/main.py] it models [create_problem], which
    builds the systems the methods are run on.

    - Scalars are an interface ([Scalar]) with two instances: IEEE binary64
      ([float64], what numpy computes with) and the real numbers ([exact],
      exact arithmetic).
    - numpy arrays and scipy matrices are objects of a heap; a Python
      variable holds a location.  Every numpy operation allocates its result,
      the in-place operations ([+=], [-=], [x[i] = ...]) overwrite an
      existing object.
    - A solver is a computation in a state-and-exception monad over the heap
      and the process clock.

    The file has three parts: the embedding of the source, the definitions
    that state the specification (recurrences, invariants, frames), and the
    lemmas and theorems that relate the two. *)

From Stdlib Require Import Reals Lra Floats Ascii String.
From stdpp Require Import base option list gmap strings.

(** ** Scalars *)

Class Scalar (F : Type) : Type := {
  fzero : F;
  fone : F;
  fadd : F → F → F;
  fsub : F → F → F;
  fmul : F → F → F;
  fdiv : F → F → F;
  fsqrt : F → F;
  fltb : F → F → bool
}.

Declare Scope scalar_scope.
Delimit Scope scalar_scope with sc.
Infix "+" := fadd : scalar_scope.
Infix "-" := fsub : scalar_scope.
Infix "*" := fmul : scalar_scope.
Infix "/" := fdiv : scalar_scope.
Infix "<?" := fltb : scalar_scope.

(** numpy's float64: IEEE 754 binary64, division by zero gives an infinity
    or a NaN and raises nothing. *)
#[global] Instance float64 : Scalar float := {|
  fzero := 0%float;
  fone := 1%float;
  fadd := PrimFloat.add;
  fsub := PrimFloat.sub;
  fmul := PrimFloat.mul;
  fdiv := PrimFloat.div;
  fsqrt := PrimFloat.sqrt;
  fltb := PrimFloat.ltb
|}.

(** Exact arithmetic: the real numbers. *)
#[global] Instance exact : Scalar R := {|
  fzero := 0%R;
  fone := 1%R;
  fadd := Rplus;
  fsub := Rminus;
  fmul := Rmult;
  fdiv := Rdiv;
  fsqrt := R_sqrt.sqrt;
  fltb := λ a b, if Rlt_dec a b then true else false
|}.

(** ** Vectors and matrices as values

    A vector is the list of its entries.  A matrix is the list of its rows;
    scipy's sparse storage is abstracted to the entries it denotes, a product
    sums a row from left to right starting at zero.

    Two limits of this in binary64, none in exact arithmetic.  [dot] rounds
    every product and every sum; the BLAS behind numpy's [dot] and [norm]
    may fuse a product with the sum, which changes the last bit of a
    result.  A product with a sparse matrix takes every entry of a row,
    where scipy takes the stored ones only: the two agree on vectors of
    finite numbers, and differ where an entry that is not stored meets an
    infinity or a NaN (0 * inf is NaN here, and is left out there).  The
    theorems over an arbitrary [Scalar] relate computations that go through
    the same [dot]; those on binary64 are on finite data or rest on the sign
    of a norm, which neither limit changes. *)

Section Values.
Context {F : Type} {SC : Scalar F}.

Definition zeros (n : nat) : list F := replicate n fzero.

(* u.dot(v), u @ v *)
Definition dot (u v : list F) : F :=
  foldl (λ acc ab, acc + ab.1 * ab.2)%sc fzero (zip u v).

(* np.linalg.norm(v) *)
Definition norm (v : list F) : F := fsqrt (dot v v).

(* alpha * v *)
Definition scale (α : F) (v : list F) : list F := fmul α <$> v.

(* 1 / v *)
Definition reciprocal (v : list F) : list F := fdiv fone <$> v.

(* Elementwise operation of two one-dimensional arrays, with numpy's
   broadcasting of a length-one operand; [None] when the shapes do not
   broadcast. *)
Definition broadcast (f : F → F → F) (u v : list F) : option (list F) :=
  if decide (length u = length v) then Some (zip_with f u v)
  else match u, v with
       | [a], _ => Some (f a <$> v)
       | _, [b] => Some ((λ a, f a b) <$> u)
       | _, _ => None
       end.

(* The same for an in-place operation [u op= v]: the result must have the
   shape of [u]. *)
Definition broadcast_into (f : F → F → F) (u v : list F) : option (list F) :=
  if decide (length u = length v) then Some (zip_with f u v)
  else match v with
       | [b] => Some ((λ a, f a b) <$> u)
       | _ => None
       end.

Definition nrows (m : list (list F)) : nat := length m.
Definition ncols (m : list (list F)) : nat :=
  match m with [] => 0 | row :: _ => length row end.

Definition entry (m : list (list F)) (i j : nat) : F :=
  default fzero (row ← m !! i; row !! j).

(* A.dot(v) *)
Definition matvec (m : list (list F)) (v : list F) : list F :=
  (λ row, dot row v) <$> m.

(* A.diagonal() *)
Definition diagonal (m : list (list F)) : list F :=
  (λ i, entry m i i) <$> seq 0 (nrows m `min` ncols m).

(* sp.diags(d) *)
Definition diags (d : list F) : list (list F) :=
  imap (λ i a, <[i:=a]> (zeros (length d))) d.

(* A - D *)
Definition matsub (m1 m2 : list (list F)) : list (list F) :=
  zip_with (zip_with fsub) m1 m2.
End Values.

(** ** The heap, exceptions and the monad *)

Definition loc := nat.

Inductive exn :=
  | ValueError (msg : string)
  | IndexError
  | TypeError
  | UnboundLocalError (var : string).

Inductive outcome (A : Type) :=
  | Ok (a : A)
  | Raise (e : exn).
Arguments Ok {A} a.
Arguments Raise {A} e.

(* Text of the errors numpy and scipy raise on operands whose shapes do not
   fit; only the exception class is meaningful. *)
Definition shape_mismatch : exn := ValueError "shape mismatch".

Section Machine.
Context {F : Type} {SC : Scalar F}.

Inductive obj :=
  | Vec (v : list F)               (* one-dimensional ndarray *)
  | Sparse (m : list (list F))     (* scipy.sparse matrix *)
  | Dense (m : list (list F)).     (* two-dimensional ndarray *)

(* [clock] is what successive calls of process_time() return, [ticks]
   counts the calls made so far. *)
Record state := State {
  heap : list obj;
  clock : nat → F;
  ticks : nat
}.

Definition M (A : Type) : Type := state → outcome A * state.

Definition ret {A} (a : A) : M A := λ s, (Ok a, s).

Definition raise {A} (e : exn) : M A := λ s, (Raise e, s).

Definition bind {A B} (m : M A) (k : A → M B) : M B := λ s,
  match m s with
  | (Ok a, s') => k a s'
  | (Raise e, s') => (Raise e, s')
  end.

Definition set_heap (h : list obj) (s : state) : state :=
  State h (clock s) (ticks s).

(* A new object, at the next free location. *)
Definition alloc (o : obj) : M loc := λ s,
  (Ok (length (heap s)), set_heap (heap s ++ [o]) s).

Definition load (l : loc) : M obj := λ s,
  match heap s !! l with
  | Some o => (Ok o, s)
  | None => (Raise TypeError, s)
  end.

(* Overwrites the object at [l]. *)
Definition store (l : loc) (o : obj) : M unit := λ s,
  (Ok (), set_heap (<[l:=o]> (heap s)) s).

Definition process_time : M F := λ s,
  (Ok (clock s (ticks s)), State (heap s) (clock s) (S (ticks s))).
End Machine.

Arguments obj F : clear implicits.
Arguments state F : clear implicits.
Arguments M F A : clear implicits.

Notation "'let*' x ':=' m 'in' k" := (bind m (λ x, k))
  (at level 10, x pattern, m at level 100, k at level 200,
   format "'[v' 'let*'  x  ':='  m  'in' '/' k ']'").
Notation "m ;; k" := (bind m (λ _, k))
  (at level 100, k at level 200, right associativity,
   format "'[v' m  ;; '/' k ']'").

(** ** numpy and scipy operations on heap objects *)

Section Numpy.
Context {F : Type} {SC : Scalar F}.

Definition get_vec (l : loc) : M F (list F) :=
  let* o := load l in
  match o with Vec v => ret v | _ => raise TypeError end.

Definition get_sparse (l : loc) : M F (list (list F)) :=
  let* o := load l in
  match o with Sparse m => ret m | _ => raise TypeError end.

Definition get_dense (l : loc) : M F (list (list F)) :=
  let* o := load l in
  match o with Dense m => ret m | _ => raise TypeError end.

Definition new_vec (v : list F) : M F loc := alloc (Vec v).

(* np.zeros_like(b) *)
Definition np_zeros_like (b : loc) : M F loc :=
  let* v := get_vec b in
  new_vec (zeros (length v)).

(* r.copy() *)
Definition np_copy (r : loc) : M F loc :=
  let* v := get_vec r in
  new_vec v.

(* a + b, a - b on arrays *)
Definition np_binop (f : F → F → F) (a b : loc) : M F loc :=
  let* u := get_vec a in
  let* v := get_vec b in
  match broadcast f u v with
  | Some w => new_vec w
  | None => raise shape_mismatch
  end.
Definition np_add := np_binop fadd.
Definition np_sub := np_binop fsub.

(* alpha * p *)
Definition np_scale (α : F) (p : loc) : M F loc :=
  let* v := get_vec p in
  new_vec (scale α v).

(* 1 / d *)
Definition np_reciprocal (d : loc) : M F loc :=
  let* v := get_vec d in
  new_vec (reciprocal v).

(* x += t, r -= t: the object at [x] is overwritten *)
Definition np_inplace (f : F → F → F) (x t : loc) : M F unit :=
  let* u := get_vec x in
  let* v := get_vec t in
  match broadcast_into f u v with
  | Some w => store x (Vec w)
  | None => raise shape_mismatch
  end.
Definition np_iadd := np_inplace fadd.
Definition np_isub := np_inplace fsub.

(* a.dot(b) and a @ b on one-dimensional arrays *)
Definition matmul (u v : list F) : M F F :=
  if decide (length u = length v) then ret (dot u v)
  else raise shape_mismatch.

Definition np_dot (a b : loc) : M F F :=
  let* u := get_vec a in
  let* v := get_vec b in
  matmul u v.

(* np.linalg.norm(a) *)
Definition np_norm (a : loc) : M F F :=
  let* v := get_vec a in
  ret (norm v).

(* np.sqrt on a scalar *)
Definition np_sqrt (a : F) : F := fsqrt a.

(* b[i] *)
Definition np_getitem (b : loc) (i : nat) : M F F :=
  let* v := get_vec b in
  match v !! i with
  | Some a => ret a
  | None => raise IndexError
  end.

(* x[i] = a *)
Definition np_setitem (x : loc) (i : nat) (a : F) : M F unit :=
  let* v := get_vec x in
  if decide (i < length v) then store x (Vec (<[i:=a]> v))
  else raise IndexError.

(* x[:i] and x[i:]: views, which are only read *)
Definition np_upto (x : loc) (i : nat) : M F (list F) :=
  let* v := get_vec x in
  ret (take i v).

Definition np_from (x : loc) (i : nat) : M F (list F) :=
  let* v := get_vec x in
  ret (drop i v).

(* A.dot(x) for a sparse A *)
Definition sp_dot (A x : loc) : M F loc :=
  let* m := get_sparse A in
  let* v := get_vec x in
  if decide (ncols m = length v) then new_vec (matvec m v)
  else raise shape_mismatch.

(* A.diagonal() *)
Definition sp_diagonal (A : loc) : M F loc :=
  let* m := get_sparse A in
  new_vec (diagonal m).

(* sp.diags(d) *)
Definition sp_diags (d : loc) : M F loc :=
  let* v := get_vec d in
  alloc (Sparse (diags v)).

(* A - D for sparse matrices *)
Definition sp_sub (A D : loc) : M F loc :=
  let* m1 := get_sparse A in
  let* m2 := get_sparse D in
  if decide (nrows m1 = nrows m2 ∧ ncols m1 = ncols m2)
  then alloc (Sparse (matsub m1 m2))
  else raise shape_mismatch.

(* A.toarray() *)
Definition sp_toarray (A : loc) : M F loc :=
  let* m := get_sparse A in
  alloc (Dense m).

(* A.shape[0] for a dense A *)
Definition nd_shape0 (A : loc) : M F nat :=
  let* m := get_dense A in
  ret (nrows m).

(* A.dot(x) for a dense A *)
Definition nd_dot (A x : loc) : M F loc :=
  let* m := get_dense A in
  let* v := get_vec x in
  if decide (ncols m = length v) then new_vec (matvec m v)
  else raise shape_mismatch.

Definition nd_row (A : loc) (i : nat) : M F (list F) :=
  let* m := get_dense A in
  match m !! i with
  | Some row => ret row
  | None => raise IndexError
  end.

(* A[i, :j] and A[i, j:] *)
Definition nd_row_upto (A : loc) (i j : nat) : M F (list F) :=
  let* row := nd_row A i in
  ret (take j row).

Definition nd_row_from (A : loc) (i j : nat) : M F (list F) :=
  let* row := nd_row A i in
  ret (drop j row).

(* A[i, j] *)
Definition nd_getitem (A : loc) (i j : nat) : M F F :=
  let* row := nd_row A i in
  match row !! j with
  | Some a => ret a
  | None => raise IndexError
  end.
End Numpy.

(** ** Loops *)

Inductive ctl (E : Type) :=
  | Continue (e : E)
  | Break (e : E).
Arguments Continue {E} e.
Arguments Break {E} e.

Section Loops.
Context {F : Type} {SC : Scalar F}.

(* [for k in range(start, start + n): body], where [e] holds the variables
   the body rebinds and [kv] is the variable [k]: unbound ([None]) until
   the first iteration assigns it. *)
Fixpoint for_range {E} (start n : nat) (body : nat → E → M F (ctl E))
    (kv : option nat) (e : E) : M F (option nat * E) :=
  match n with
  | 0 => ret (kv, e)
  | S n' =>
      let* c := body start e in
      match c with
      | Break e' => ret (Some start, e')
      | Continue e' => for_range (S start) n' body (Some start) e'
      end
  end.

(* [for i in range(n): body] without break and without rebinding *)
Fixpoint for_each (idx : list nat) (body : nat → M F unit) : M F unit :=
  match idx with
  | [] => ret ()
  | i :: idx' => body i;; for_each idx' body
  end.

(* Reading the loop variable after the loop. *)
Definition read_k (kv : option nat) : M F nat :=
  match kv with
  | Some k => ret k
  | None => raise (UnboundLocalError "k")
  end.
End Loops.

(** ** The four methods *)

Section Solvers.
Context {F : Type} {SC : Scalar F}.

(* (soluzione, iterazioni, tempo, errore_relativo) *)
Definition result : Type := loc * nat * F * F.

(* error = np.linalg.norm(x - x_exact) / np.linalg.norm(x_exact)
   return x, k + 1, process_time() - start_time, error *)
Definition finish (x x_exact : loc) (kv : option nat) (start_time : F)
    : M F result :=
  let* d := np_sub x x_exact in
  let* nd := np_norm d in
  let* ne := np_norm x_exact in
  let error := (nd / ne)%sc in
  let* k := read_k kv in
  let* now := process_time in
  ret (x, k + 1, (now - start_time)%sc, error).

(* rel_res = np.linalg.norm(residual) / np.linalg.norm(b) *)
Definition rel_res_of (residual b : loc) : M F F :=
  let* nr := np_norm residual in
  let* nb := np_norm b in
  ret (nr / nb)%sc.

(** *** Jacobi *)

Definition jacobi_body (A b R D_inv : loc) (tol : F) (k : nat) (x : loc)
    : M F (ctl loc) :=
  let* Rx := sp_dot R x in
  let* t := np_sub b Rx in
  let* x_new := sp_dot D_inv t in
  let* Ax := sp_dot A x_new in
  let* residual := np_sub Ax b in
  let* rel_res := rel_res_of residual b in
  if (rel_res <? tol)%sc then ret (Break x)
  else ret (Continue x_new).

(* The statements before the loop. *)
Definition jacobi_setup (A b : loc) : M F (loc * loc * loc * F) :=
  let* x := np_zeros_like b in
  let* d := sp_diagonal A in
  let* D := sp_diags d in
  let* d' := sp_diagonal A in
  let* rd := np_reciprocal d' in
  let* D_inv := sp_diags rd in
  let* R := sp_sub A D in
  let* start_time := process_time in
  ret (x, D_inv, R, start_time).

Definition jacobi (A b x_exact : loc) (tol : F) (max_iter : nat)
    : M F result :=
  let* (x, D_inv, R, start_time) := jacobi_setup A b in
  let* (kv, x) := for_range 0 max_iter (jacobi_body A b R D_inv tol) None x in
  finish x x_exact kv start_time.

(** *** Gauss-Seidel *)

(* x[i] = (b[i] - A[i, :i] @ x[:i] - A[i, i + 1:] @ x_old[i + 1:]) / A[i, i] *)
Definition gauss_seidel_update (A b x x_old : loc) (i : nat) : M F unit :=
  let* bi := np_getitem b i in
  let* a_lo := nd_row_upto A i i in
  let* x_lo := np_upto x i in
  let* s_lo := matmul a_lo x_lo in
  let* a_hi := nd_row_from A i (i + 1) in
  let* x_hi := np_from x_old (i + 1) in
  let* s_hi := matmul a_hi x_hi in
  let* aii := nd_getitem A i i in
  np_setitem x i ((bi - s_lo - s_hi) / aii)%sc.

Definition gauss_seidel_body (A b x : loc) (tol : F) (k : nat) (_ : unit)
    : M F (ctl unit) :=
  let* x_old := np_copy x in
  let* n := nd_shape0 A in
  for_each (seq 0 n) (gauss_seidel_update A b x x_old);;
  let* Ax := nd_dot A x in
  let* residual := np_sub Ax b in
  let* rel_res := rel_res_of residual b in
  if (rel_res <? tol)%sc then ret (Break ())
  else ret (Continue ()).

Definition gauss_seidel_setup (A b : loc) : M F (loc * F * loc) :=
  let* x := np_zeros_like b in
  let* start_time := process_time in
  let* A := sp_toarray A in
  ret (x, start_time, A).

Definition gauss_seidel (A b x_exact : loc) (tol : F) (max_iter : nat)
    : M F result :=
  let* (x, start_time, A) := gauss_seidel_setup A b in
  let* (kv, _) := for_range 0 max_iter (gauss_seidel_body A b x tol) None () in
  finish x x_exact kv start_time.

(** *** Gradient *)

(* The loop rebinds r and p. *)
Definition gradient_body (A b x : loc) (tol : F) (k : nat) (rp : loc * loc)
    : M F (ctl (loc * loc)) :=
  let '(r, p) := rp in
  let* Ap := sp_dot A p in
  let* rr := np_dot r r in
  let* pAp := np_dot p Ap in
  let alpha := (rr / pAp)%sc in
  let* t := np_scale alpha p in
  np_iadd x t;;
  let* t' := np_scale alpha Ap in
  let* r_new := np_sub r t' in
  let* rel_res := rel_res_of r_new b in
  if (rel_res <? tol)%sc then ret (Break (r, p))
  else
    let* rnrn := np_dot r_new r_new in
    let* rr' := np_dot r r in
    let beta := (rnrn / rr')%sc in
    let* t'' := np_scale beta p in
    let* p' := np_add r_new t'' in
    ret (Continue (r_new, p')).

Definition gradient_setup (A b : loc) : M F (loc * loc * loc * F) :=
  let* x := np_zeros_like b in
  let* Ax := sp_dot A x in
  let* r := np_sub b Ax in
  let* p := np_copy r in
  let* start_time := process_time in
  ret (x, r, p, start_time).

Definition gradient (A b x_exact : loc) (tol : F) (max_iter : nat)
    : M F result :=
  let* (x, r, p, start_time) := gradient_setup A b in
  let* (kv, _) := for_range 0 max_iter (gradient_body A b x tol) None (r, p) in
  finish x x_exact kv start_time.

(** *** Conjugate gradient *)

(* The loop rebinds p and rsold; x and r are updated in place. *)
Definition conjugate_gradient_body (A b x r : loc) (tol : F) (k : nat)
    (st : loc * F) : M F (ctl (loc * F)) :=
  let '(p, rsold) := st in
  let* Ap := sp_dot A p in
  let* pAp := np_dot p Ap in
  let alpha := (rsold / pAp)%sc in
  let* t := np_scale alpha p in
  np_iadd x t;;
  let* t' := np_scale alpha Ap in
  np_isub r t';;
  let* rsnew := np_dot r r in
  let* nb := np_norm b in
  let rel_res := (np_sqrt rsnew / nb)%sc in
  if (rel_res <? tol)%sc then ret (Break (p, rsold))
  else
    let* t'' := np_scale (rsnew / rsold)%sc p in
    let* p' := np_add r t'' in
    ret (Continue (p', rsnew)).

Definition conjugate_gradient_setup (A b : loc)
    : M F (loc * loc * loc * F * F) :=
  let* x := np_zeros_like b in
  let* Ax := sp_dot A x in
  let* r := np_sub b Ax in
  let* p := np_copy r in
  let* rsold := np_dot r r in
  let* start_time := process_time in
  ret (x, r, p, rsold, start_time).

Definition conjugate_gradient (A b x_exact : loc) (tol : F) (max_iter : nat)
    : M F result :=
  let* (x, r, p, rsold, start_time) := conjugate_gradient_setup A b in
  let* (kv, _) :=
    for_range 0 max_iter (conjugate_gradient_body A b x r tol) None (p, rsold) in
  finish x x_exact kv start_time.

(** ** The dispatcher *)

Definition solver : Type := loc → loc → loc → F → nat → M F result.

Definition method_map : gmap string solver :=
  list_to_map [
    ("jacobi", jacobi);
    ("gauss_seidel", gauss_seidel);
    ("gs", gauss_seidel);
    ("gradient", gradient);
    ("grad", gradient);
    ("conjugate_gradient", conjugate_gradient);
    ("cg", conjugate_gradient);
    ("gradiente", gradient);
    ("gradiente_coniugato", conjugate_gradient)
  ].
End Solvers.

Arguments result F : clear implicits.
Arguments solver F : clear implicits.

(** Strings: the identifier is ASCII text; [lower] maps A..Z to a..z and
    [replace] substitutes one character for another.  Python's [lower] also
    changes letters outside ASCII, which are left as they are here.  A name
    with such a letter is rejected either way (the one letter that Python
    lowers into ASCII is the Kelvin sign, to k, and no key of [method_map]
    has a k); only the name shown in the message of the error differs. *)

Definition ascii_lower (c : ascii) : ascii :=
  let n := nat_of_ascii c in
  if decide (65 ≤ n ≤ 90) then ascii_of_nat (n + 32) else c.

Fixpoint str_map (f : ascii → ascii) (s : string) : string :=
  match s with
  | EmptyString => EmptyString
  | String c s' => String (f c) (str_map f s')
  end.

Definition str_lower : string → string := str_map ascii_lower.

Definition str_replace (old new : ascii) : string → string :=
  str_map (λ c, if decide (c = old) then new else c).

(* method.lower().replace('-', '_').replace(' ', '_') *)
Definition normalize (method : string) : string :=
  str_replace " " "_" (str_replace "-" "_" (str_lower method)).

Definition nl : string := String (ascii_of_nat 10) EmptyString.

Definition invalid_method_message (method : string) : string :=
  "Metodo " +:+ method +:+ " non valido. Scegli tra: " +:+ nl +:+
  "- 'jacobi'" +:+ nl +:+
  "- 'gauss_seidel'/'gs'" +:+ nl +:+
  "- 'gradient'/'grad'" +:+ nl +:+
  "- 'conjugate_gradient'/'cg'".

Section Dispatcher.
Context {F : Type} {SC : Scalar F}.

Definition solve_linear_system (method : string) (A b x_exact : loc)
    (tol : F) (max_iter : nat) : M F (result F) :=
  let method := normalize method in
  match method_map !! method with
  | None => raise (ValueError (invalid_method_message method))
  | Some f => f A b x_exact tol max_iter
  end.
End Dispatcher.

(** ** The problem of the driver

    [main.py] builds the right-hand side of the systems the methods are run
    on from the all-ones solution. *)

Section Driver.
Context {F : Type} {SC : Scalar F}.

(* np.ones(n) *)
Definition ones (n : nat) : list F := replicate n fone.
Definition np_ones (n : nat) : M F loc := new_vec (ones n).

(* A.shape[0] for a sparse A *)
Definition sp_shape0 (A : loc) : M F nat :=
  let* m := get_sparse A in
  ret (nrows m).

(* n = A.shape[0]; x_exact = np.ones(n); b = A.dot(x_exact)
   return b, x_exact *)
Definition create_problem (A : loc) : M F (loc * loc) :=
  let* n := sp_shape0 A in
  let* x_exact := np_ones n in
  let* b := sp_dot A x_exact in
  ret (b, x_exact).
End Driver.

(** * Specification-side definitions

    What follows describes states and results in the words of the
    specification and of the further properties proved at the end; none of
    it is used by the embedding above. *)

Section StateDefs.
Context {F : Type} {SC : Scalar F}.

(* The state after [alloc], [store] and [process_time]. *)
Definition push (o : obj F) (s : state F) : state F :=
  set_heap (heap s ++ [o]) s.
Definition poke (l : loc) (o : obj F) (s : state F) : state F :=
  set_heap (<[l:=o]> (heap s)) s.
Definition tick (s : state F) : state F :=
  State (heap s) (clock s) (S (ticks s)).

(* [m], started in [s], ends in an outcome and a state that satisfy [Q]. *)
Definition runs_to {A} (m : M F A) (s : state F)
    (Q : outcome A → state F → Prop) : Prop :=
  Q (m s).1 (m s).2.

(* u + v and u - v for vectors of one length *)
Definition vadd (u v : list F) : list F := zip_with fadd u v.
Definition vsub (u v : list F) : list F := zip_with fsub u v.

(* an n-by-n matrix *)
Definition square (n : nat) (m : list (list F)) : Prop :=
  length m = n ∧ Forall (λ row, length row = n) m.

(* What the rest of the heap keeps when only [ws] are written. *)
Definition keeps (ws : list loc) (s s' : state F) : Prop :=
  clock s' = clock s ∧ ticks s' = ticks s ∧ length (heap s) ≤ length (heap s') ∧
  ∀ l o, l ∉ ws → heap s !! l = Some o → heap s' !! l = Some o.

Definition extends (s s' : state F) : Prop :=
  ∀ l o, heap s !! l = Some o → heap s' !! l = Some o.

(* The loop variable after [j] iterations of a loop that started at [start]
   with the variable holding [kv]. *)
Definition last_k (start : nat) (kv : option nat) (j : nat) : option nat :=
  match j with 0 => kv | S j' => Some (start + j') end.
End StateDefs.

(** ** The frame of a computation *)

Section FrameDefs.
Context {F : Type} {SC : Scalar F}.
Variable h0 : list (obj F).

(* [c] leaves the objects of [h0] as they are, whatever its outcome, and
   a value it returns satisfies [Q]. *)
Definition framed {A} (c : M F A) (Q : A → Prop) : Prop :=
  ∀ s, h0 `prefix_of` heap s →
    h0 `prefix_of` heap (c s).2 ∧ ∀ a, (c s).1 = Ok a → Q a.

(* a location allocated after [h0] *)
Definition fresh (l : loc) : Prop := length h0 ≤ l.
End FrameDefs.

(** ** The states at which the iterations of a loop start *)

Section LoopHead.
Context {F : Type} {SC : Scalar F} {E : Type}.
Variable body : nat → E → M F (ctl E).
Variable e0 : E.
Variable s0 : state F.

(* [loop_head k e s]: iteration [k] of [for k in range(..)], entered with
   the variables [e0] in state [s0], starts with variables [e] in state [s]. *)
Inductive loop_head : nat → E → state F → Prop :=
  | loop_head_first : loop_head 0 e0 s0
  | loop_head_next k e s e' s' :
      loop_head k e s →
      body k e s = (Ok (Continue e'), s') →
      loop_head (S k) e' s'.
End LoopHead.

(* The loop variable when iteration [k] starts. *)
Definition k_before (k : nat) : option nat :=
  match k with 0 => None | S k' => Some k' end.

(** ** The recurrences of the specification *)

Section Recurrences.
Context {F : Type} {SC : Scalar F}.

(** *** Conjugate gradient (section 4.5) *)

Record cg_vars := CGVars {
  cg_x : list F; cg_r : list F; cg_p : list F; cg_rsold : F
}.

(* r_0 = b, p_0 = r_0, rsold = r_0 . r_0, from x = 0 *)
Definition cg_spec_start (bv : list F) : cg_vars :=
  CGVars (zeros (length bv)) bv bv (dot bv bv).

(* Ap = A p; alpha = rsold / (p . Ap); x += alpha p; r -= alpha Ap;
   rsnew = r . r; stop when sqrt rsnew / |b| < tol;
   else p = r + (rsnew / rsold) p, rsold = rsnew *)
Definition cg_spec_step (Av : list (list F)) (bv : list F) (tol : F)
    (v : cg_vars) : bool * cg_vars :=
  let Ap := matvec Av (cg_p v) in
  let α := (cg_rsold v / dot (cg_p v) Ap)%sc in
  let x := vadd (cg_x v) (scale α (cg_p v)) in
  let r := vsub (cg_r v) (scale α Ap) in
  let rsnew := dot r r in
  if (fsqrt rsnew / norm bv <? tol)%sc
  then (true, CGVars x r (cg_p v) (cg_rsold v))
  else (false, CGVars x r (vadd r (scale (rsnew / cg_rsold v)%sc (cg_p v))) rsnew).

(* At most [n] iterations: how many were made, and the variables then. *)
Fixpoint cg_spec_loop (Av : list (list F)) (bv : list F) (tol : F)
    (n : nat) (v : cg_vars) : nat * cg_vars :=
  match n with
  | 0 => (0, v)
  | S n' =>
      let (stop, v') := cg_spec_step Av bv tol v in
      if stop then (1, v')
      else let (j, w) := cg_spec_loop Av bv tol n' v' in (S j, w)
  end.

(* (solution, iterations, relative error) *)
Definition cg_spec (Av : list (list F)) (bv xev : list F) (tol : F)
    (max_iter : nat) : list F * nat * F :=
  let (j, w) := cg_spec_loop Av bv tol max_iter (cg_spec_start bv) in
  (cg_x w, j, (norm (vsub (cg_x w) xev) / norm xev)%sc).

Definition cg_shaped (n : nat) (v : cg_vars) : Prop :=
  length (cg_x v) = n ∧ length (cg_r v) = n ∧ length (cg_p v) = n.

(** *** Gradient (section 4.4) *)

Record gd_vars := GDVars { gd_x : list F; gd_r : list F; gd_p : list F }.

(* Ap = A p; alpha = (r . r) / (p . Ap); x += alpha p; r_new = r - alpha Ap;
   stop when |r_new| / |b| < tol;
   else beta = (r_new . r_new) / (r . r), p = r_new + beta p, r = r_new *)
Definition gd_spec_step (Av : list (list F)) (bv : list F) (tol : F)
    (v : gd_vars) : bool * gd_vars :=
  let Ap := matvec Av (gd_p v) in
  let α := (dot (gd_r v) (gd_r v) / dot (gd_p v) Ap)%sc in
  let x := vadd (gd_x v) (scale α (gd_p v)) in
  let r_new := vsub (gd_r v) (scale α Ap) in
  if (norm r_new / norm bv <? tol)%sc
  then (true, GDVars x (gd_r v) (gd_p v))
  else
    let β := (dot r_new r_new / dot (gd_r v) (gd_r v))%sc in
    (false, GDVars x r_new (vadd r_new (scale β (gd_p v)))).

Fixpoint gd_spec_loop (Av : list (list F)) (bv : list F) (tol : F)
    (n : nat) (v : gd_vars) : nat * gd_vars :=
  match n with
  | 0 => (0, v)
  | S n' =>
      let (stop, v') := gd_spec_step Av bv tol v in
      if stop then (1, v')
      else let (j, w) := gd_spec_loop Av bv tol n' v' in (S j, w)
  end.

(* The loop is entered with x = 0, r = b - A x and p = r. *)
Definition gd_spec_start (Av : list (list F)) (bv : list F) : gd_vars :=
  let r0 := vsub bv (matvec Av (zeros (length bv))) in
  GDVars (zeros (length bv)) r0 r0.

Definition gd_spec (Av : list (list F)) (bv xev : list F) (tol : F)
    (max_iter : nat) : list F * nat * F :=
  let (j, w) := gd_spec_loop Av bv tol max_iter (gd_spec_start Av bv) in
  (gd_x w, j, (norm (vsub (gd_x w) xev) / norm xev)%sc).

Definition gd_shaped (n : nat) (v : gd_vars) : Prop :=
  length (gd_x v) = n ∧ length (gd_r v) = n ∧ length (gd_p v) = n.

(** *** Gauss-Seidel (section 4.3) *)

(* v[j] *)
Definition at_index (v : list F) (j : nat) : F := default fzero (v !! j).

(* the sum of [f j] for [j] in [js], added in the order of [js] *)
Definition sum_over (js : list nat) (f : nat → F) : F :=
  foldl (λ acc j, acc + f j)%sc fzero js.

(* (b[i] - sum_{j<i} A[i,j] x[j] - sum_{j>i} A[i,j] x_old[j]) / A[i,i] *)
Definition gs_component (Av : list (list F)) (bv x x_old : list F)
    (i : nat) : F :=
  ((at_index bv i
    - sum_over (seq 0 i) (λ j, entry Av i j * at_index x j)
    - sum_over (seq (i + 1) (length Av - (i + 1)))
        (λ j, entry Av i j * at_index x_old j))
   / entry Av i i)%sc.

(* The components [idx], in this order, each from the components already
   updated and the old values of the later ones. *)
Definition gs_sweep_from (Av : list (list F)) (bv x_old : list F)
    (idx : list nat) (x : list F) : list F :=
  foldl (λ x i, <[i:=gs_component Av bv x x_old i]> x) x idx.

(* One sweep: every component once, in increasing order. *)
Definition gs_sweep (Av : list (list F)) (bv x_old : list F) : list F :=
  gs_sweep_from Av bv x_old (seq 0 (length Av)) x_old.

(* The sweeps, with one test on the relative residual after each. *)
Fixpoint gs_spec_loop (Av : list (list F)) (bv : list F) (tol : F)
    (n : nat) (x : list F) : nat * list F :=
  match n with
  | 0 => (0, x)
  | S n' =>
      let x' := gs_sweep Av bv x in
      if (norm (vsub (matvec Av x') bv) / norm bv <? tol)%sc then (1, x')
      else let (j, w) := gs_spec_loop Av bv tol n' x' in (S j, w)
  end.

Definition gs_spec (Av : list (list F)) (bv xev : list F) (tol : F)
    (max_iter : nat) : list F * nat * F :=
  let (j, x) := gs_spec_loop Av bv tol max_iter (zeros (length bv)) in
  (x, j, (norm (vsub x xev) / norm xev)%sc).
End Recurrences.

(** ** The residual invariant, in exact arithmetic *)

Definition dot_step (acc : R) (ab : R * R) : R := (acc + ab.1 * ab.2)%R.

(* r = b - A x for the objects the variables hold *)
Definition residual_inv (A b x r : loc) (s : state R) : Prop :=
  ∃ Av bv xv rv,
    heap s !! A = Some (Sparse Av) ∧ heap s !! b = Some (Vec bv) ∧
    heap s !! x = Some (Vec xv) ∧ heap s !! r = Some (Vec rv) ∧
    rv = vsub bv (matvec Av xv).

(* The same, with the shapes and the separation of the objects that the
   loop of [gradient] keeps. *)
Definition gd_inv (A b x : loc) (n : nat) (Av : list (list R)) (bv : list R)
    (e : loc * loc) (s : state R) : Prop :=
  ∃ xv rv pv,
    heap s !! A = Some (Sparse Av) ∧ heap s !! b = Some (Vec bv) ∧
    heap s !! x = Some (Vec xv) ∧ heap s !! e.1 = Some (Vec rv) ∧
    heap s !! e.2 = Some (Vec pv) ∧
    length xv = n ∧ length rv = n ∧ length pv = n ∧
    e.1 ≠ x ∧ e.2 ≠ x ∧ A ≠ x ∧ b ≠ x ∧
    rv = vsub bv (matvec Av xv).

(* And the one the loop of [conjugate_gradient] keeps. *)
Definition cg_inv (A b x r : loc) (n : nat) (Av : list (list R)) (bv : list R)
    (e : loc * R) (s : state R) : Prop :=
  ∃ xv rv pv,
    heap s !! A = Some (Sparse Av) ∧ heap s !! b = Some (Vec bv) ∧
    heap s !! x = Some (Vec xv) ∧ heap s !! r = Some (Vec rv) ∧
    heap s !! e.1 = Some (Vec pv) ∧
    length xv = n ∧ length rv = n ∧ length pv = n ∧
    A ≠ x ∧ A ≠ r ∧ b ≠ x ∧ b ≠ r ∧ x ≠ r ∧ e.1 ≠ x ∧ e.1 ≠ r ∧
    rv = vsub bv (matvec Av xv).

(** ** Method identifiers *)

(* What [normalize] does to one character. *)
Definition normalize_char (c : ascii) : ascii :=
  let c := ascii_lower c in
  let c := if decide (c = "-"%char) then "_"%char else c in
  if decide (c = " "%char) then "_"%char else c.

(* [sub] is a substring of [s]. *)
Definition occurs_in (sub s : string) : Prop :=
  ∃ pre post, s = pre +:+ sub +:+ post.

(* The same as a test: [sub] starts [s], or occurs in [s] past its first
   character. *)
Fixpoint starts_with (sub s : string) : bool :=
  match sub, s with
  | EmptyString, _ => true
  | String a sub', String c s' =>
      if decide (a = c) then starts_with sub' s' else false
  | String _ _, EmptyString => false
  end.

Fixpoint occurs_inb (sub s : string) : bool :=
  starts_with sub s ||
  match s with
  | EmptyString => false
  | String _ s' => occurs_inb sub s'
  end.

(** ** Iterations as functions

    What the loop of each method computes, as a function of the matrix, the
    right-hand side, the tolerance and the bound on the iterations; and what
    it means for a method to compute it. *)

Section RunDefs.
Context {F : Type} {SC : Scalar F}.

(* x_new = D_inv.dot(b - R.dot(x)), with D, D_inv and R as [jacobi] builds
   them from A *)
Definition jacobi_next (Av : list (list F)) (bv x : list F) : list F :=
  matvec (diags (reciprocal (diagonal Av)))
    (vsub bv (matvec (matsub Av (diags (diagonal Av))) x)).

(* np.linalg.norm(A.dot(x) - b) / np.linalg.norm(b) < tol *)
Definition residual_below (Av : list (list F)) (bv : list F) (tol : F)
    (x : list F) : bool :=
  (norm (vsub (matvec Av x) bv) / norm bv <? tol)%sc.

(* The loop of [jacobi]: the number of iterations made and the value of the
   variable x after them.  The test is made on x_new, and x is assigned
   after the test. *)
Fixpoint jacobi_loop (Av : list (list F)) (bv : list F) (tol : F)
    (n : nat) (x : list F) : nat * list F :=
  match n with
  | 0 => (0, x)
  | S n' =>
      let x_new := jacobi_next Av bv x in
      if residual_below Av bv tol x_new then (1, x)
      else let (j, w) := jacobi_loop Av bv tol n' x_new in (S j, w)
  end.

(* For each method: the number of iterations and the solution of a call. *)
Definition jacobi_run (Av : list (list F)) (bv : list F) (tol : F)
    (max_iter : nat) : nat * list F :=
  jacobi_loop Av bv tol max_iter (zeros (length bv)).

Definition gauss_seidel_run (Av : list (list F)) (bv : list F) (tol : F)
    (max_iter : nat) : nat * list F :=
  gs_spec_loop Av bv tol max_iter (zeros (length bv)).

Definition gradient_run (Av : list (list F)) (bv : list F) (tol : F)
    (max_iter : nat) : nat * list F :=
  let (j, w) := gd_spec_loop Av bv tol max_iter (gd_spec_start Av bv) in
  (j, gd_x w).

(* [conjugate_gradient] enters its loop with x = 0, r = b - A x, p = r and
   rsold = r . r *)
Definition cg_loop_start (Av : list (list F)) (bv : list F) : cg_vars :=
  let r0 := vsub bv (matvec Av (zeros (length bv))) in
  CGVars (zeros (length bv)) r0 r0 (dot r0 r0).

Definition conjugate_gradient_run (Av : list (list F)) (bv : list F) (tol : F)
    (max_iter : nat) : nat * list F :=
  let (j, w) := cg_spec_loop Av bv tol max_iter (cg_loop_start Av bv) in
  (j, cg_x w).

(* One pass of each loop as a step: whether it stops, and the next value. *)
Definition jacobi_step (Av : list (list F)) (bv : list F) (tol : F)
    (x : list F) : bool * list F :=
  let x_new := jacobi_next Av bv x in
  if residual_below Av bv tol x_new then (true, x) else (false, x_new).

Definition gs_step (Av : list (list F)) (bv : list F) (tol : F)
    (x : list F) : bool * list F :=
  let x' := gs_sweep Av bv x in (residual_below Av bv tol x', x').

(* The iterates of the two stationary methods, from x = 0. *)
Definition jacobi_iterate (Av : list (list F)) (bv : list F) (i : nat)
    : list F :=
  Nat.iter i (jacobi_next Av bv) (zeros (length bv)).

Definition gs_iterate (Av : list (list F)) (bv : list F) (i : nat) : list F :=
  Nat.iter i (gs_sweep Av bv) (zeros (length bv)).

(* [f] is a method that, on a square system and with at least one iteration
   allowed, makes the iterations of [run] on new objects and then ends as
   every method does: x_exact is not looked at before. *)
Definition iterates (f : solver F)
    (run : list (list F) → list F → F → nat → nat * list F) : Prop :=
  ∀ s A b n Av bv tol max_iter,
    heap s !! A = Some (Sparse Av) →
    heap s !! b = Some (Vec bv) →
    square n Av → length bv = n →
    0 < max_iter →
    ∃ x s',
      (∀ x_exact,
         f A b x_exact tol max_iter s =
           finish x x_exact (Some ((run Av bv tol max_iter).1 - 1))
             (clock s (ticks s)) s') ∧
      extends s s' ∧ clock s' = clock s ∧ ticks s' = S (ticks s) ∧
      length (heap s) ≤ x ∧
      heap s' !! x = Some (Vec (run Av bv tol max_iter).2).

(* [f] is a method whose calls on well-shaped arguments, with at least one
   iteration allowed, return what [run] says: a new vector, the number of
   iterations, the time between two readings of the clock, and the
   relative error against x_exact. *)
Definition computes (f : solver F)
    (run : list (list F) → list F → F → nat → nat * list F) : Prop :=
  ∀ s A b x_exact n Av bv xev tol max_iter,
    heap s !! A = Some (Sparse Av) →
    heap s !! b = Some (Vec bv) →
    heap s !! x_exact = Some (Vec xev) →
    square n Av → length bv = n → length xev = n →
    0 < max_iter →
    ∃ x s',
      f A b x_exact tol max_iter s =
        (Ok (x, (run Av bv tol max_iter).1,
             (clock s (S (ticks s)) - clock s (ticks s))%sc,
             (norm (vsub (run Av bv tol max_iter).2 xev) / norm xev)%sc), s') ∧
      extends s s' ∧ length (heap s) ≤ x ∧
      heap s' !! x = Some (Vec (run Av bv tol max_iter).2).
End RunDefs.

(** ** Loops with a bound and a test *)

Section UntilDefs.
Context {V : Type}.

(* At most [n] steps of [step], stopping after the first that says so:
   the number of steps made and the value reached. *)
Fixpoint iterate_until (step : V → bool * V) (n : nat) (v : V) : nat * V :=
  match n with
  | 0 => (0, v)
  | S n' =>
      let (stop, v') := step v in
      if stop then (1, v')
      else let (j, w) := iterate_until step n' v' in (S j, w)
  end.
End UntilDefs.

Section RegularDefs.
Context {F : Type} {SC : Scalar F}.

(* No vector passes the test |u| / |b| < tol. *)
Definition never_passes (bv : list F) (tol : F) : Prop :=
  ∀ u, (norm u / norm bv <? tol)%sc = false.

(* What every loop gives: between 1 and k iterations, a vector of the
   length of the system, the same result for every bound past the iteration
   that stopped, all k iterations when no test holds, and no more
   iterations for a tolerance that accepts more. *)
Definition regular (run : list (list F) → list F → F → nat → nat * list F)
    : Prop :=
  (∀ Av bv tol k, 0 < k → 1 ≤ (run Av bv tol k).1 ≤ k) ∧
  (∀ n Av bv tol k,
     square n Av → length bv = n → length (run Av bv tol k).2 = n) ∧
  (∀ Av bv tol k k',
     (run Av bv tol k).1 < k → (run Av bv tol k).1 ≤ k' →
     run Av bv tol k' = run Av bv tol k) ∧
  (∀ Av bv tol k, never_passes bv tol → (run Av bv tol k).1 = k) ∧
  (∀ Av bv tol tol' k,
     (∀ u : F, (u <? tol)%sc = true → (u <? tol')%sc = true) →
     (run Av bv tol' k).1 ≤ (run Av bv tol k).1).
End RegularDefs.

(** ** Binary64 numbers with no minus sign *)

(* A binary64 number with no minus sign: NaN, +0, +infinity or a positive
   number. *)
Definition sf_unsigned (x : spec_float) : Prop :=
  match x with
  | S754_nan => True
  | S754_zero s | S754_infinity s | S754_finite s _ _ => s = false
  end.


(** ** Concrete problems *)

(* tol = 1e-6, as the nearest binary64 number *)
Definition tol_1e6 : float := 0x1.0c6f7a0b5ed8dp-20%float.

(* max_iter=20000 *)
Definition default_max_iter : nat := 200 * 100.

(* A = diag([2, 3, 4]), b = [2, 3, 4], x_exact = [1, 1, 1], at the
   locations 0, 1 and 2 of a heap that holds nothing else. *)
Definition diag234 : list (list float) :=
  [[2; 0; 0]; [0; 3; 0]; [0; 0; 4]]%float.
Definition diag_problem : state float :=
  State [Sparse diag234; Vec [2; 3; 4]%float; Vec [1; 1; 1]%float]
        (λ _, 0%float) 0.

(* A small system over the reals: A = [[4, 1], [1, 3]], b = [5, 4]. *)
Definition spd2 : list (list R) := [[4; 1]; [1; 3]]%R.
Definition spd_problem : state R :=
  State [Sparse spd2; Vec [5; 4]%R; Vec [1; 1]%R] (λ _, 0%R) 0.

(* the diagonal system, with a second exact solution and a vector of the
   wrong length *)
Definition diag_problem_more : state float :=
  State [Sparse diag234; Vec [2; 3; 4]%float; Vec [1; 1; 1]%float;
         Vec [1; 2; 3]%float; Vec [1; 1]%float]
        (λ _, 0%float) 0.

(* A = diag([2, 3, 4]), b = 0 *)
Definition zero_rhs_problem : state float :=
  State [Sparse diag234; Vec (zeros 3); Vec [1; 1; 1]%float] (λ _, 0%float) 0.

(* a 2-by-3 matrix *)
Definition wide_matrix : state float :=
  State [Sparse [[1; 2; 3]; [4; 5; 6]]%float] (λ _, 0%float) 0.

(* the diagonal system over the reals *)
Definition diag_problem_exact : state R :=
  State [Sparse (diags [2; 3; 4]%R); Vec [2; 3; 4]%R; Vec [1; 1; 1]%R]
        (λ _, 0%R) 0.



(** * Lemmas and theorems *)

(** ** States: allocation and in-place update *)

Section Heap.
Context {F : Type} {SC : Scalar F}.
Implicit Types (s : state F) (o : obj F) (l : loc).

Lemma heap_push o s : heap (push o s) = heap s ++ [o].
Proof. reflexivity. Qed.
Lemma heap_poke l o s : heap (poke l o s) = <[l:=o]> (heap s).
Proof. reflexivity. Qed.
Lemma heap_tick s : heap (tick s) = heap s.
Proof. reflexivity. Qed.
Lemma length_heap_push o s : length (heap (push o s)) = S (length (heap s)).
Proof. rewrite heap_push, length_app. simpl. lia. Qed.
Lemma length_heap_poke l o s : length (heap (poke l o s)) = length (heap s).
Proof. rewrite heap_poke. apply length_insert. Qed.

Lemma lookup_push_old o' s l o :
  heap s !! l = Some o → heap (push o' s) !! l = Some o.
Proof. intros H. rewrite heap_push. by apply lookup_app_l_Some. Qed.
Lemma lookup_push_new o s : heap (push o s) !! length (heap s) = Some o.
Proof. rewrite heap_push. by apply list_lookup_middle. Qed.
Lemma lookup_push_at o s l :
  l = length (heap s) → heap (push o s) !! l = Some o.
Proof. intros ->. apply lookup_push_new. Qed.
Lemma lookup_poke_eq l o o0 s :
  heap s !! l = Some o0 → heap (poke l o s) !! l = Some o.
Proof.
  intros H. rewrite heap_poke. apply list_lookup_insert_eq.
  by eapply lookup_lt_Some.
Qed.
Lemma lookup_poke_ne l o s l' o' :
  l ≠ l' → heap s !! l' = Some o' → heap (poke l o s) !! l' = Some o'.
Proof. intros Hne H. by rewrite heap_poke, list_lookup_insert_ne. Qed.
Lemma lookup_tick s l o : heap s !! l = Some o → heap (tick s) !! l = Some o.
Proof. done. Qed.
End Heap.

Create Rewrite HintDb heap_len.
Global Hint Rewrite @length_heap_push @length_heap_poke @heap_tick : heap_len.

Ltac len := autorewrite with heap_len in *; lia.
Ltac bounds :=
  repeat match goal with
  | H : heap ?s !! ?l = Some _ |- _ =>
      lazymatch goal with
      | _ : l < length (heap s) |- _ => fail
      | _ => pose proof (lookup_lt_Some _ _ _ H)
      end
  end.

Create HintDb heap discriminated.
Global Hint Resolve lookup_push_new lookup_push_old lookup_poke_eq
  lookup_poke_ne lookup_tick : heap.
Global Hint Extern 1 (_ ≠ _) => len : heap.
Global Hint Extern 3 (heap (push _ _) !! _ = Some _) =>
  apply lookup_push_at; len : heap.
Ltac lk := solve [eauto 20 with heap nocore].

(** ** Shapes of vectors and matrices *)

Section Shapes.
Context {F : Type} {SC : Scalar F}.
Implicit Types (u v : list F) (m : list (list F)).

Lemma length_zeros n : length (zeros (F:=F) n) = n.
Proof. apply length_replicate. Qed.
Lemma length_scale α v : length (scale α v) = length v.
Proof. apply length_fmap. Qed.
Lemma length_reciprocal v : length (reciprocal v) = length v.
Proof. apply length_fmap. Qed.
Lemma length_vadd u v : length u = length v → length (vadd u v) = length u.
Proof. intros E. unfold vadd. rewrite length_zip_with. lia. Qed.
Lemma length_vsub u v : length u = length v → length (vsub u v) = length u.
Proof. intros E. unfold vsub. rewrite length_zip_with. lia. Qed.
Lemma length_matvec m v : length (matvec m v) = length m.
Proof. apply length_fmap. Qed.
Lemma square_nrows n m : square n m → length m = n.
Proof. by intros [? _]. Qed.
Lemma square_ncols n m : square n m → ncols m = n.
Proof.
  intros [Hn Hrows]. destruct m as [|row m]; [done|].
  simpl. by inversion Hrows.
Qed.
Lemma square_row n m i row : square n m → m !! i = Some row → length row = n.
Proof. intros [_ Hrows] Hi. by eapply (Forall_lookup_1 _ _ _ _ Hrows). Qed.
Lemma length_diagonal n m : square n m → length (diagonal m) = n.
Proof.
  intros H. unfold diagonal. rewrite length_fmap, length_seq.
  rewrite (square_ncols _ _ H). unfold nrows. rewrite (square_nrows _ _ H). lia.
Qed.
Lemma nrows_diags v : nrows (diags v) = length v.
Proof. unfold nrows, diags. apply length_imap. Qed.
Lemma ncols_diags v : ncols (diags v) = length v.
Proof.
  unfold diags. destruct v as [|a v]; [done|].
  simpl. f_equal. apply length_replicate.
Qed.
Lemma broadcast_same f u v :
  length u = length v → broadcast f u v = Some (zip_with f u v).
Proof. intros E. unfold broadcast. by rewrite decide_True. Qed.
Lemma broadcast_into_same f u v :
  length u = length v → broadcast_into f u v = Some (zip_with f u v).
Proof. intros E. unfold broadcast_into. by rewrite decide_True. Qed.
End Shapes.

Create Rewrite HintDb shape.
Global Hint Rewrite @length_zeros @length_scale @length_reciprocal
  @length_matvec : shape.
Global Hint Rewrite @length_vadd @length_vsub
  using (autorewrite with shape; congruence) : shape.

Ltac square_facts :=
  repeat match goal with
  | H : square ?n ?m |- _ =>
      lazymatch goal with
      | _ : ncols m = n |- _ => fail
      | _ => pose proof (square_nrows _ _ H); pose proof (square_ncols _ _ H)
      end
  end.
Ltac shp := square_facts; autorewrite with shape; congruence.

(** ** Running a computation: one equation per operation *)

Section Rules.
Context {F : Type} {SC : Scalar F}.
Implicit Types (s : state F) (l : loc) (u v : list F) (m : list (list F)).

Lemma runs_bind {A B} (c : M F A) (k : A → M F B) s Q a s' :
  c s = (Ok a, s') → runs_to (k a) s' Q → runs_to (bind c k) s Q.
Proof. unfold runs_to, bind. by intros ->. Qed.

Lemma runs_raise {A B} (c : M F A) (k : A → M F B) s (Q : outcome B → _) e s' :
  c s = (Raise e, s') → Q (Raise e) s' → runs_to (bind c k) s Q.
Proof. unfold runs_to, bind. by intros ->. Qed.

Lemma runs_ret {A} (a : A) s (Q : outcome A → state F → Prop) :
  Q (Ok a) s → runs_to (ret a) s Q.
Proof. done. Qed.

Lemma runs_seq {A B} (c : M F A) (k : A → M F B) s
    (R : outcome A → state F → Prop) (Q : outcome B → state F → Prop) :
  runs_to c s R →
  (∀ out s', R out s' →
     match out with
     | Ok a => runs_to (k a) s' Q
     | Raise e => Q (Raise e) s'
     end) →
  runs_to (bind c k) s Q.
Proof.
  unfold runs_to, bind. intros HR HQ. specialize (HQ _ _ HR).
  by destruct (c s) as [[a|e] s'].
Qed.

Lemma runs_to_wand {A} (c : M F A) s (Q Q' : outcome A → state F → Prop) :
  runs_to c s Q → (∀ out s', Q out s' → Q' out s') → runs_to c s Q'.
Proof. unfold runs_to. auto. Qed.

Lemma runs_to_elim {A} (c : M F A) s (Q : outcome A → state F → Prop) :
  runs_to c s Q → ∃ out s', c s = (out, s') ∧ Q out s'.
Proof. unfold runs_to. intros H. exists (c s).1, (c s).2. by destruct (c s). Qed.

Lemma bind_ok {A B} (c : M F A) (k : A → M F B) s a s' :
  c s = (Ok a, s') → bind c k s = k a s'.
Proof. unfold bind. by intros ->. Qed.

Lemma get_vec_eq s l v : heap s !! l = Some (Vec v) → get_vec l s = (Ok v, s).
Proof. intros H. unfold get_vec, bind, load. by rewrite H. Qed.
Lemma get_sparse_eq s l m :
  heap s !! l = Some (Sparse m) → get_sparse l s = (Ok m, s).
Proof. intros H. unfold get_sparse, bind, load. by rewrite H. Qed.
Lemma get_dense_eq s l m :
  heap s !! l = Some (Dense m) → get_dense l s = (Ok m, s).
Proof. intros H. unfold get_dense, bind, load. by rewrite H. Qed.

Lemma np_zeros_like_eq s b v :
  heap s !! b = Some (Vec v) →
  np_zeros_like b s = (Ok (length (heap s)), push (Vec (zeros (length v))) s).
Proof. intros H. unfold np_zeros_like. by rewrite (bind_ok _ _ _ _ _ (get_vec_eq _ _ _ H)). Qed.

Lemma np_copy_eq s r v :
  heap s !! r = Some (Vec v) →
  np_copy r s = (Ok (length (heap s)), push (Vec v) s).
Proof. intros H. unfold np_copy. by rewrite (bind_ok _ _ _ _ _ (get_vec_eq _ _ _ H)). Qed.

Lemma np_binop_eq f s a b u v :
  heap s !! a = Some (Vec u) → heap s !! b = Some (Vec v) →
  length u = length v →
  np_binop f a b s = (Ok (length (heap s)), push (Vec (zip_with f u v)) s).
Proof.
  intros Ha Hb E. unfold np_binop.
  rewrite (bind_ok _ _ _ _ _ (get_vec_eq _ _ _ Ha)).
  rewrite (bind_ok _ _ _ _ _ (get_vec_eq _ _ _ Hb)).
  by rewrite broadcast_same.
Qed.
Lemma np_add_eq s a b u v :
  heap s !! a = Some (Vec u) → heap s !! b = Some (Vec v) →
  length u = length v →
  np_add a b s = (Ok (length (heap s)), push (Vec (vadd u v)) s).
Proof. apply np_binop_eq. Qed.
Lemma np_sub_eq s a b u v :
  heap s !! a = Some (Vec u) → heap s !! b = Some (Vec v) →
  length u = length v →
  np_sub a b s = (Ok (length (heap s)), push (Vec (vsub u v)) s).
Proof. apply np_binop_eq. Qed.

Lemma np_scale_eq s α p v :
  heap s !! p = Some (Vec v) →
  np_scale α p s = (Ok (length (heap s)), push (Vec (scale α v)) s).
Proof. intros H. unfold np_scale. by rewrite (bind_ok _ _ _ _ _ (get_vec_eq _ _ _ H)). Qed.

Lemma np_reciprocal_eq s d v :
  heap s !! d = Some (Vec v) →
  np_reciprocal d s = (Ok (length (heap s)), push (Vec (reciprocal v)) s).
Proof. intros H. unfold np_reciprocal. by rewrite (bind_ok _ _ _ _ _ (get_vec_eq _ _ _ H)). Qed.

Lemma np_inplace_eq f s x t u v :
  heap s !! x = Some (Vec u) → heap s !! t = Some (Vec v) →
  length u = length v →
  np_inplace f x t s = (Ok (), poke x (Vec (zip_with f u v)) s).
Proof.
  intros Ha Hb E. unfold np_inplace.
  rewrite (bind_ok _ _ _ _ _ (get_vec_eq _ _ _ Ha)).
  rewrite (bind_ok _ _ _ _ _ (get_vec_eq _ _ _ Hb)).
  by rewrite broadcast_into_same.
Qed.
Lemma np_iadd_eq s x t u v :
  heap s !! x = Some (Vec u) → heap s !! t = Some (Vec v) →
  length u = length v →
  np_iadd x t s = (Ok (), poke x (Vec (vadd u v)) s).
Proof. apply np_inplace_eq. Qed.
Lemma np_isub_eq s x t u v :
  heap s !! x = Some (Vec u) → heap s !! t = Some (Vec v) →
  length u = length v →
  np_isub x t s = (Ok (), poke x (Vec (vsub u v)) s).
Proof. apply np_inplace_eq. Qed.

Lemma matmul_eq s u v :
  length u = length v → matmul u v s = (Ok (dot u v), s).
Proof. intros E. unfold matmul. by rewrite decide_True. Qed.

Lemma np_dot_eq s a b u v :
  heap s !! a = Some (Vec u) → heap s !! b = Some (Vec v) →
  length u = length v →
  np_dot a b s = (Ok (dot u v), s).
Proof.
  intros Ha Hb E. unfold np_dot.
  rewrite (bind_ok _ _ _ _ _ (get_vec_eq _ _ _ Ha)).
  rewrite (bind_ok _ _ _ _ _ (get_vec_eq _ _ _ Hb)).
  by apply matmul_eq.
Qed.

Lemma np_norm_eq s a v :
  heap s !! a = Some (Vec v) → np_norm a s = (Ok (norm v), s).
Proof. intros H. unfold np_norm. by rewrite (bind_ok _ _ _ _ _ (get_vec_eq _ _ _ H)). Qed.

Lemma sp_dot_eq s A x m v :
  heap s !! A = Some (Sparse m) → heap s !! x = Some (Vec v) →
  ncols m = length v →
  sp_dot A x s = (Ok (length (heap s)), push (Vec (matvec m v)) s).
Proof.
  intros Ha Hb E. unfold sp_dot.
  rewrite (bind_ok _ _ _ _ _ (get_sparse_eq _ _ _ Ha)).
  rewrite (bind_ok _ _ _ _ _ (get_vec_eq _ _ _ Hb)).
  by rewrite decide_True.
Qed.

Lemma process_time_eq s : process_time s = (Ok (clock s (ticks s)), tick s).
Proof. done. Qed.

Lemma rel_res_of_eq s residual b u v :
  heap s !! residual = Some (Vec u) → heap s !! b = Some (Vec v) →
  rel_res_of residual b s = (Ok (norm u / norm v)%sc, s).
Proof.
  intros Ha Hb. unfold rel_res_of.
  rewrite (bind_ok _ _ _ _ _ (np_norm_eq _ _ _ Ha)).
  by rewrite (bind_ok _ _ _ _ _ (np_norm_eq _ _ _ Hb)).
Qed.

Lemma sp_diagonal_eq s A m :
  heap s !! A = Some (Sparse m) →
  sp_diagonal A s = (Ok (length (heap s)), push (Vec (diagonal m)) s).
Proof.
  intros H. unfold sp_diagonal.
  by rewrite (bind_ok _ _ _ _ _ (get_sparse_eq _ _ _ H)).
Qed.

Lemma sp_diags_eq s d v :
  heap s !! d = Some (Vec v) →
  sp_diags d s = (Ok (length (heap s)), push (Sparse (diags v)) s).
Proof.
  intros H. unfold sp_diags.
  by rewrite (bind_ok _ _ _ _ _ (get_vec_eq _ _ _ H)).
Qed.

Lemma sp_sub_eq s A D m1 m2 :
  heap s !! A = Some (Sparse m1) → heap s !! D = Some (Sparse m2) →
  nrows m1 = nrows m2 → ncols m1 = ncols m2 →
  sp_sub A D s = (Ok (length (heap s)), push (Sparse (matsub m1 m2)) s).
Proof.
  intros Ha Hb ??. unfold sp_sub.
  rewrite (bind_ok _ _ _ _ _ (get_sparse_eq _ _ _ Ha)).
  rewrite (bind_ok _ _ _ _ _ (get_sparse_eq _ _ _ Hb)).
  by rewrite decide_True.
Qed.

Lemma sp_toarray_eq s A m :
  heap s !! A = Some (Sparse m) →
  sp_toarray A s = (Ok (length (heap s)), push (Dense m) s).
Proof.
  intros H. unfold sp_toarray.
  by rewrite (bind_ok _ _ _ _ _ (get_sparse_eq _ _ _ H)).
Qed.

Lemma nd_shape0_eq s A m :
  heap s !! A = Some (Dense m) → nd_shape0 A s = (Ok (length m), s).
Proof.
  intros H. unfold nd_shape0.
  by rewrite (bind_ok _ _ _ _ _ (get_dense_eq _ _ _ H)).
Qed.

Lemma nd_dot_eq s A x m v :
  heap s !! A = Some (Dense m) → heap s !! x = Some (Vec v) →
  ncols m = length v →
  nd_dot A x s = (Ok (length (heap s)), push (Vec (matvec m v)) s).
Proof.
  intros Ha Hb E. unfold nd_dot.
  rewrite (bind_ok _ _ _ _ _ (get_dense_eq _ _ _ Ha)).
  rewrite (bind_ok _ _ _ _ _ (get_vec_eq _ _ _ Hb)).
  by rewrite decide_True.
Qed.

Lemma nd_row_eq s A i m row :
  heap s !! A = Some (Dense m) → m !! i = Some row →
  nd_row A i s = (Ok row, s).
Proof.
  intros H Hi. unfold nd_row.
  rewrite (bind_ok _ _ _ _ _ (get_dense_eq _ _ _ H)). by rewrite Hi.
Qed.

Lemma nd_row_upto_eq s A i j m row :
  heap s !! A = Some (Dense m) → m !! i = Some row →
  nd_row_upto A i j s = (Ok (take j row), s).
Proof.
  intros H Hi. unfold nd_row_upto.
  by rewrite (bind_ok _ _ _ _ _ (nd_row_eq _ _ _ _ _ H Hi)).
Qed.

Lemma nd_row_from_eq s A i j m row :
  heap s !! A = Some (Dense m) → m !! i = Some row →
  nd_row_from A i j s = (Ok (drop j row), s).
Proof.
  intros H Hi. unfold nd_row_from.
  by rewrite (bind_ok _ _ _ _ _ (nd_row_eq _ _ _ _ _ H Hi)).
Qed.

Lemma nd_getitem_eq s A i j m row a :
  heap s !! A = Some (Dense m) → m !! i = Some row → row !! j = Some a →
  nd_getitem A i j s = (Ok a, s).
Proof.
  intros H Hi Hj. unfold nd_getitem.
  rewrite (bind_ok _ _ _ _ _ (nd_row_eq _ _ _ _ _ H Hi)). by rewrite Hj.
Qed.

Lemma np_getitem_eq s b i v a :
  heap s !! b = Some (Vec v) → v !! i = Some a →
  np_getitem b i s = (Ok a, s).
Proof.
  intros H Hi. unfold np_getitem.
  rewrite (bind_ok _ _ _ _ _ (get_vec_eq _ _ _ H)). by rewrite Hi.
Qed.

Lemma np_setitem_eq s x i a v :
  heap s !! x = Some (Vec v) → i < length v →
  np_setitem x i a s = (Ok (), poke x (Vec (<[i:=a]> v)) s).
Proof.
  intros H Hi. unfold np_setitem.
  rewrite (bind_ok _ _ _ _ _ (get_vec_eq _ _ _ H)). by rewrite decide_True.
Qed.

Lemma np_upto_eq s x i v :
  heap s !! x = Some (Vec v) → np_upto x i s = (Ok (take i v), s).
Proof.
  intros H. unfold np_upto. by rewrite (bind_ok _ _ _ _ _ (get_vec_eq _ _ _ H)).
Qed.

Lemma np_from_eq s x i v :
  heap s !! x = Some (Vec v) → np_from x i s = (Ok (drop i v), s).
Proof.
  intros H. unfold np_from. by rewrite (bind_ok _ _ _ _ _ (get_vec_eq _ _ _ H)).
Qed.

(* What a computation keeps of the heap, and the loop variable. *)
Lemma keeps_refl ws s : keeps ws s s.
Proof. by repeat split. Qed.

Lemma keeps_trans ws s1 s2 s3 :
  keeps ws s1 s2 → keeps ws s2 s3 → keeps ws s1 s3.
Proof.
  intros (?&?&?&H12) (?&?&?&H23). split_and!; [congruence|congruence|lia|].
  eauto.
Qed.

Lemma keeps_lookup1 x (s s' : state F) l o :
  keeps [x] s s' → l ≠ x → heap s !! l = Some o → heap s' !! l = Some o.
Proof.
  intros (_&_&_&Hk) ??. apply Hk; [|done].
  rewrite !not_elem_of_cons. split_and!; [done|apply not_elem_of_nil].
Qed.

Lemma keeps_lookup2 x r s s' l o :
  keeps [x; r] s s' → l ≠ x → l ≠ r →
  heap s !! l = Some o → heap s' !! l = Some o.
Proof.
  intros (_&_&_&Hk) ???. apply Hk; [|done].
  rewrite !not_elem_of_cons. split_and!; [done|done|apply not_elem_of_nil].
Qed.

Lemma keeps_extends ws s s' :
  keeps ws s s' → ∀ l o, l ∉ ws → heap s !! l = Some o → heap s' !! l = Some o.
Proof. by intros (_&_&_&?). Qed.

Lemma last_k_step start kv j :
  last_k (S start) (Some start) j = last_k start kv (S j).
Proof. destruct j; simpl; f_equal; lia. Qed.
End Rules.

Ltac side := solve [lk | shp].
Tactic Notation "step" uconstr(lem) :=
  eapply runs_bind; [ eapply lem; side | ]; cbn beta iota.

(** ** The end of every method *)

Section Finish.
Context {F : Type} {SC : Scalar F}.
Implicit Types (s : state F).

Lemma finish_runs x x_exact kv start_time s xv xev :
  heap s !! x = Some (Vec xv) → heap s !! x_exact = Some (Vec xev) →
  length xv = length xev →
  runs_to (finish x x_exact kv start_time) s (λ out s',
    extends s s' ∧
    match kv with
    | Some k =>
        out = Ok (x, k + 1, (clock s (ticks s) - start_time)%sc,
                  (norm (vsub xv xev) / norm xev)%sc)
    | None => out = Raise (UnboundLocalError "k")
    end).
Proof.
  intros Hx Hxe Hlen. unfold finish.
  step np_sub_eq. step np_norm_eq. step np_norm_eq.
  destruct kv as [k|]; simpl.
  - eapply runs_bind; [done|]. step process_time_eq.
    apply runs_ret. split; [intros l o ?; lk|done].
  - eapply runs_raise; [done|]. split; [intros l o ?; lk|done].
Qed.
End Finish.

(** ** Conjugate gradient *)

Section CG.
Context {F : Type} {SC : Scalar F}.
Implicit Types (s : state F).

Lemma cg_body_runs A b x r tol k p rsold s n Av bv xv rv pv :
  heap s !! A = Some (Sparse Av) → heap s !! b = Some (Vec bv) →
  heap s !! x = Some (Vec xv) → heap s !! r = Some (Vec rv) →
  heap s !! p = Some (Vec pv) →
  square n Av → length bv = n → length xv = n → length rv = n → length pv = n →
  A ≠ x → A ≠ r → b ≠ x → b ≠ r → x ≠ r → p ≠ x → p ≠ r →
  let Ap := matvec Av pv in
  let α := (rsold / dot pv Ap)%sc in
  let xv' := vadd xv (scale α pv) in
  let rv' := vsub rv (scale α Ap) in
  let rsnew := dot rv' rv' in
  runs_to (conjugate_gradient_body A b x r tol k (p, rsold)) s (λ out s',
    keeps [x; r] s s' ∧
    heap s' !! x = Some (Vec xv') ∧ heap s' !! r = Some (Vec rv') ∧
    if (fsqrt rsnew / norm bv <? tol)%sc then out = Ok (Break (p, rsold))
    else ∃ p', out = Ok (Continue (p', rsnew)) ∧ length (heap s) ≤ p' ∧
         heap s' !! p' = Some (Vec (vadd rv' (scale (rsnew / rsold)%sc pv)))).
Proof.
  intros HA Hb Hx Hr Hp HAv Hbv Hxv Hrv Hpv ???????. cbv zeta.
  bounds. unfold conjugate_gradient_body.
  step sp_dot_eq. step np_dot_eq. step np_scale_eq. step np_iadd_eq.
  step np_scale_eq. step np_isub_eq. step np_dot_eq. step np_norm_eq.
  unfold np_sqrt. case_match.
  - apply runs_ret. split_and!; [|lk|lk|done].
    split_and!; [done|done|len|]. intros l o Hl ?.
    assert (l ≠ x ∧ l ≠ r) as [??] by set_solver. lk.
  - step np_scale_eq. step np_add_eq. apply runs_ret.
    split_and!; [|lk|lk|].
    + split_and!; [done|done|len|]. intros l o Hl ?.
      assert (l ≠ x ∧ l ≠ r) as [??] by set_solver. lk.
    + eexists. split_and!; [done|len|lk].
Qed.

Lemma cg_loop_runs A b x r tol n Av bv dim :
  square dim Av → length bv = dim →
  A ≠ x → A ≠ r → b ≠ x → b ≠ r → x ≠ r →
  ∀ start kv p rsold s xv rv pv,
  heap s !! A = Some (Sparse Av) → heap s !! b = Some (Vec bv) →
  heap s !! x = Some (Vec xv) → heap s !! r = Some (Vec rv) →
  heap s !! p = Some (Vec pv) →
  length xv = dim → length rv = dim → length pv = dim →
  p ≠ x → p ≠ r →
  runs_to (for_range start n (conjugate_gradient_body A b x r tol) kv (p, rsold)) s
    (λ out s',
      keeps [x; r] s s' ∧
      heap s' !! x = Some (Vec (cg_x (cg_spec_loop Av bv tol n (CGVars xv rv pv rsold)).2)) ∧
      ∃ e, out = Ok (last_k start kv (cg_spec_loop Av bv tol n (CGVars xv rv pv rsold)).1, e)).
Proof.
  intros HAv Hbv ?????. induction n as [|n IH];
    intros start kv p rsold s xv rv pv HA Hb Hx Hr Hp Hxv Hrv Hpv ??.
  - simpl. apply runs_ret. split_and!; [apply keeps_refl|done|by eexists].
  - cbn [for_range cg_spec_loop].
    eapply runs_seq; [by eapply (cg_body_runs A b x r tol start p rsold s dim)|].
    cbv beta zeta. intros out s' (Hk & Hx' & Hr' & Hout).
    unfold cg_spec_step; cbn [cg_x cg_r cg_p cg_rsold].
    destruct (_ <? tol)%sc.
    + subst out. apply runs_ret. cbn. split_and!; [done|done|].
      eexists. by rewrite Nat.add_0_r.
    + destruct Hout as (p' & -> & Hp' & Hpv').
      pose proof Hk as (_&_&?&_). bounds.
      eapply runs_to_wand.
      { eapply (IH (S start) (Some start) p'); eauto using keeps_lookup2.
        - shp. - shp. - shp. - lia. - lia. }
      cbv beta. intros out s'' (Hk' & Hx'' & e & ->).
      destruct (cg_spec_loop _ _ _ _ _) as [j w]. cbn.
      split_and!; [|done|].
      * eapply keeps_trans; [|done]. done.
      * eexists. by rewrite (last_k_step start kv).
Qed.

Lemma cg_setup_runs A b s n Av bv :
  heap s !! A = Some (Sparse Av) → heap s !! b = Some (Vec bv) →
  square n Av → length bv = n →
  runs_to (conjugate_gradient_setup A b) s (λ out s',
    let r0 := vsub bv (matvec Av (zeros n)) in
    let x := length (heap s) in
    out = Ok (x, x + 2, x + 3, dot r0 r0, clock s (ticks s)) ∧
    extends s s' ∧ clock s' = clock s ∧ ticks s' = S (ticks s) ∧
    heap s' !! x = Some (Vec (zeros n)) ∧
    heap s' !! (x + 2) = Some (Vec r0) ∧
    heap s' !! (x + 3) = Some (Vec r0)).
Proof.
  intros HA Hb HAv Hbv. bounds. unfold conjugate_gradient_setup. subst n.
  step np_zeros_like_eq. step sp_dot_eq. step np_sub_eq. step np_copy_eq.
  step np_dot_eq. step process_time_eq. apply runs_ret.
  split_and!; [|intros l o ?; lk|done|done|lk|lk|lk].
  f_equal. rewrite !pair_equal_spec. split_and!; (done || len).
Qed.

Lemma cg_spec_step_shaped n Av bv tol v :
  square n Av → cg_shaped n v → cg_shaped n (cg_spec_step Av bv tol v).2.
Proof.
  intros HAv (?&?&?). unfold cg_spec_step. cbv zeta.
  unfold cg_shaped. case_match; simpl; repeat split; shp.
Qed.

Lemma cg_spec_loop_shaped n Av bv tol k v :
  square n Av → cg_shaped n v → cg_shaped n (cg_spec_loop Av bv tol k v).2.
Proof.
  intros HAv. revert v. induction k as [|k IH]; intros v Hv; [done|].
  cbn [cg_spec_loop].
  pose proof (cg_spec_step_shaped n Av bv tol v HAv Hv) as Hstep.
  destruct (cg_spec_step Av bv tol v) as [[] v']; [done|].
  specialize (IH v' Hstep). by destruct (cg_spec_loop Av bv tol k v').
Qed.

Lemma cg_spec_loop_pos Av bv tol k v :
  0 < k → 0 < (cg_spec_loop Av bv tol k v).1.
Proof.
  destruct k as [|k]; [lia|]. intros _. cbn [cg_spec_loop].
  destruct (cg_spec_step Av bv tol v) as [[] v']; [simpl; lia|].
  destruct (cg_spec_loop Av bv tol k v'). simpl. lia.
Qed.

(** C4.  [conjugate_gradient] computes the recurrence of the specification:
    from x = 0, r_0 = b, p_0 = r_0 and rsold = r_0 . r_0, every iteration
    takes Ap = A p, alpha = rsold / (p . Ap), x += alpha p, r -= alpha Ap and
    rsnew = r . r, stops when sqrt rsnew / |b| < tol, and otherwise goes on
    with p = r + (rsnew / rsold) p and rsold = rsnew ([cg_spec]).  For a
    square system of matching shapes, at least one iteration allowed and
    b - A 0 = b (which holds in exact arithmetic, see [exact_residual_at_zero],
    and in binary64 when the entries are finite), the call returns the
    solution, the number of iterations and the relative error of [cg_spec],
    and the difference of two clock readings. *)
Theorem conjugate_gradient_recurrence s A b x_exact n Av bv xev tol max_iter :
  heap s !! A = Some (Sparse Av) →
  heap s !! b = Some (Vec bv) →
  heap s !! x_exact = Some (Vec xev) →
  square n Av → length bv = n → length xev = n →
  0 < max_iter →
  vsub bv (matvec Av (zeros n)) = bv →
  ∃ x s',
    conjugate_gradient A b x_exact tol max_iter s =
      (Ok (x, (cg_spec Av bv xev tol max_iter).1.2,
           (clock s (S (ticks s)) - clock s (ticks s))%sc,
           (cg_spec Av bv xev tol max_iter).2), s') ∧
    heap s' !! x = Some (Vec (cg_spec Av bv xev tol max_iter).1.1).
Proof.
  intros HA Hb Hxe HAv Hbv Hxev Hpos Hr0. bounds.
  cut (runs_to (conjugate_gradient A b x_exact tol max_iter) s (λ out s',
    ∃ x, out = Ok (x, (cg_spec Av bv xev tol max_iter).1.2,
           (clock s (S (ticks s)) - clock s (ticks s))%sc,
           (cg_spec Av bv xev tol max_iter).2) ∧
      heap s' !! x = Some (Vec (cg_spec Av bv xev tol max_iter).1.1))).
  { intros (out & s' & Heq & x & -> & Hx)%runs_to_elim. eauto. }
  unfold conjugate_gradient.
  eapply runs_seq; [by eapply cg_setup_runs|].
  cbv beta zeta. rewrite Hr0.
  intros out s1 (-> & Hext & Hclock & Hticks & Hx & Hr & Hp). cbn beta iota.
  eapply runs_seq.
  { eapply (cg_loop_runs A b _ _ tol max_iter Av bv n); eauto; try lia; shp. }
  cbv beta. intros out s2 (Hk & Hx2 & e & ->). cbn beta iota.
  pose proof (cg_spec_loop_shaped n Av bv tol max_iter (cg_spec_start bv) HAv)
    as (Hlen & _).
  { unfold cg_spec_start. repeat split; cbn; shp. }
  pose proof (cg_spec_loop_pos Av bv tol max_iter (cg_spec_start bv) Hpos) as Hj.
  unfold cg_spec. unfold cg_spec_start in *. subst n.
  destruct (cg_spec_loop Av bv tol max_iter _) as [j w]. cbn in *.
  destruct e as [p' rs']. destruct j as [|j]; [lia|]. cbn [last_k].
  eapply runs_to_wand.
  { eapply finish_runs; [done| |].
    - eapply keeps_extends; [done| |by apply Hext].
      rewrite !not_elem_of_cons. split_and!; [lia|lia|apply not_elem_of_nil].
    - congruence. }
  cbv beta. intros out s3 (Hext3 & ->). destruct Hk as (Hc & Ht & _).
  exists (length (heap s)). split; [|by apply Hext3].
  rewrite Hc, Ht, Hclock, Hticks. do 4 f_equal. lia.
Qed.
End CG.

(** ** Gradient *)

Section Gradient.
Context {F : Type} {SC : Scalar F}.
Implicit Types (s : state F).

Lemma gradient_body_runs A b x tol k r p s n Av bv xv rv pv :
  heap s !! A = Some (Sparse Av) → heap s !! b = Some (Vec bv) →
  heap s !! x = Some (Vec xv) → heap s !! r = Some (Vec rv) →
  heap s !! p = Some (Vec pv) →
  square n Av → length bv = n → length xv = n → length rv = n → length pv = n →
  A ≠ x → b ≠ x → r ≠ x → p ≠ x →
  let Ap := matvec Av pv in
  let α := (dot rv rv / dot pv Ap)%sc in
  let xv' := vadd xv (scale α pv) in
  let r_new := vsub rv (scale α Ap) in
  let β := (dot r_new r_new / dot rv rv)%sc in
  runs_to (gradient_body A b x tol k (r, p)) s (λ out s',
    keeps [x] s s' ∧
    heap s' !! x = Some (Vec xv') ∧
    if (norm r_new / norm bv <? tol)%sc then out = Ok (Break (r, p))
    else ∃ r' p', out = Ok (Continue (r', p')) ∧
         length (heap s) ≤ r' ∧ length (heap s) ≤ p' ∧
         heap s' !! r' = Some (Vec r_new) ∧
         heap s' !! p' = Some (Vec (vadd r_new (scale β pv)))).
Proof.
  intros HA Hb Hx Hr Hp HAv Hbv Hxv Hrv Hpv ????. cbv zeta.
  bounds. unfold gradient_body.
  step sp_dot_eq. step np_dot_eq. step np_dot_eq. step np_scale_eq.
  step np_iadd_eq. step np_scale_eq. step np_sub_eq. step rel_res_of_eq.
  case_match.
  - apply runs_ret. split_and!; [|lk|done].
    split_and!; [done|done|len|]. intros l o [? _]%not_elem_of_cons ?. lk.
  - step np_dot_eq. step np_dot_eq. step np_scale_eq. step np_add_eq.
    apply runs_ret. split_and!; [|lk|].
    + split_and!; [done|done|len|]. intros l o [? _]%not_elem_of_cons ?. lk.
    + do 2 eexists. split_and!; [done|len|len|lk|lk].
Qed.

Lemma gradient_loop_runs A b x tol n Av bv dim :
  square dim Av → length bv = dim →
  A ≠ x → b ≠ x →
  ∀ start kv r p s xv rv pv,
  heap s !! A = Some (Sparse Av) → heap s !! b = Some (Vec bv) →
  heap s !! x = Some (Vec xv) → heap s !! r = Some (Vec rv) →
  heap s !! p = Some (Vec pv) →
  length xv = dim → length rv = dim → length pv = dim →
  r ≠ x → p ≠ x →
  runs_to (for_range start n (gradient_body A b x tol) kv (r, p)) s
    (λ out s',
      keeps [x] s s' ∧
      heap s' !! x = Some (Vec (gd_x (gd_spec_loop Av bv tol n (GDVars xv rv pv)).2)) ∧
      ∃ e, out = Ok (last_k start kv (gd_spec_loop Av bv tol n (GDVars xv rv pv)).1, e)).
Proof.
  intros HAv Hbv ??. induction n as [|n IH];
    intros start kv r p s xv rv pv HA Hb Hx Hr Hp Hxv Hrv Hpv ??.
  - simpl. apply runs_ret. split_and!; [apply keeps_refl|done|by eexists].
  - cbn [for_range gd_spec_loop].
    eapply runs_seq; [by eapply (gradient_body_runs A b x tol start r p s dim)|].
    cbv beta zeta. intros out s' (Hk & Hx' & Hout).
    unfold gd_spec_step; cbn [gd_x gd_r gd_p].
    destruct (_ <? tol)%sc.
    + subst out. apply runs_ret. cbn. split_and!; [done|done|].
      eexists. by rewrite Nat.add_0_r.
    + destruct Hout as (r' & p' & -> & Hr' & Hp' & Hrv' & Hpv').
      pose proof Hk as (_&_&?&_). bounds.
      eapply runs_to_wand.
      { eapply (IH (S start) (Some start) r' p'); eauto using keeps_lookup1.
        - shp. - shp. - shp. - lia. - lia. }
      cbv beta. intros out s'' (Hk' & Hx'' & e & ->).
      destruct (gd_spec_loop _ _ _ _ _) as [j w]. cbn.
      split_and!; [|done|].
      * eapply keeps_trans; [|done]. done.
      * eexists. by rewrite (last_k_step start kv).
Qed.

Lemma gradient_setup_runs A b s n Av bv :
  heap s !! A = Some (Sparse Av) → heap s !! b = Some (Vec bv) →
  square n Av → length bv = n →
  runs_to (gradient_setup A b) s (λ out s',
    let r0 := vsub bv (matvec Av (zeros n)) in
    let x := length (heap s) in
    out = Ok (x, x + 2, x + 3, clock s (ticks s)) ∧
    extends s s' ∧ clock s' = clock s ∧ ticks s' = S (ticks s) ∧
    heap s' !! x = Some (Vec (zeros n)) ∧
    heap s' !! (x + 2) = Some (Vec r0) ∧
    heap s' !! (x + 3) = Some (Vec r0)).
Proof.
  intros HA Hb HAv Hbv. bounds. unfold gradient_setup. subst n.
  step np_zeros_like_eq. step sp_dot_eq. step np_sub_eq. step np_copy_eq.
  step process_time_eq. apply runs_ret.
  split_and!; [|intros l o ?; lk|done|done|lk|lk|lk].
  f_equal. rewrite !pair_equal_spec. split_and!; (done || len).
Qed.

Lemma gd_spec_step_shaped n Av bv tol v :
  square n Av → gd_shaped n v → gd_shaped n (gd_spec_step Av bv tol v).2.
Proof.
  intros HAv (?&?&?). unfold gd_spec_step. cbv zeta.
  unfold gd_shaped. case_match; simpl; repeat split; shp.
Qed.

Lemma gd_spec_loop_shaped n Av bv tol k v :
  square n Av → gd_shaped n v → gd_shaped n (gd_spec_loop Av bv tol k v).2.
Proof.
  intros HAv. revert v. induction k as [|k IH]; intros v Hv; [done|].
  cbn [gd_spec_loop].
  pose proof (gd_spec_step_shaped n Av bv tol v HAv Hv) as Hstep.
  destruct (gd_spec_step Av bv tol v) as [[] v']; [done|].
  specialize (IH v' Hstep). by destruct (gd_spec_loop Av bv tol k v').
Qed.

Lemma gd_spec_loop_pos Av bv tol k v :
  0 < k → 0 < (gd_spec_loop Av bv tol k v).1.
Proof.
  destruct k as [|k]; [lia|]. intros _. cbn [gd_spec_loop].
  destruct (gd_spec_step Av bv tol v) as [[] v']; [simpl; lia|].
  destruct (gd_spec_loop Av bv tol k v'). simpl. lia.
Qed.

(** C5.  [gradient] computes the recurrence of the specification: every
    iteration takes Ap = A p, alpha = (r . r) / (p . Ap), x += alpha p and
    r_new = r - alpha Ap, stops when |r_new| / |b| < tol, and otherwise goes
    on with p = r_new + beta p, where beta = (r_new . r_new) / (r . r) is
    taken with the residual r of before the update, and then r = r_new
    ([gd_spec], entered with x = 0, r = b - A x, p = r).  For a square system
    of matching shapes and at least one iteration allowed, the call returns
    the solution, the number of iterations and the relative error of
    [gd_spec]. *)
Theorem gradient_recurrence s A b x_exact n Av bv xev tol max_iter :
  heap s !! A = Some (Sparse Av) →
  heap s !! b = Some (Vec bv) →
  heap s !! x_exact = Some (Vec xev) →
  square n Av → length bv = n → length xev = n →
  0 < max_iter →
  ∃ x s',
    gradient A b x_exact tol max_iter s =
      (Ok (x, (gd_spec Av bv xev tol max_iter).1.2,
           (clock s (S (ticks s)) - clock s (ticks s))%sc,
           (gd_spec Av bv xev tol max_iter).2), s') ∧
    heap s' !! x = Some (Vec (gd_spec Av bv xev tol max_iter).1.1).
Proof.
  intros HA Hb Hxe HAv Hbv Hxev Hpos. bounds.
  cut (runs_to (gradient A b x_exact tol max_iter) s (λ out s',
    ∃ x, out = Ok (x, (gd_spec Av bv xev tol max_iter).1.2,
           (clock s (S (ticks s)) - clock s (ticks s))%sc,
           (gd_spec Av bv xev tol max_iter).2) ∧
      heap s' !! x = Some (Vec (gd_spec Av bv xev tol max_iter).1.1))).
  { intros (out & s' & Heq & x & -> & Hx)%runs_to_elim. eauto. }
  unfold gradient.
  eapply runs_seq; [by eapply gradient_setup_runs|].
  cbv beta zeta.
  intros out s1 (-> & Hext & Hclock & Hticks & Hx & Hr & Hp). cbn beta iota.
  eapply runs_seq.
  { eapply (gradient_loop_runs A b _ tol max_iter Av bv n); eauto; try lia; shp. }
  cbv beta. intros out s2 (Hk & Hx2 & e & ->). cbn beta iota.
  pose proof (gd_spec_loop_shaped n Av bv tol max_iter (gd_spec_start Av bv) HAv)
    as (Hlen & _).
  { unfold gd_spec_start. repeat split; cbn; shp. }
  pose proof (gd_spec_loop_pos Av bv tol max_iter (gd_spec_start Av bv) Hpos) as Hj.
  unfold gd_spec. unfold gd_spec_start in *. subst n.
  destruct (gd_spec_loop Av bv tol max_iter _) as [j w]. cbn in *.
  destruct e as [r' p']. destruct j as [|j]; [lia|]. cbn [last_k].
  eapply runs_to_wand.
  { eapply finish_runs; [done| |].
    - eapply keeps_extends; [done| |by apply Hext].
      rewrite !not_elem_of_cons. split_and!; [lia|apply not_elem_of_nil].
    - congruence. }
  cbv beta. intros out s3 (Hext3 & ->). destruct Hk as (Hc & Ht & _).
  exists (length (heap s)). split; [|by apply Hext3].
  rewrite Hc, Ht, Hclock, Hticks. do 4 f_equal. lia.
Qed.
End Gradient.

(** ** Gauss-Seidel *)

Section GS.
Context {F : Type} {SC : Scalar F}.
Implicit Types (s : state F) (u v : list F) (m : list (list F)).

Lemma dot_products u v :
  dot u v = foldl fadd fzero (zip_with fmul u v).
Proof.
  unfold dot. generalize (fzero (F:=F)). revert v.
  induction u as [|a u IH]; intros [|b v] acc; simpl; auto.
Qed.

Lemma sum_over_products js (f : nat → F) :
  sum_over js f = foldl fadd fzero (f <$> js).
Proof. unfold sum_over. by rewrite foldl_fmap. Qed.

Lemma at_index_lookup v j a : v !! j = Some a → at_index v j = a.
Proof. unfold at_index. by intros ->. Qed.

Lemma lookup_at_index v j : j < length v → v !! j = Some (at_index v j).
Proof.
  intros [a Ha]%lookup_lt_is_Some. by rewrite (at_index_lookup _ _ _ Ha).
Qed.

Lemma dot_take u v i :
  i ≤ length u → i ≤ length v →
  dot (take i u) (take i v) =
  sum_over (seq 0 i) (λ j, at_index u j * at_index v j)%sc.
Proof.
  intros Hu Hv. rewrite dot_products, sum_over_products. f_equal.
  apply list_eq. intros j. rewrite lookup_zip_with, list_lookup_fmap.
  destruct (decide (j < i)) as [Hj|Hj].
  - rewrite !lookup_take_lt, lookup_seq_lt by done.
    rewrite (lookup_at_index u j), (lookup_at_index v j) by lia. by simpl.
  - rewrite !lookup_take_ge, lookup_seq_ge by lia. reflexivity.
Qed.

Lemma dot_drop u v k n :
  length u = n → length v = n →
  dot (drop k u) (drop k v) =
  sum_over (seq k (n - k)) (λ j, at_index u j * at_index v j)%sc.
Proof.
  intros Hu Hv. rewrite dot_products, sum_over_products. f_equal.
  apply list_eq. intros j. rewrite lookup_zip_with, list_lookup_fmap, !lookup_drop.
  destruct (decide (j < n - k)) as [Hj|Hj].
  - rewrite lookup_seq_lt by done.
    rewrite (lookup_at_index u (k + j)), (lookup_at_index v (k + j)) by lia.
    by simpl.
  - rewrite lookup_seq_ge by lia.
    rewrite (lookup_ge_None_2 u) by lia. reflexivity.
Qed.

Lemma entry_row m i j row : m !! i = Some row → entry m i j = at_index row j.
Proof. unfold entry, at_index. by intros ->. Qed.

Lemma sum_over_ext js (f g : nat → F) :
  (∀ j, f j = g j) → sum_over js f = sum_over js g.
Proof.
  intros H. rewrite !sum_over_products. f_equal.
  apply list_fmap_ext. auto.
Qed.

Lemma gs_component_row m bv x xo i row :
  m !! i = Some row →
  gs_component m bv x xo i =
  ((at_index bv i
    - sum_over (seq 0 i) (λ j, at_index row j * at_index x j)
    - sum_over (seq (i + 1) (length m - (i + 1)))
        (λ j, at_index row j * at_index xo j))
   / at_index row i)%sc.
Proof.
  intros Hrow. unfold gs_component.
  rewrite (entry_row _ _ _ _ Hrow).
  rewrite (sum_over_ext _ (λ j, entry m i j * at_index x j)%sc
    (λ j, at_index row j * at_index x j)%sc)
    by (intros j; by rewrite (entry_row _ _ _ _ Hrow)).
  rewrite (sum_over_ext _ (λ j, entry m i j * at_index xo j)%sc
    (λ j, at_index row j * at_index xo j)%sc)
    by (intros j; by rewrite (entry_row _ _ _ _ Hrow)).
  done.
Qed.

Lemma gauss_seidel_update_eq s A b x x_old i n Av bv xv xo :
  heap s !! A = Some (Dense Av) → heap s !! b = Some (Vec bv) →
  heap s !! x = Some (Vec xv) → heap s !! x_old = Some (Vec xo) →
  square n Av → length bv = n → length xv = n → length xo = n →
  i < n →
  gauss_seidel_update A b x x_old i s =
    (Ok (), poke x (Vec (<[i:=gs_component Av bv xv xo i]> xv)) s).
Proof.
  intros HA Hb Hx Hxo HAv Hbv Hxv Hxov Hi.
  destruct (lookup_lt_is_Some_2 Av i) as [row Hrow]; [destruct HAv; lia|].
  pose proof (square_row _ _ _ _ HAv Hrow) as Hlen.
  unfold gauss_seidel_update.
  rewrite (bind_ok _ _ _ _ _ (np_getitem_eq s b i bv (at_index bv i) Hb
    (lookup_at_index bv i ltac:(lia)))).
  rewrite (bind_ok _ _ _ _ _ (nd_row_upto_eq s A i i Av row HA Hrow)).
  rewrite (bind_ok _ _ _ _ _ (np_upto_eq s x i xv Hx)).
  rewrite (bind_ok _ _ _ _ _ (matmul_eq s (take i row) (take i xv)
    ltac:(rewrite !length_take; lia))).
  rewrite (bind_ok _ _ _ _ _ (nd_row_from_eq s A i (i + 1) Av row HA Hrow)).
  rewrite (bind_ok _ _ _ _ _ (np_from_eq s x_old (i + 1) xo Hxo)).
  rewrite (bind_ok _ _ _ _ _ (matmul_eq s (drop (i + 1) row) (drop (i + 1) xo)
    ltac:(rewrite !length_drop; lia))).
  rewrite (bind_ok _ _ _ _ _ (nd_getitem_eq s A i i Av row (at_index row i) HA Hrow
    (lookup_at_index row i ltac:(lia)))).
  rewrite (np_setitem_eq s x i _ xv Hx) by lia.
  rewrite (gs_component_row _ _ _ _ _ _ Hrow). destruct HAv as [HnA _].
  by rewrite (dot_take row xv i), (dot_drop row xo (i + 1) n), HnA by lia.
Qed.

Lemma length_gs_sweep_from Av bv xo idx xv :
  length (gs_sweep_from Av bv xo idx xv) = length xv.
Proof.
  revert xv. induction idx as [|i idx IH]; intros xv; [done|].
  unfold gs_sweep_from in *. simpl. by rewrite IH, length_insert.
Qed.

Lemma length_gs_sweep Av bv xv : length (gs_sweep Av bv xv) = length xv.
Proof. apply length_gs_sweep_from. Qed.

Lemma gs_inner_runs A b x x_old n Av bv xo idx :
  square n Av → length bv = n → length xo = n →
  A ≠ x → b ≠ x → x_old ≠ x →
  Forall (λ i, i < n) idx →
  ∀ xv s,
  heap s !! A = Some (Dense Av) → heap s !! b = Some (Vec bv) →
  heap s !! x = Some (Vec xv) → heap s !! x_old = Some (Vec xo) →
  length xv = n →
  runs_to (for_each idx (gauss_seidel_update A b x x_old)) s (λ out s',
    out = Ok () ∧ keeps [x] s s' ∧
    heap s' !! x = Some (Vec (gs_sweep_from Av bv xo idx xv))).
Proof.
  intros HAv Hbv Hxo ??? Hidx.
  induction Hidx as [|i idx Hi _ IH]; intros xv s HA Hb Hx Hxold Hxv.
  - apply runs_ret. split_and!; [done|apply keeps_refl|done].
  - cbn [for_each]. eapply runs_bind.
    { by eapply (gauss_seidel_update_eq s A b x x_old i n Av bv xv xo). }
    eapply runs_to_wand.
    { eapply (IH (<[i:=gs_component Av bv xv xo i]> xv)); [lk|lk|lk|lk|].
      by rewrite length_insert. }
    cbv beta. intros out s' (-> & Hk & Hx').
    split_and!; [done| |done].
    eapply keeps_trans; [|done].
    split_and!; [done|done|len|]. intros l o [? _]%not_elem_of_cons ?. lk.
Qed.

Lemma gauss_seidel_body_runs A b x tol k s n Av bv xv :
  heap s !! A = Some (Dense Av) → heap s !! b = Some (Vec bv) →
  heap s !! x = Some (Vec xv) →
  square n Av → length bv = n → length xv = n →
  A ≠ x → b ≠ x →
  let xv' := gs_sweep Av bv xv in
  runs_to (gauss_seidel_body A b x tol k ()) s (λ out s',
    keeps [x] s s' ∧ heap s' !! x = Some (Vec xv') ∧
    out = Ok (if (norm (vsub (matvec Av xv') bv) / norm bv <? tol)%sc
              then Break () else Continue ())).
Proof.
  intros HA Hb Hx HAv Hbv Hxv ??. cbv zeta. bounds.
  unfold gauss_seidel_body.
  step np_copy_eq. step nd_shape0_eq.
  eapply runs_seq.
  { eapply (gs_inner_runs A b x (length (heap s)) n Av bv xv);
      [done|done|done|done|done|lia| |lk|lk|lk|lk|done].
    destruct HAv as [-> _]. apply Forall_seq. lia. }
  cbv beta. intros out s' (-> & Hk & Hx').
  pose proof Hk as (_&_&?&_). pose proof (length_heap_push (Vec xv) s).
  assert (heap s' !! A = Some (Dense Av)) by (eapply keeps_lookup1; [done|done|lk]).
  assert (heap s' !! b = Some (Vec bv)) by (eapply keeps_lookup1; [done|done|lk]).
  assert (length (gs_sweep_from Av bv xv (seq 0 (length Av)) xv) = n)
    by by rewrite length_gs_sweep_from.
  step nd_dot_eq. step np_sub_eq. step rel_res_of_eq.
  unfold gs_sweep.
  assert (keeps [x] s
    (push (Vec (vsub (matvec Av (gs_sweep_from Av bv xv (seq 0 (length Av)) xv)) bv))
       (push (Vec (matvec Av (gs_sweep_from Av bv xv (seq 0 (length Av)) xv))) s'))).
  { destruct Hk as (?&?&?&Hk). split_and!; [done|done|len|].
    intros l o Hl ?. do 2 apply lookup_push_old. apply Hk; [done|lk]. }
  case_match; apply runs_ret; (split_and!; [done|lk|done]).
Qed.

Lemma gauss_seidel_loop_runs A b x tol n Av bv dim :
  square dim Av → length bv = dim →
  A ≠ x → b ≠ x →
  ∀ start kv s xv,
  heap s !! A = Some (Dense Av) → heap s !! b = Some (Vec bv) →
  heap s !! x = Some (Vec xv) → length xv = dim →
  runs_to (for_range start n (gauss_seidel_body A b x tol) kv ()) s
    (λ out s',
      keeps [x] s s' ∧
      heap s' !! x = Some (Vec (gs_spec_loop Av bv tol n xv).2) ∧
      out = Ok (last_k start kv (gs_spec_loop Av bv tol n xv).1, ())).
Proof.
  intros HAv Hbv ??. induction n as [|n IH];
    intros start kv s xv HA Hb Hx Hxv.
  - simpl. apply runs_ret. split_and!; [apply keeps_refl|done|done].
  - cbn [for_range gs_spec_loop].
    eapply runs_seq; [by eapply (gauss_seidel_body_runs A b x tol start s dim)|].
    cbv beta zeta. intros out s' (Hk & Hx' & ->).
    destruct (_ <? tol)%sc.
    + apply runs_ret. cbn. split_and!; [done|done|].
      by rewrite Nat.add_0_r.
    + eapply runs_to_wand.
      { eapply (IH (S start) (Some start)); eauto using keeps_lookup1.
        by rewrite length_gs_sweep. }
      cbv beta. intros out s'' (Hk' & Hx'' & ->).
      destruct (gs_spec_loop _ _ _ _ _) as [j w]. cbn.
      split_and!; [|done|].
      * eapply keeps_trans; [|done]. done.
      * by rewrite (last_k_step start kv).
Qed.

Lemma gauss_seidel_setup_runs A b s n Av bv :
  heap s !! A = Some (Sparse Av) → heap s !! b = Some (Vec bv) →
  length bv = n →
  runs_to (gauss_seidel_setup A b) s (λ out s',
    let x := length (heap s) in
    out = Ok (x, clock s (ticks s), x + 1) ∧
    extends s s' ∧ clock s' = clock s ∧ ticks s' = S (ticks s) ∧
    heap s' !! x = Some (Vec (zeros n)) ∧
    heap s' !! (x + 1) = Some (Dense Av)).
Proof.
  intros HA Hb Hbv. bounds. unfold gauss_seidel_setup. subst n.
  step np_zeros_like_eq. step process_time_eq. step sp_toarray_eq.
  apply runs_ret.
  split_and!; [|intros l o ?; lk|done|done|lk|lk].
  f_equal. rewrite !pair_equal_spec. split_and!; (done || len).
Qed.

Lemma gs_spec_loop_length Av bv tol k xv :
  length (gs_spec_loop Av bv tol k xv).2 = length xv.
Proof.
  revert xv. induction k as [|k IH]; intros xv; [done|].
  cbn [gs_spec_loop]. case_match; [simpl; by rewrite length_gs_sweep|].
  specialize (IH (gs_sweep Av bv xv)).
  destruct (gs_spec_loop Av bv tol k (gs_sweep Av bv xv)).
  simpl in *. by rewrite IH, length_gs_sweep.
Qed.

Lemma gs_spec_loop_pos Av bv tol k xv :
  0 < k → 0 < (gs_spec_loop Av bv tol k xv).1.
Proof.
  destruct k as [|k]; [lia|]. intros _. cbn [gs_spec_loop].
  case_match; [simpl; lia|].
  destruct (gs_spec_loop Av bv tol k _). simpl. lia.
Qed.

(** C6.  [gauss_seidel] computes the sweeps of the specification: a sweep
    updates the components in increasing order of their index by
    x[i] = (b[i] - sum_{j<i} A[i,j] x[j] - sum_{j>i} A[i,j] x_old[j]) / A[i,i],
    with the components already updated for j < i and those of the previous
    sweep for j > i, and the test |A x - b| / |b| < tol is made once after
    each sweep ([gs_spec]).  For a square system of matching shapes and at
    least one iteration allowed, the call returns the solution, the number
    of sweeps and the relative error of [gs_spec]. *)
Theorem gauss_seidel_sweeps s A b x_exact n Av bv xev tol max_iter :
  heap s !! A = Some (Sparse Av) →
  heap s !! b = Some (Vec bv) →
  heap s !! x_exact = Some (Vec xev) →
  square n Av → length bv = n → length xev = n →
  0 < max_iter →
  ∃ x s',
    gauss_seidel A b x_exact tol max_iter s =
      (Ok (x, (gs_spec Av bv xev tol max_iter).1.2,
           (clock s (S (ticks s)) - clock s (ticks s))%sc,
           (gs_spec Av bv xev tol max_iter).2), s') ∧
    heap s' !! x = Some (Vec (gs_spec Av bv xev tol max_iter).1.1).
Proof.
  intros HA Hb Hxe HAv Hbv Hxev Hpos. bounds.
  cut (runs_to (gauss_seidel A b x_exact tol max_iter) s (λ out s',
    ∃ x, out = Ok (x, (gs_spec Av bv xev tol max_iter).1.2,
           (clock s (S (ticks s)) - clock s (ticks s))%sc,
           (gs_spec Av bv xev tol max_iter).2) ∧
      heap s' !! x = Some (Vec (gs_spec Av bv xev tol max_iter).1.1))).
  { intros (out & s' & Heq & x & -> & Hx)%runs_to_elim. eauto. }
  unfold gauss_seidel.
  eapply runs_seq; [by eapply gauss_seidel_setup_runs|].
  cbv beta zeta.
  intros out s1 (-> & Hext & Hclock & Hticks & Hx & HA'). cbn beta iota.
  eapply runs_seq.
  { eapply (gauss_seidel_loop_runs _ b _ tol max_iter Av bv n);
      eauto; try lia; shp. }
  cbv beta. intros out s2 (Hk & Hx2 & ->). cbn beta iota.
  pose proof (gs_spec_loop_length Av bv tol max_iter (zeros (length bv))) as Hlen.
  pose proof (gs_spec_loop_pos Av bv tol max_iter (zeros (length bv)) Hpos) as Hj.
  unfold gs_spec. subst n.
  destruct (gs_spec_loop Av bv tol max_iter _) as [j w]. cbn in *.
  destruct j as [|j]; [lia|]. cbn [last_k].
  eapply runs_to_wand.
  { eapply finish_runs; [done| |].
    - eapply keeps_extends; [done| |by apply Hext].
      rewrite !not_elem_of_cons. split_and!; [lia|apply not_elem_of_nil].
    - rewrite Hlen, length_zeros. congruence. }
  cbv beta. intros out s3 (Hext3 & ->). destruct Hk as (Hc & Ht & _).
  exists (length (heap s)). split; [|by apply Hext3].
  rewrite Hc, Ht, Hclock, Hticks. do 4 f_equal. lia.
Qed.
End GS.

(** ** Jacobi, and the loops that never run *)

Section Jacobi.
Context {F : Type} {SC : Scalar F}.
Implicit Types (s : state F) (u v : list F) (m : list (list F)).

Lemma jacobi_setup_runs A b s n Av bv :
  heap s !! A = Some (Sparse Av) → heap s !! b = Some (Vec bv) →
  square n Av → length bv = n →
  runs_to (jacobi_setup A b) s (λ out s',
    let x := length (heap s) in
    out = Ok (x, x + 5, x + 6, clock s (ticks s)) ∧
    extends s s' ∧ clock s' = clock s ∧ ticks s' = S (ticks s) ∧
    heap s' !! x = Some (Vec (zeros n)) ∧
    heap s' !! (x + 5) = Some (Sparse (diags (reciprocal (diagonal Av)))) ∧
    heap s' !! (x + 6) = Some (Sparse (matsub Av (diags (diagonal Av))))).
Proof.
  intros HA Hb HAv Hbv. bounds. unfold jacobi_setup. subst n.
  pose proof (length_diagonal _ _ HAv).
  step np_zeros_like_eq. step sp_diagonal_eq. step sp_diags_eq.
  step sp_diagonal_eq. step np_reciprocal_eq. step sp_diags_eq.
  eapply runs_bind.
  { eapply sp_sub_eq; [lk|lk| |].
    - rewrite nrows_diags. unfold nrows. shp.
    - rewrite ncols_diags. shp. }
  step process_time_eq. apply runs_ret.
  split_and!; [|intros l o ?; lk|done|done|lk|lk|lk].
  f_equal. rewrite !pair_equal_spec. split_and!; (done || len).
Qed.

(* One iteration of the loop of [jacobi]: the fresh iterate is tested, and
   when the test holds the variable x is left at the previous iterate. *)
Lemma jacobi_body_runs A b R D_inv tol k x s n Av bv Rv Dv xv :
  heap s !! A = Some (Sparse Av) → heap s !! b = Some (Vec bv) →
  heap s !! R = Some (Sparse Rv) → heap s !! D_inv = Some (Sparse Dv) →
  heap s !! x = Some (Vec xv) →
  square n Av → square n Rv → square n Dv → length bv = n → length xv = n →
  let x_new := matvec Dv (vsub bv (matvec Rv xv)) in
  runs_to (jacobi_body A b R D_inv tol k x) s (λ out s',
    extends s s' ∧
    if (norm (vsub (matvec Av x_new) bv) / norm bv <? tol)%sc
    then out = Ok (Break x)
    else ∃ x', out = Ok (Continue x') ∧ heap s' !! x' = Some (Vec x_new)).
Proof.
  intros HA Hb HR HD Hx HAv HRv HDv Hbv Hxv. cbv zeta. bounds.
  unfold jacobi_body.
  step sp_dot_eq. step np_sub_eq. step sp_dot_eq. step sp_dot_eq.
  step np_sub_eq. step rel_res_of_eq.
  case_match; apply runs_ret; (split; [intros l o ?; lk|]); [done|].
  eexists. split; [done|lk].
Qed.

(** C2.  With max_iter = 0 no method returns: on a square system of matching
    shapes each of the four raises UnboundLocalError, for the loop variable k
    that [return x, k + 1, ...] reads was never assigned. *)
Theorem zero_iterations_raise s A b x_exact n Av bv xev tol :
  heap s !! A = Some (Sparse Av) →
  heap s !! b = Some (Vec bv) →
  heap s !! x_exact = Some (Vec xev) →
  square n Av → length bv = n → length xev = n →
  (jacobi A b x_exact tol 0 s).1 = Raise (UnboundLocalError "k") ∧
  (gauss_seidel A b x_exact tol 0 s).1 = Raise (UnboundLocalError "k") ∧
  (gradient A b x_exact tol 0 s).1 = Raise (UnboundLocalError "k") ∧
  (conjugate_gradient A b x_exact tol 0 s).1 = Raise (UnboundLocalError "k").
Proof.
  intros HA Hb Hxe HAv Hbv Hxev.
  assert (∀ c : M F (result F),
    runs_to c s (λ out _, out = Raise (UnboundLocalError "k")) →
    (c s).1 = Raise (UnboundLocalError "k")) as Hout by done.
  split_and!; apply Hout.
  - unfold jacobi. eapply runs_seq; [by eapply jacobi_setup_runs|].
    cbv beta zeta. intros out s1 (-> & Hext & _ & _ & Hx & _). cbn.
    eapply runs_to_wand; [eapply finish_runs; [done|by apply Hext|shp]|].
    cbv beta. by intros out s2 [_ ->].
  - unfold gauss_seidel. eapply runs_seq; [by eapply gauss_seidel_setup_runs|].
    cbv beta zeta. intros out s1 (-> & Hext & _ & _ & Hx & _). cbn.
    eapply runs_to_wand; [eapply finish_runs; [done|by apply Hext|shp]|].
    cbv beta. by intros out s2 [_ ->].
  - unfold gradient. eapply runs_seq; [by eapply gradient_setup_runs|].
    cbv beta zeta. intros out s1 (-> & Hext & _ & _ & Hx & _). cbn.
    eapply runs_to_wand; [eapply finish_runs; [done|by apply Hext|shp]|].
    cbv beta. by intros out s2 [_ ->].
  - unfold conjugate_gradient. eapply runs_seq; [by eapply cg_setup_runs|].
    cbv beta zeta. intros out s1 (-> & Hext & _ & _ & Hx & _). cbn.
    eapply runs_to_wand; [eapply finish_runs; [done|by apply Hext|shp]|].
    cbv beta. by intros out s2 [_ ->].
Qed.
End Jacobi.

(** ** Loop heads *)

Section LoopHeadFacts.
Context {F : Type} {SC : Scalar F} {E : Type}.
Variable body : nat → E → M F (ctl E).
Variable e0 : E.
Variable s0 : state F.

(* The states of [loop_head] are the ones [for_range] passes through. *)
Lemma for_range_loop_head k e s n :
  loop_head body e0 s0 k e s →
  for_range 0 (k + n) body None e0 s0 = for_range k n body (k_before k) e s.
Proof.
  intros H. revert n. induction H as [|k e s e' s' _ IH Hbody]; intros n; [done|].
  replace (S k + n) with (k + S n) by lia. rewrite IH.
  cbn [for_range]. unfold bind at 1. by rewrite Hbody.
Qed.
End LoopHeadFacts.

(** ** Exact arithmetic: linearity of the products *)

Section Exact.
Local Open Scope R_scope.
Implicit Types (u v w : list R) (m : list (list R)).

Lemma dot_acc (a : R) (l : list (R * R)) :
  foldl dot_step a l = a + foldl dot_step 0 l.
Proof.
  revert a. induction l as [|[x y] l IH]; intros a; simpl; [lra|].
  rewrite (IH (dot_step a (x, y))), (IH (dot_step 0 (x, y))).
  unfold dot_step. simpl. lra.
Qed.

Lemma dot_cons (a b : R) u v : dot (a :: u) (b :: v) = a * b + dot u v.
Proof.
  change (dot (a :: u) (b :: v)) with (foldl dot_step (dot_step 0 (a, b)) (zip u v)).
  change (dot u v) with (foldl dot_step 0 (zip u v)).
  rewrite dot_acc. unfold dot_step at 1. simpl. lra.
Qed.

Lemma dot_nil_l v : dot [] v = 0.
Proof. done. Qed.
Lemma dot_nil_r u : dot u [] = 0.
Proof. by destruct u. Qed.

Lemma dot_vadd_r w u v :
  length u = length v → dot w (vadd u v) = dot w u + dot w v.
Proof.
  revert u v. induction w as [|a w IH]; intros [|b u] [|c v] E;
    simplify_eq/=; rewrite ?dot_nil_l, ?dot_nil_r; try lra.
  change (vadd (b :: u) (c :: v)) with ((b + c) :: vadd u v).
  rewrite !dot_cons, IH by done. lra.
Qed.

Lemma dot_scale_r (α : R) w u : dot w (scale α u) = α * dot w u.
Proof.
  revert u. induction w as [|a w IH]; intros [|b u];
    rewrite ?dot_nil_l, ?dot_nil_r; try (simpl; lra).
  change (scale α (b :: u)) with ((α * b) :: scale α u).
  rewrite !dot_cons, IH. lra.
Qed.

Lemma matvec_update (α : R) m u v :
  length u = length v →
  matvec m (vadd u (scale α v)) = vadd (matvec m u) (scale α (matvec m v)).
Proof.
  intros E. induction m as [|row m IH]; [done|].
  unfold matvec in *. rewrite !fmap_cons, IH.
  change (vadd (?a :: ?x) (scale α (?b :: ?y)))
    with ((a + α * b) :: vadd x (scale α y)).
  f_equal. rewrite dot_vadd_r, dot_scale_r; [done|].
  by rewrite length_scale.
Qed.

Lemma vsub_vsub u v w : vsub (vsub u v) w = vsub u (vadd v w).
Proof.
  revert v w. induction u as [|a u IH]; intros [|b v] [|c w]; try done.
  change (vsub (vsub (a :: u) (b :: v)) (c :: w))
    with ((a - b - c) :: vsub (vsub u v) w).
  change (vsub (a :: u) (vadd (b :: v) (c :: w)))
    with ((a - (b + c)) :: vsub u (vadd v w)).
  rewrite IH. f_equal. lra.
Qed.


Lemma vsub_zeros u : vsub u (zeros (length u)) = u.
Proof.
  induction u as [|a u IH]; [done|].
  change (vsub (a :: u) (zeros (length (a :: u))))
    with ((a - 0) :: vsub u (zeros (length u))).
  rewrite IH. f_equal. lra.
Qed.


(* The residual recurrence: if r = b - A x then
   r - alpha A p = b - A (x + alpha p). *)
Lemma residual_update (α : R) m b x p :
  length x = length p →
  vsub (vsub b (matvec m x)) (scale α (matvec m p)) =
  vsub b (matvec m (vadd x (scale α p))).
Proof. intros E. by rewrite vsub_vsub, matvec_update. Qed.
End Exact.

(** ** The residual invariant *)

Section Invariant.
Implicit Types (s : state R).

Lemma runs_to_at {A} (c : M R A) s (Q : outcome A → state R → Prop) out s' :
  runs_to c s Q → c s = (out, s') → Q out s'.
Proof. unfold runs_to. intros H Heq. by rewrite Heq in H. Qed.

Lemma gd_inv_step A b x n Av bv tol k e s e' s' :
  square n Av → length bv = n →
  gd_inv A b x n Av bv e s →
  gradient_body A b x tol k e s = (Ok (Continue e'), s') →
  gd_inv A b x n Av bv e' s'.
Proof.
  intros HAv Hbv (xv & rv & pv & HA & Hb & Hx & Hr & Hp & ? & ? & ? & ? & ? & ? & ? & Hres) Hbody.
  destruct e as [r p]. simpl in *.
  pose proof (gradient_body_runs A b x tol k r p s n Av bv xv rv pv) as Hrun.
  do 14 (specialize (Hrun ltac:(done))). cbv zeta in Hrun.
  eapply runs_to_at in Hrun; [|done]. destruct Hrun as (Hk & Hx' & Hout).
  case_match; [done|]. destruct Hout as (r' & p' & [= ->] & ? & ? & Hr' & Hp').
  bounds. unfold gd_inv. simpl. do 3 eexists.
  split_and!; eauto using keeps_lookup1; try shp; try lia.
  subst rv. apply residual_update. congruence.
Qed.

Lemma cg_inv_step A b x r n Av bv tol k e s e' s' :
  square n Av → length bv = n →
  cg_inv A b x r n Av bv e s →
  conjugate_gradient_body A b x r tol k e s = (Ok (Continue e'), s') →
  cg_inv A b x r n Av bv e' s'.
Proof.
  intros HAv Hbv (xv & rv & pv & HA & Hb & Hx & Hr & Hp &
    ? & ? & ? & ? & ? & ? & ? & ? & ? & ? & Hres) Hbody.
  destruct e as [p rsold]. simpl in *.
  pose proof (cg_body_runs A b x r tol k p rsold s n Av bv xv rv pv) as Hrun.
  do 17 (specialize (Hrun ltac:(done))). cbv zeta in Hrun.
  eapply runs_to_at in Hrun; [|done]. destruct Hrun as (Hk & Hx' & Hr' & Hout).
  case_match; [done|]. destruct Hout as (p' & [= ->] & ? & Hp').
  bounds. unfold cg_inv. simpl. do 3 eexists.
  split_and!; eauto using keeps_lookup2; try shp; try lia.
  subst rv. apply residual_update. congruence.
Qed.

(** C10.  In exact arithmetic, r = b - A x holds whenever an iteration of the
    loop of [gradient] or of [conjugate_gradient] starts: the setup of either
    method returns and enters the loop, and at every state in which an
    iteration starts ([loop_head]) the object of r is b - A x for the object
    of x. *)
Theorem residual_invariant s A b n Av bv tol :
  heap s !! A = Some (Sparse Av) →
  heap s !! b = Some (Vec bv) →
  square n Av → length bv = n →
  (∃ x r0 p0 t0 s0,
     gradient_setup A b s = (Ok (x, r0, p0, t0), s0) ∧
     ∀ k r p s',
       loop_head (gradient_body A b x tol) (r0, p0) s0 k (r, p) s' →
       residual_inv A b x r s') ∧
  (∃ x r p0 rsold0 t0 s0,
     conjugate_gradient_setup A b s = (Ok (x, r, p0, rsold0, t0), s0) ∧
     ∀ k e s',
       loop_head (conjugate_gradient_body A b x r tol) (p0, rsold0) s0 k e s' →
       residual_inv A b x r s').
Proof.
  intros HA Hb HAv Hbv. bounds. split.
  - pose proof (gradient_setup_runs A b s n Av bv HA Hb HAv Hbv) as Hset.
    apply runs_to_elim in Hset as (out & s0 & Heq & Hset). cbv zeta in Hset.
    destruct Hset as (-> & Hext & _ & _ & Hx & Hr & Hp).
    do 5 eexists. split; [done|].
    intros k r p s' Hhead.
    cut (gd_inv A b (length (heap s)) n Av bv (r, p) s').
    { intros (xv & rv & pv & ? & ? & ? & ? & ? & ? & ? & ? & ? & ? & ? & ? & ?).
      by exists Av, bv, xv, rv. }
    induction Hhead as [|k e1 s1 e2 s2 _ IH Hbody].
    + do 3 eexists. simpl. split_and!; eauto; try shp; lia.
    + by eapply gd_inv_step.
  - pose proof (cg_setup_runs A b s n Av bv HA Hb HAv Hbv) as Hset.
    apply runs_to_elim in Hset as (out & s0 & Heq & Hset). cbv zeta in Hset.
    destruct Hset as (-> & Hext & _ & _ & Hx & Hr & Hp).
    do 6 eexists. split; [done|].
    intros k e s' Hhead.
    cut (cg_inv A b (length (heap s)) (length (heap s) + 2) n Av bv e s').
    { intros (xv & rv & pv & ? & ? & ? & ? & ? & ? & ? & ? & ? & ? & ? & ? & ? & ? & ? & ?).
      by exists Av, bv, xv, rv. }
    induction Hhead as [|k e1 s1 e2 s2 _ IH Hbody].
    + do 3 eexists. simpl. split_and!; eauto; try shp; lia.
    + by eapply cg_inv_step.
Qed.
End Invariant.

(** ** Frames: what a call leaves untouched *)

Section Frame.
Context {F : Type} {SC : Scalar F}.
Variable h0 : list (obj F).
Implicit Types (s : state F) (l : loc).

Lemma framed_ret {A} (a : A) (Q : A → Prop) : Q a → framed h0 (ret a) Q.
Proof. intros HQ s Hs. split; [done|]. by intros ? [= <-]. Qed.

Lemma framed_raise {A} e (Q : A → Prop) : framed h0 (raise e) Q.
Proof. intros s Hs. by split. Qed.

Lemma framed_bind {A B} (c : M F A) (k : A → M F B)
    (Q : A → Prop) (Q' : B → Prop) :
  framed h0 c Q → (∀ a, Q a → framed h0 (k a) Q') → framed h0 (bind c k) Q'.
Proof.
  intros Hc Hk s Hs. destruct (Hc s Hs) as [Hs' HQ]. unfold bind.
  destruct (c s) as [[a|e] s']; simpl in *; [|by split].
  by apply Hk; [apply HQ|].
Qed.

Lemma framed_alloc o : framed h0 (alloc o) (fresh h0).
Proof.
  intros s Hs. split; simpl.
  - by apply prefix_app_r.
  - intros ? [= <-]. by apply prefix_length.
Qed.

Lemma framed_load l : framed h0 (load l) (λ _, True).
Proof. intros s Hs. unfold load. by destruct (heap s !! l). Qed.

Lemma framed_store l o : fresh h0 l → framed h0 (store l o) (λ _, True).
Proof.
  intros Hl s [k Hk]. split; [|done]. simpl. rewrite Hk.
  rewrite insert_app_r_alt by done. by eexists.
Qed.

Lemma framed_process_time : framed h0 process_time (λ _, True).
Proof. intros s Hs. by split. Qed.

Lemma framed_get_vec l : framed h0 (get_vec l) (λ _, True).
Proof.
  eapply framed_bind; [apply framed_load|]. intros [] _;
    (by apply framed_ret) || apply framed_raise.
Qed.
Lemma framed_get_sparse l : framed h0 (get_sparse l) (λ _, True).
Proof.
  eapply framed_bind; [apply framed_load|]. intros [] _;
    (by apply framed_ret) || apply framed_raise.
Qed.
Lemma framed_get_dense l : framed h0 (get_dense l) (λ _, True).
Proof.
  eapply framed_bind; [apply framed_load|]. intros [] _;
    (by apply framed_ret) || apply framed_raise.
Qed.

Create HintDb frame discriminated.
#[local] Hint Resolve framed_raise framed_alloc framed_load framed_process_time
  framed_get_vec framed_get_sparse framed_get_dense : frame.
#[local] Hint Extern 1 (framed _ (ret _) _) =>
  apply framed_ret; try done : frame.
#[local] Hint Extern 1 (framed _ (store _ _) _) =>
  apply framed_store; try done : frame.

(* Runs through a computation statement by statement; a reader's result
   needs no property, an allocator's is fresh. *)
Ltac frame_step :=
  lazymatch goal with
  | |- framed _ (bind _ _) _ =>
      eapply framed_bind; [solve [eauto with frame]|]; intros ? ?
  | |- framed _ (match ?x with _ => _ end) _ => destruct x
  | |- framed _ (if ?x then _ else _) _ => destruct x
  | |- framed _ _ _ => solve [eauto with frame]
  end.
Ltac frame_auto := repeat frame_step.

Lemma framed_np_zeros_like b : framed h0 (np_zeros_like b) (fresh h0).
Proof. unfold np_zeros_like, new_vec. frame_auto. Qed.
Lemma framed_np_copy b : framed h0 (np_copy b) (fresh h0).
Proof. unfold np_copy, new_vec. frame_auto. Qed.
Lemma framed_np_binop f a b : framed h0 (np_binop f a b) (fresh h0).
Proof. unfold np_binop, new_vec. frame_auto. Qed.
Lemma framed_np_scale α p : framed h0 (np_scale α p) (fresh h0).
Proof. unfold np_scale, new_vec. frame_auto. Qed.
Lemma framed_np_reciprocal d : framed h0 (np_reciprocal d) (fresh h0).
Proof. unfold np_reciprocal, new_vec. frame_auto. Qed.
Lemma framed_np_inplace f x t :
  fresh h0 x → framed h0 (np_inplace f x t) (λ _, True).
Proof. intros Hx. unfold np_inplace. frame_auto. Qed.
Lemma framed_matmul u v : framed h0 (matmul u v) (λ _, True).
Proof. unfold matmul. frame_auto. Qed.
#[local] Hint Resolve framed_matmul : frame.
Lemma framed_np_dot a b : framed h0 (np_dot a b) (λ _, True).
Proof. unfold np_dot. frame_auto. Qed.
Lemma framed_np_norm a : framed h0 (np_norm a) (λ _, True).
Proof. unfold np_norm. frame_auto. Qed.
#[local] Hint Resolve framed_np_norm : frame.
Lemma framed_np_getitem b i : framed h0 (np_getitem b i) (λ _, True).
Proof. unfold np_getitem. frame_auto. Qed.
Lemma framed_np_setitem x i a :
  fresh h0 x → framed h0 (np_setitem x i a) (λ _, True).
Proof. intros Hx. unfold np_setitem. frame_auto. Qed.
Lemma framed_np_upto x i : framed h0 (np_upto x i) (λ _, True).
Proof. unfold np_upto. frame_auto. Qed.
Lemma framed_np_from x i : framed h0 (np_from x i) (λ _, True).
Proof. unfold np_from. frame_auto. Qed.
Lemma framed_sp_dot A x : framed h0 (sp_dot A x) (fresh h0).
Proof. unfold sp_dot, new_vec. frame_auto. Qed.
Lemma framed_sp_diagonal A : framed h0 (sp_diagonal A) (fresh h0).
Proof. unfold sp_diagonal, new_vec. frame_auto. Qed.
Lemma framed_sp_diags d : framed h0 (sp_diags d) (fresh h0).
Proof. unfold sp_diags. frame_auto. Qed.
Lemma framed_sp_sub A D : framed h0 (sp_sub A D) (fresh h0).
Proof. unfold sp_sub. frame_auto. Qed.
Lemma framed_sp_toarray A : framed h0 (sp_toarray A) (fresh h0).
Proof. unfold sp_toarray. frame_auto. Qed.
Lemma framed_nd_shape0 A : framed h0 (nd_shape0 A) (λ _, True).
Proof. unfold nd_shape0. frame_auto. Qed.
Lemma framed_nd_dot A x : framed h0 (nd_dot A x) (fresh h0).
Proof. unfold nd_dot, new_vec. frame_auto. Qed.
Lemma framed_nd_row A i : framed h0 (nd_row A i) (λ _, True).
Proof. unfold nd_row. frame_auto. Qed.
#[local] Hint Resolve framed_nd_row : frame.
Lemma framed_nd_row_upto A i j : framed h0 (nd_row_upto A i j) (λ _, True).
Proof. unfold nd_row_upto. frame_auto. Qed.
Lemma framed_nd_row_from A i j : framed h0 (nd_row_from A i j) (λ _, True).
Proof. unfold nd_row_from. frame_auto. Qed.
Lemma framed_nd_getitem A i j : framed h0 (nd_getitem A i j) (λ _, True).
Proof. unfold nd_getitem. frame_auto. Qed.
Lemma framed_read_k kv : framed h0 (read_k kv) (λ _, True).
Proof. unfold read_k. frame_auto. Qed.
Lemma framed_rel_res_of r b : framed h0 (rel_res_of r b) (λ _, True).
Proof. unfold rel_res_of. frame_auto. Qed.

(* A loop whose body keeps an invariant [I] of its variables. *)
Lemma framed_for_range {E} (I : E → Prop) (body : nat → E → M F (ctl E)) n :
  (∀ k e, I e →
     framed h0 (body k e) (λ c, match c with Continue e' | Break e' => I e' end)) →
  ∀ start kv e, I e →
    framed h0 (for_range start n body kv e) (λ r, I r.2).
Proof.
  intros Hbody. induction n as [|n IH]; intros start kv e He; simpl.
  - by apply framed_ret.
  - eapply framed_bind; [by apply Hbody|]. intros [e'|e'] He'.
    + by apply IH.
    + by apply framed_ret.
Qed.

Lemma framed_for_each idx (body : nat → M F unit) :
  (∀ i, framed h0 (body i) (λ _, True)) →
  framed h0 (for_each idx body) (λ _, True).
Proof.
  intros Hbody. induction idx as [|i idx IH]; simpl.
  - by apply framed_ret.
  - eapply framed_bind; [apply Hbody|]. by intros.
Qed.

#[local] Hint Resolve framed_np_zeros_like framed_np_copy framed_np_binop
  framed_np_scale framed_np_reciprocal framed_np_dot framed_np_getitem
  framed_np_upto framed_np_from framed_sp_dot framed_sp_diagonal
  framed_sp_diags framed_sp_sub framed_sp_toarray framed_nd_shape0
  framed_nd_dot framed_nd_row_upto framed_nd_row_from framed_nd_getitem
  framed_read_k framed_rel_res_of : frame.
#[local] Hint Extern 1 (framed _ (np_inplace _ _ _) _) =>
  apply framed_np_inplace; try done : frame.
#[local] Hint Extern 1 (framed _ (np_setitem _ _ _) _) =>
  apply framed_np_setitem; try done : frame.

Lemma framed_finish x x_exact kv t :
  framed h0 (finish x x_exact kv t) (λ _, True).
Proof. unfold finish, np_sub. frame_auto. Qed.

Lemma framed_jacobi A b x_exact tol n :
  framed h0 (jacobi A b x_exact tol n) (λ _, True).
Proof.
  unfold jacobi, jacobi_setup, np_sub.
  eapply framed_bind with (Q := λ r, fresh h0 r.1.1.1).
  { frame_auto. }
  intros [[[x D_inv] R] t] Hx. simpl in Hx.
  eapply framed_bind.
  { apply (framed_for_range (fresh h0)); [|done].
    intros k e He. unfold jacobi_body, np_sub. frame_auto. }
  intros [kv x'] Hx'. apply framed_finish.
Qed.

Lemma framed_gauss_seidel A b x_exact tol n :
  framed h0 (gauss_seidel A b x_exact tol n) (λ _, True).
Proof.
  unfold gauss_seidel, gauss_seidel_setup.
  eapply framed_bind with (Q := λ r, fresh h0 r.1.1).
  { frame_auto. }
  intros [[x t] A'] Hx. simpl in Hx.
  eapply framed_bind.
  { apply (framed_for_range (λ _, True)); [|done].
    intros k [] _. unfold gauss_seidel_body, np_sub.
    frame_step. frame_step.
    eapply framed_bind.
    { apply framed_for_each. intros i. unfold gauss_seidel_update. frame_auto. }
    intros _ _. frame_auto. }
  intros [kv []] _. apply framed_finish.
Qed.

Lemma framed_gradient A b x_exact tol n :
  framed h0 (gradient A b x_exact tol n) (λ _, True).
Proof.
  unfold gradient, gradient_setup, np_sub.
  eapply framed_bind with (Q := λ r, fresh h0 r.1.1.1).
  { frame_auto. }
  intros [[[x r] p] t] Hx. simpl in Hx.
  eapply framed_bind.
  { apply (framed_for_range (λ _, True)); [|done].
    intros k [r' p'] _. unfold gradient_body, np_iadd, np_sub, np_add.
    frame_auto. }
  intros [kv ?] _. apply framed_finish.
Qed.

Lemma framed_conjugate_gradient A b x_exact tol n :
  framed h0 (conjugate_gradient A b x_exact tol n) (λ _, True).
Proof.
  unfold conjugate_gradient, conjugate_gradient_setup, np_sub.
  eapply framed_bind with (Q := λ r, fresh h0 r.1.1.1.1 ∧ fresh h0 r.1.1.1.2).
  { frame_auto. }
  intros [[[[x r] p] rsold] t] [Hx Hr]. simpl in Hx, Hr.
  eapply framed_bind.
  { apply (framed_for_range (λ _, True)); [|done].
    intros k [p' rsold'] _.
    unfold conjugate_gradient_body, np_iadd, np_isub, np_add.
    frame_auto. }
  intros [kv ?] _. apply framed_finish.
Qed.
End Frame.

(** ** No call modifies what existed before it *)

Section Post.
Context {F : Type} {SC : Scalar F}.

(** C9.  No call modifies an object that existed before it: the heap at the
    call is a prefix of the heap after it, for each of the four methods and
    for the dispatcher with any method name, whatever the arguments and the
    outcome.  In particular A, b and x_exact hold what they held; the dense
    copy that Gauss-Seidel works on is a new object. *)
Theorem solvers_preserve_inputs (s : state F) (method : string)
    (A b x_exact : loc) (tol : F) (max_iter : nat) :
  heap s `prefix_of` heap (jacobi A b x_exact tol max_iter s).2 ∧
  heap s `prefix_of` heap (gauss_seidel A b x_exact tol max_iter s).2 ∧
  heap s `prefix_of` heap (gradient A b x_exact tol max_iter s).2 ∧
  heap s `prefix_of` heap (conjugate_gradient A b x_exact tol max_iter s).2 ∧
  heap s `prefix_of` heap (solve_linear_system method A b x_exact tol max_iter s).2.
Proof.
  assert (heap s `prefix_of` heap (jacobi A b x_exact tol max_iter s).2) as HJ
    by by apply (framed_jacobi (heap s)).
  assert (heap s `prefix_of` heap (gauss_seidel A b x_exact tol max_iter s).2) as HGS
    by by apply (framed_gauss_seidel (heap s)).
  assert (heap s `prefix_of` heap (gradient A b x_exact tol max_iter s).2) as HG
    by by apply (framed_gradient (heap s)).
  assert (heap s `prefix_of` heap (conjugate_gradient A b x_exact tol max_iter s).2) as HCG
    by by apply (framed_conjugate_gradient (heap s)).
  split_and!; try done.
  unfold solve_linear_system.
  destruct (method_map !! normalize method) as [f|] eqn:Hf; [|done].
  unfold method_map in Hf.
  apply elem_of_list_to_map_2 in Hf.
  repeat (apply elem_of_cons in Hf as [[= _ ->]|Hf]; [done|]).
  by apply elem_of_nil in Hf.
Qed.
End Post.

(** ** Method identifiers *)

Lemma ascii_lower_idemp c : ascii_lower (ascii_lower c) = ascii_lower c.
Proof. by destruct c as [[] [] [] [] [] [] [] []]. Qed.

Lemma str_map_map f g s : str_map f (str_map g s) = str_map (f ∘ g) s.
Proof. induction s as [|c s IH]; simpl; [done|]. by rewrite IH. Qed.

Lemma str_map_ext f g s : (∀ c, f c = g c) → str_map f s = str_map g s.
Proof. intros H. induction s as [|c s IH]; simpl; [done|]. by rewrite H, IH. Qed.

Lemma normalize_map s : normalize s = str_map normalize_char s.
Proof.
  unfold normalize, str_replace, str_lower. rewrite !str_map_map.
  by apply str_map_ext.
Qed.

Lemma normalize_char_lower c : normalize_char (ascii_lower c) = normalize_char c.
Proof. unfold normalize_char. by rewrite ascii_lower_idemp. Qed.

Lemma normalize_char_replace c old :
  old = "-"%char ∨ old = " "%char →
  normalize_char (if decide (c = old) then "_"%char else c) = normalize_char c.
Proof. intros [-> | ->]; case_decide; by subst. Qed.

Lemma starts_with_app sub post : starts_with sub (sub +:+ post) = true.
Proof. induction sub as [|a sub IH]; [done|]. simpl. by case_decide. Qed.

Lemma occurs_in_occurs_inb sub s : occurs_in sub s → occurs_inb sub s = true.
Proof.
  intros (pre & post & ->). induction pre as [|c pre IH].
  - change ("" +:+ sub +:+ post) with (sub +:+ post).
    destruct (sub +:+ post) eqn:E; simpl; rewrite <- E, starts_with_app; done.
  - change (String c pre +:+ sub +:+ post)
      with (String c (pre +:+ sub +:+ post)).
    cbn [occurs_inb]. rewrite IH. apply orb_true_r.
Qed.

Lemma occurs_inb_false sub s : occurs_inb sub s = false → ¬ occurs_in sub s.
Proof. intros E H%occurs_in_occurs_inb. congruence. Qed.

Lemma occurs_in_app_r sub p t : occurs_in sub t → occurs_in sub (p +:+ t).
Proof.
  intros (pre & post & ->). exists (p +:+ pre), post.
  induction p as [|c p IH]; [done|].
  change (String c (p +:+ pre +:+ sub +:+ post) =
          String c ((p +:+ pre) +:+ sub +:+ post)).
  by f_equal.
Qed.

(** ** The dispatcher *)

Section Dispatch.
Context {F : Type} {SC : Scalar F}.
Implicit Types (s : state F).

Lemma solve_linear_system_normalize m1 m2 A b x_exact tol max_iter s :
  normalize m1 = normalize m2 →
  solve_linear_system m1 A b x_exact tol max_iter s =
  solve_linear_system m2 A b x_exact tol max_iter s.
Proof. unfold solve_linear_system. by intros ->. Qed.

Lemma method_map_gs : method_map !! "gs" = Some (gauss_seidel (F:=F)).
Proof. reflexivity. Qed.
Lemma method_map_gauss_seidel :
  method_map !! "gauss_seidel" = Some (gauss_seidel (F:=F)).
Proof. reflexivity. Qed.

(** C7.  The dispatcher sees a method name through [normalize] only: lowering
    the case of the name, or writing "_" for "-" or for a space, selects the
    same method; "gs" and "gauss_seidel" both select [gauss_seidel], so
    the two calls are one computation. *)
Theorem dispatcher_aliases (method : string) A b x_exact tol max_iter s :
  solve_linear_system (str_lower method) A b x_exact tol max_iter s =
    solve_linear_system method A b x_exact tol max_iter s ∧
  solve_linear_system (str_replace "-" "_" method) A b x_exact tol max_iter s =
    solve_linear_system method A b x_exact tol max_iter s ∧
  solve_linear_system (str_replace " " "_" method) A b x_exact tol max_iter s =
    solve_linear_system method A b x_exact tol max_iter s ∧
  solve_linear_system "gs" A b x_exact tol max_iter s =
    gauss_seidel A b x_exact tol max_iter s ∧
  solve_linear_system "gauss_seidel" A b x_exact tol max_iter s =
    gauss_seidel A b x_exact tol max_iter s ∧
  solve_linear_system "gs" A b x_exact tol max_iter s =
    solve_linear_system "gauss_seidel" A b x_exact tol max_iter s.
Proof.
  split_and!.
  - apply solve_linear_system_normalize. rewrite !normalize_map.
    unfold str_lower. rewrite str_map_map. apply str_map_ext.
    intros c. apply normalize_char_lower.
  - apply solve_linear_system_normalize. rewrite !normalize_map.
    unfold str_replace. rewrite str_map_map. apply str_map_ext.
    intros c. apply normalize_char_replace. by left.
  - apply solve_linear_system_normalize. rewrite !normalize_map.
    unfold str_replace. rewrite str_map_map. apply str_map_ext.
    intros c. apply normalize_char_replace. by right.
  - unfold solve_linear_system.
    change (normalize "gs") with "gs". by rewrite method_map_gs.
  - unfold solve_linear_system.
    change (normalize "gauss_seidel") with "gauss_seidel".
    by rewrite method_map_gauss_seidel.
  - unfold solve_linear_system.
    change (normalize "gs") with "gs".
    change (normalize "gauss_seidel") with "gauss_seidel".
    by rewrite method_map_gs, method_map_gauss_seidel.
Qed.

(* A name that after normalization is no key of [method_map] makes the
   dispatcher raise ValueError in the state of the call, nothing allocated
   and the clock not read: no method is called.  The message names 'jacobi',
   'gauss_seidel', 'gs', 'gradient', 'grad', 'conjugate_gradient' and
   'cg'. *)
Lemma invalid_method_rejected (method : string) A b x_exact tol max_iter s :
  method_map (F:=F) !! normalize method = None →
  solve_linear_system method A b x_exact tol max_iter s =
    (Raise (ValueError (invalid_method_message (normalize method))), s) ∧
  Forall (λ name, occurs_in name (invalid_method_message (normalize method)))
    ["'jacobi'"; "'gauss_seidel'"; "'gs'"; "'gradient'"; "'grad'";
     "'conjugate_gradient'"; "'cg'"].
Proof.
  intros Hnone. split.
  - unfold solve_linear_system. cbv zeta.
    by destruct (method_map !! normalize method).
  - unfold invalid_method_message.
    repeat apply Forall_cons_2; [..|apply Forall_nil_2];
      do 2 apply occurs_in_app_r.
    + by exists (" non valido. Scegli tra: " +:+ nl +:+ "- "),
        (nl +:+ "- 'gauss_seidel'/'gs'" +:+ nl +:+ "- 'gradient'/'grad'" +:+ nl
         +:+ "- 'conjugate_gradient'/'cg'").
    + by exists (" non valido. Scegli tra: " +:+ nl +:+ "- 'jacobi'" +:+ nl +:+ "- "),
        ("/'gs'" +:+ nl +:+ "- 'gradient'/'grad'" +:+ nl
         +:+ "- 'conjugate_gradient'/'cg'").
    + by exists (" non valido. Scegli tra: " +:+ nl +:+ "- 'jacobi'" +:+ nl
                 +:+ "- 'gauss_seidel'/"),
        (nl +:+ "- 'gradient'/'grad'" +:+ nl +:+ "- 'conjugate_gradient'/'cg'").
    + by exists (" non valido. Scegli tra: " +:+ nl +:+ "- 'jacobi'" +:+ nl
                 +:+ "- 'gauss_seidel'/'gs'" +:+ nl +:+ "- "),
        ("/'grad'" +:+ nl +:+ "- 'conjugate_gradient'/'cg'").
    + by exists (" non valido. Scegli tra: " +:+ nl +:+ "- 'jacobi'" +:+ nl
                 +:+ "- 'gauss_seidel'/'gs'" +:+ nl +:+ "- 'gradient'/"),
        (nl +:+ "- 'conjugate_gradient'/'cg'").
    + by exists (" non valido. Scegli tra: " +:+ nl +:+ "- 'jacobi'" +:+ nl
                 +:+ "- 'gauss_seidel'/'gs'" +:+ nl +:+ "- 'gradient'/'grad'"
                 +:+ nl +:+ "- "), "/'cg'".
    + by exists (" non valido. Scegli tra: " +:+ nl +:+ "- 'jacobi'" +:+ nl
                 +:+ "- 'gauss_seidel'/'gs'" +:+ nl +:+ "- 'gradient'/'grad'"
                 +:+ nl +:+ "- 'conjugate_gradient'/"), "".
Qed.
End Dispatch.

(** ** The scenario A = diag([2, 3, 4]) in binary64 *)

(** C1.  On A = diag([2, 3, 4]), b = [2, 3, 4], tol = 1e-6: the first iterate
    x1 has relative residual below tol, the loop of [jacobi] breaks in its
    first iteration, and the vector returned is the previous iterate
    x0 = 0, whose relative residual is not below tol. *)
Theorem jacobi_break_returns_stale_iterate :
  let b := [2; 3; 4]%float in
  let x0 := zeros 3 in
  let x1 := matvec (diags (reciprocal (diagonal diag234)))
              (vsub b (matvec (matsub diag234 (diags (diagonal diag234))) x0)) in
  (norm (vsub (matvec diag234 x1) b) / norm b <? tol_1e6)%sc = true ∧
  (norm (vsub (matvec diag234 x0) b) / norm b <? tol_1e6)%sc = false ∧
  ∃ s', jacobi 0 1 2 tol_1e6 default_max_iter diag_problem
          = (Ok (3, 1, 0%float, 1%float), s') ∧
        heap s' !! 3 = Some (Vec x0).
Proof.
  cbv zeta. split_and!; [by vm_compute|by vm_compute|].
  eexists. split; [vm_compute; reflexivity|]. reflexivity.
Qed.

(** C3.  On A = diag([2, 3, 4]), x_exact = [1, 1, 1], b = [2, 3, 4] and
    tol = 1e-6, [jacobi] returns the iteration count 1 and the relative
    error 1 (not 0); [gauss_seidel], which updates x before it tests,
    returns the relative error 0. *)
Theorem jacobi_diag_scenario :
  (jacobi 0 1 2 tol_1e6 default_max_iter diag_problem).1
    = Ok (3, 1, 0%float, 1%float) ∧
  (gauss_seidel 0 1 2 tol_1e6 default_max_iter diag_problem).1
    = Ok (3, 1, 0%float, 0%float).
Proof. split; by vm_compute. Qed.

(** C8.  The message of the dispatcher leaves out two of the names it
    accepts.  The call with the name "SOR" raises ValueError in the state of
    the call, so no method runs; the names "gradiente" and
    "gradiente_coniugato" are accepted, and routed to [gradient] and to
    [conjugate_gradient]; the message of the error names the seven other
    accepted names, and neither of these two occurs in it. *)
Theorem invalid_method_message_omits_aliases :
  let msg := invalid_method_message (normalize "SOR") in
  solve_linear_system "SOR" 0 1 2 tol_1e6 default_max_iter diag_problem
    = (Raise (ValueError msg), diag_problem) ∧
  (∀ A b x_exact (tol : float) max_iter,
     solve_linear_system "gradiente" A b x_exact tol max_iter
       = gradient A b x_exact tol max_iter ∧
     solve_linear_system "gradiente_coniugato" A b x_exact tol max_iter
       = conjugate_gradient A b x_exact tol max_iter) ∧
  Forall (λ name, occurs_in name msg)
    ["'jacobi'"; "'gauss_seidel'"; "'gs'"; "'gradient'"; "'grad'";
     "'conjugate_gradient'"; "'cg'"] ∧
  ¬ occurs_in "gradiente" msg ∧
  ¬ occurs_in "gradiente_coniugato" msg.
Proof.
  cbv zeta.
  destruct (invalid_method_rejected (F:=float) "SOR" 0 1 2 tol_1e6
              default_max_iter diag_problem) as [Hraise Hnames]; [reflexivity|].
  split_and!; [done|by intros|done|..]; apply occurs_inb_false; by vm_compute.
Qed.

(** ** The theorems at concrete problems *)

Lemma zero_iterations_raise_witness :
  (jacobi 0 1 2 tol_1e6 0 diag_problem).1 = Raise (UnboundLocalError "k") ∧
  (gauss_seidel 0 1 2 tol_1e6 0 diag_problem).1 = Raise (UnboundLocalError "k") ∧
  (gradient 0 1 2 tol_1e6 0 diag_problem).1 = Raise (UnboundLocalError "k") ∧
  (conjugate_gradient 0 1 2 tol_1e6 0 diag_problem).1 = Raise (UnboundLocalError "k").
Proof.
  apply (zero_iterations_raise diag_problem 0 1 2 3 diag234
           [2; 3; 4]%float [1; 1; 1]%float tol_1e6);
    [reflexivity|reflexivity|reflexivity| |reflexivity|reflexivity].
  split; [reflexivity|]. repeat constructor.
Defined.

Lemma conjugate_gradient_recurrence_witness :
  ∃ x s',
    conjugate_gradient 0 1 2 tol_1e6 50 diag_problem =
      (Ok (x, (cg_spec diag234 [2; 3; 4]%float [1; 1; 1]%float tol_1e6 50).1.2,
           (clock diag_problem (S (ticks diag_problem))
            - clock diag_problem (ticks diag_problem))%sc,
           (cg_spec diag234 [2; 3; 4]%float [1; 1; 1]%float tol_1e6 50).2), s') ∧
    heap s' !! x =
      Some (Vec (cg_spec diag234 [2; 3; 4]%float [1; 1; 1]%float tol_1e6 50).1.1).
Proof.
  apply (conjugate_gradient_recurrence diag_problem 0 1 2 3 diag234
           [2; 3; 4]%float [1; 1; 1]%float tol_1e6 50);
    [reflexivity|reflexivity|reflexivity| |reflexivity|reflexivity|lia|reflexivity].
  split; [reflexivity|]. repeat constructor.
Defined.

Lemma gradient_recurrence_witness :
  ∃ x s',
    gradient 0 1 2 tol_1e6 50 diag_problem =
      (Ok (x, (gd_spec diag234 [2; 3; 4]%float [1; 1; 1]%float tol_1e6 50).1.2,
           (clock diag_problem (S (ticks diag_problem))
            - clock diag_problem (ticks diag_problem))%sc,
           (gd_spec diag234 [2; 3; 4]%float [1; 1; 1]%float tol_1e6 50).2), s') ∧
    heap s' !! x =
      Some (Vec (gd_spec diag234 [2; 3; 4]%float [1; 1; 1]%float tol_1e6 50).1.1).
Proof.
  apply (gradient_recurrence diag_problem 0 1 2 3 diag234
           [2; 3; 4]%float [1; 1; 1]%float tol_1e6 50);
    [reflexivity|reflexivity|reflexivity| |reflexivity|reflexivity|lia].
  split; [reflexivity|]. repeat constructor.
Defined.

Lemma gauss_seidel_sweeps_witness :
  ∃ x s',
    gauss_seidel 0 1 2 tol_1e6 50 diag_problem =
      (Ok (x, (gs_spec diag234 [2; 3; 4]%float [1; 1; 1]%float tol_1e6 50).1.2,
           (clock diag_problem (S (ticks diag_problem))
            - clock diag_problem (ticks diag_problem))%sc,
           (gs_spec diag234 [2; 3; 4]%float [1; 1; 1]%float tol_1e6 50).2), s') ∧
    heap s' !! x =
      Some (Vec (gs_spec diag234 [2; 3; 4]%float [1; 1; 1]%float tol_1e6 50).1.1).
Proof.
  apply (gauss_seidel_sweeps diag_problem 0 1 2 3 diag234
           [2; 3; 4]%float [1; 1; 1]%float tol_1e6 50);
    [reflexivity|reflexivity|reflexivity| |reflexivity|reflexivity|lia].
  split; [reflexivity|]. repeat constructor.
Defined.

Lemma residual_invariant_witness :
  (∃ x r0 p0 t0 s0,
     gradient_setup 0 1 spd_problem = (Ok (x, r0, p0, t0), s0) ∧
     ∀ k r p s',
       loop_head (gradient_body 0 1 x (1 / 1000000)%R) (r0, p0) s0 k (r, p) s' →
       residual_inv 0 1 x r s') ∧
  (∃ x r p0 rsold0 t0 s0,
     conjugate_gradient_setup 0 1 spd_problem = (Ok (x, r, p0, rsold0, t0), s0) ∧
     ∀ k e s',
       loop_head (conjugate_gradient_body 0 1 x r (1 / 1000000)%R) (p0, rsold0) s0 k e s' →
       residual_inv 0 1 x r s').
Proof.
  apply (residual_invariant spd_problem 0 1 2 spd2 [5; 4]%R (1 / 1000000)%R);
    [reflexivity|reflexivity| |reflexivity].
  split; [reflexivity|]. repeat constructor.
Defined.

(** * Further properties of the code *)

(** ** More rules for running a computation *)

Section MoreRules.
Context {F : Type} {SC : Scalar F}.
Implicit Types (s : state F) (u v : list F) (m : list (list F)).

Lemma extends_trans s1 s2 s3 : extends s1 s2 → extends s2 s3 → extends s1 s3.
Proof. intros H12 H23 l o ?. auto. Qed.

Lemma keeps_nil_extends s s' : keeps [] s s' → extends s s'.
Proof. intros Hk l o. apply (keeps_extends _ _ _ Hk), not_elem_of_nil. Qed.

(* What [keeps] says of the objects that existed before the written ones
   were allocated. *)
Lemma keeps_above ws s0 s s' :
  Forall (λ l, length (heap s0) ≤ l) ws →
  extends s0 s → keeps ws s s' → extends s0 s'.
Proof.
  intros Hws Hext Hk l o Hl. eapply keeps_extends; [done| |by apply Hext].
  apply lookup_lt_Some in Hl. rewrite Forall_forall in Hws.
  intros ?%Hws. lia.
Qed.

Lemma last_k_pred j : 0 < j → last_k 0 None j = Some (j - 1).
Proof. destruct j; [lia|]. intros _. simpl. f_equal. lia. Qed.

Lemma length_matsub n m1 m2 : square n m1 → square n m2 → square n (matsub m1 m2).
Proof.
  intros [H1 F1] [H2 F2]. split.
  - unfold matsub. rewrite length_zip_with. lia.
  - unfold matsub. apply Forall_lookup_2. intros i row Hi.
    apply lookup_zip_with_Some in Hi as (r1 & r2 & -> & Hr1 & Hr2).
    rewrite length_zip_with.
    rewrite Forall_lookup in F1, F2.
    rewrite (F1 _ _ Hr1), (F2 _ _ Hr2). lia.
Qed.

Lemma square_diags n v : length v = n → square n (diags v).
Proof.
  intros <-. split.
  - apply nrows_diags.
  - unfold diags. apply Forall_lookup_2. intros i row Hi.
    apply list_lookup_imap_Some in Hi as (a & _ & ->).
    by rewrite length_insert, length_zeros.
Qed.

Lemma length_ones n : length (ones (F:=F) n) = n.
Proof. apply length_replicate. Qed.

Lemma sp_shape0_eq s A m :
  heap s !! A = Some (Sparse m) → sp_shape0 A s = (Ok (nrows m), s).
Proof.
  intros H. unfold sp_shape0. by rewrite (bind_ok _ _ _ _ _ (get_sparse_eq _ _ _ H)).
Qed.

Lemma sp_dot_raises s A x m v :
  heap s !! A = Some (Sparse m) → heap s !! x = Some (Vec v) →
  ncols m ≠ length v → sp_dot A x s = (Raise shape_mismatch, s).
Proof.
  intros HA Hx Hne. unfold sp_dot.
  rewrite (bind_ok _ _ _ _ _ (get_sparse_eq _ _ _ HA)).
  rewrite (bind_ok _ _ _ _ _ (get_vec_eq _ _ _ Hx)).
  by rewrite decide_False.
Qed.

(* An exception passes through what follows. *)
Lemma runs_raise_bind {A B} (c : M F A) (k : A → M F B) s e :
  runs_to c s (λ out _, out = Raise e) →
  runs_to (bind c k) s (λ out _, out = Raise e).
Proof. unfold runs_to, bind. by destruct (c s) as [[a|e'] s']; intros [= ->]. Qed.

Lemma runs_to_assoc {A B C} (c : M F A) (k1 : A → M F B) (k2 : B → M F C) s
    (Q : outcome C → state F → Prop) :
  runs_to (bind c (λ a, bind (k1 a) k2)) s Q →
  runs_to (bind (bind c k1) k2) s Q.
Proof. unfold runs_to, bind. by destruct (c s) as [[a|e] s']. Qed.

Lemma matmul_raises s u v :
  length u ≠ length v → matmul u v s = (Raise shape_mismatch, s).
Proof. intros H. unfold matmul. by rewrite decide_False. Qed.
End MoreRules.

(** ** Loops with a bound and a test *)

Section Until.
Context {V : Type}.
Implicit Types (step : V → bool * V).

Lemma iterate_until_bounds step n v :
  0 < n → 1 ≤ (iterate_until step n v).1 ≤ n.
Proof.
  revert v. induction n as [|n IH]; intros v Hn; [lia|].
  cbn [iterate_until]. destruct (step v) as [[] v']; [simpl; lia|].
  destruct n as [|n]; [simpl; lia|].
  specialize (IH v' ltac:(lia)).
  destruct (iterate_until step (S n) v'). simpl in *. lia.
Qed.

Lemma iterate_until_stable step n n' v :
  (iterate_until step n v).1 < n → (iterate_until step n v).1 ≤ n' →
  iterate_until step n' v = iterate_until step n v.
Proof.
  revert n' v. induction n as [|n IH]; intros n' v; [simpl; lia|].
  cbn [iterate_until]. destruct (step v) as [[] v'] eqn:Hstep.
  - simpl. intros _ Hn'. destruct n' as [|n']; [lia|].
    cbn [iterate_until]. by rewrite Hstep.
  - specialize (IH (pred n') v').
    destruct (iterate_until step n v') as [j w]. simpl in *.
    intros Hj Hn'. destruct n' as [|n']; [lia|].
    cbn [iterate_until]. rewrite Hstep. simpl in IH. rewrite IH; [done|lia|lia].
Qed.

Lemma iterate_until_exhausts step n v :
  (∀ v, (step v).1 = false) → (iterate_until step n v).1 = n.
Proof.
  intros Hstep. revert v. induction n as [|n IH]; intros v; [done|].
  cbn [iterate_until]. specialize (Hstep v).
  destruct (step v) as [[] v']; [done|].
  specialize (IH v'). destruct (iterate_until step n v'). simpl in *. lia.
Qed.

Lemma iterate_until_invariant (I : V → Prop) step n v :
  (∀ v, I v → I (step v).2) → I v → I (iterate_until step n v).2.
Proof.
  intros Hstep. revert v. induction n as [|n IH]; intros v Hv; [done|].
  cbn [iterate_until]. specialize (Hstep v Hv).
  destruct (step v) as [[] v']; [done|].
  specialize (IH v' Hstep). by destruct (iterate_until step n v').
Qed.

(* A test that holds whenever another does stops no later. *)
Lemma iterate_until_looser step step' n v :
  (∀ v, (step v).1 = true → (step' v).1 = true) →
  (∀ v, (step' v).1 = false → (step v).2 = (step' v).2) →
  (iterate_until step' n v).1 ≤ (iterate_until step n v).1.
Proof.
  intros Hstop Hnext. revert v. induction n as [|n IH]; intros v; [done|].
  cbn [iterate_until]. specialize (Hstop v). specialize (Hnext v).
  destruct (step' v) as [[] w'], (step v) as [[] w]; simpl in *.
  - done.
  - destruct (iterate_until step n w). simpl. lia.
  - by specialize (Hstop eq_refl).
  - rewrite (Hnext eq_refl). specialize (IH w').
    destruct (iterate_until step n w'), (iterate_until step' n w').
    simpl in *. lia.
Qed.
(* What holds after a loop that stopped on its test. *)
Lemma iterate_until_stopped (I P : V → Prop) (step : V → bool * V) n v :
  (∀ v, I v → (step v).1 = false → I (step v).2) →
  (∀ v, I v → (step v).1 = true → P (step v).2) →
  I v → (iterate_until step n v).1 < n → P (iterate_until step n v).2.
Proof.
  intros Hgo Hstop. revert v. induction n as [|n IH]; intros v Hv; [simpl; lia|].
  cbn [iterate_until]. specialize (Hgo v Hv). specialize (Hstop v Hv).
  destruct (step v) as [[] v']; simpl in *; [auto|].
  specialize (IH v' (Hgo eq_refl)).
  destruct (iterate_until step n v') as [j w]. simpl in *. intros ?. apply IH. lia.
Qed.
End Until.

(** ** The iterations of each method *)

Section JacobiRun.
Context {F : Type} {SC : Scalar F}.
Implicit Types (s : state F) (u v : list F) (m : list (list F)).

Lemma jacobi_body_keeps A b R D_inv tol k x s n Av bv Rv Dv xv :
  heap s !! A = Some (Sparse Av) → heap s !! b = Some (Vec bv) →
  heap s !! R = Some (Sparse Rv) → heap s !! D_inv = Some (Sparse Dv) →
  heap s !! x = Some (Vec xv) →
  square n Av → square n Rv → square n Dv → length bv = n → length xv = n →
  let x_new := matvec Dv (vsub bv (matvec Rv xv)) in
  runs_to (jacobi_body A b R D_inv tol k x) s (λ out s',
    keeps [] s s' ∧
    if residual_below Av bv tol x_new
    then out = Ok (Break x)
    else ∃ x', out = Ok (Continue x') ∧ length (heap s) ≤ x' ∧
           heap s' !! x' = Some (Vec x_new)).
Proof.
  intros HA Hb HR HD Hx HAv HRv HDv Hbv Hxv. cbv zeta. bounds.
  unfold jacobi_body, residual_below.
  step sp_dot_eq. step np_sub_eq. step sp_dot_eq. step sp_dot_eq.
  step np_sub_eq. step rel_res_of_eq.
  case_match; apply runs_ret;
    (split; [split_and!; [done|done|len|intros l o _ ?; lk]|]); [done|].
  eexists. split_and!; [done|len|lk].
Qed.

Lemma jacobi_loop_runs A b R D_inv tol n Av bv dim :
  square dim Av → length bv = dim →
  let Rv := matsub Av (diags (diagonal Av)) in
  let Dv := diags (reciprocal (diagonal Av)) in
  ∀ start kv x s xv lo,
  heap s !! A = Some (Sparse Av) → heap s !! b = Some (Vec bv) →
  heap s !! R = Some (Sparse Rv) → heap s !! D_inv = Some (Sparse Dv) →
  heap s !! x = Some (Vec xv) → length xv = dim →
  lo ≤ x → lo ≤ length (heap s) →
  runs_to (for_range start n (jacobi_body A b R D_inv tol) kv x) s
    (λ out s',
      keeps [] s s' ∧
      ∃ x', out = Ok (last_k start kv (jacobi_loop Av bv tol n xv).1, x') ∧
        lo ≤ x' ∧
        heap s' !! x' = Some (Vec (jacobi_loop Av bv tol n xv).2)).
Proof.
  intros HAv Hbv Rv Dv.
  assert (square dim Rv) as HRv.
  { apply length_matsub; [done|]. apply square_diags. by eapply length_diagonal. }
  assert (square dim Dv) as HDv.
  { apply square_diags. rewrite length_reciprocal. by eapply length_diagonal. }
  induction n as [|n IH]; intros start kv x s xv lo HA Hb HR HD Hx Hxv Hlo Hlo'.
  - simpl. apply runs_ret. split; [apply keeps_refl|]. by eexists.
  - cbn [for_range jacobi_loop].
    eapply runs_seq;
      [by eapply (jacobi_body_keeps A b R D_inv tol start x s dim Av bv Rv Dv)|].
    cbv beta zeta. intros out s' (Hk & Hout).
    fold Rv Dv in Hout |- *. unfold jacobi_next. fold Rv Dv.
    destruct (residual_below _ _ _ _).
    + subst out. apply runs_ret. cbn. split; [done|].
      eexists. rewrite Nat.add_0_r. split_and!; [done|done|].
      eapply keeps_extends; [done|apply not_elem_of_nil|done].
    + destruct Hout as (x' & -> & Hlo'' & Hx').
      pose proof (keeps_extends _ _ _ Hk) as Hext.
      pose proof Hk as (_ & _ & ? & _).
      eapply runs_to_wand.
      { eapply (IH (S start) (Some start) x' s' _ lo);
          eauto using not_elem_of_nil; [shp|lia|lia]. }
      cbv beta. intros out s'' (Hk' & x'' & -> & ? & Hx'').
      fold Rv Dv in Hx'' |- *.
      destruct (jacobi_loop _ _ _ _ _) as [j w]. cbn.
      split; [by eapply keeps_trans|].
      eexists. by rewrite (last_k_step start kv).
Qed.
End JacobiRun.

Section Computes.
Context {F : Type} {SC : Scalar F}.
Implicit Types (s : state F) (u v : list F) (m : list (list F)).

Lemma length_jacobi_next n Av bv x :
  square n Av → length (jacobi_next Av bv x) = n.
Proof.
  intros HAv. unfold jacobi_next. rewrite length_matvec.
  apply square_nrows, square_diags.
  rewrite length_reciprocal. by eapply length_diagonal.
Qed.

Lemma jacobi_loop_length n Av bv tol k x :
  square n Av → length x = n → length (jacobi_loop Av bv tol k x).2 = n.
Proof.
  intros HAv. revert x. induction k as [|k IH]; intros x Hx; [done|].
  cbn [jacobi_loop]. case_match; [done|].
  specialize (IH (jacobi_next Av bv x) (length_jacobi_next _ _ _ _ HAv)).
  by destruct (jacobi_loop Av bv tol k _).
Qed.

Lemma jacobi_loop_pos Av bv tol k x :
  0 < k → 0 < (jacobi_loop Av bv tol k x).1.
Proof.
  destruct k as [|k]; [lia|]. intros _. cbn [jacobi_loop].
  case_match; [simpl; lia|].
  destruct (jacobi_loop Av bv tol k _). simpl. lia.
Qed.

Lemma jacobi_iterates : iterates jacobi jacobi_run.
Proof.
  intros s A b n Av bv tol max_iter HA Hb HAv Hbv Hpos. bounds.
  destruct (runs_to_elim _ _ _ (jacobi_setup_runs A b s n Av bv HA Hb HAv Hbv))
    as (out & s1 & Hsetup & -> & Hext & Hclock & Hticks & Hx & HD & HR).
  assert (length (heap s) < length (heap s1)) by by apply lookup_lt_Some in Hx.
  eassert (runs_to _ s1 _) as Hloop.
  { eapply (jacobi_loop_runs A b (length (heap s) + 6) (length (heap s) + 5) tol
       max_iter Av bv n HAv Hbv 0 None (length (heap s)) s1 (zeros n)
       (length (heap s))); eauto; [shp|lia]. }
  apply runs_to_elim in Hloop as (out & s2 & Hloop & Hk & x' & -> & Hlo & Hx').
  exists x', s2. unfold jacobi, jacobi_run.
  pose proof Hk as (Hc & Ht & _). subst n.
  split_and!; [|..|congruence|congruence|done|done].
  - intros x_exact.
    rewrite (bind_ok _ _ _ _ _ Hsetup). cbn beta iota.
    rewrite (bind_ok _ _ _ _ _ Hloop). cbn beta iota.
    by rewrite last_k_pred by by apply jacobi_loop_pos.
  - eapply keeps_above; [apply Forall_nil_2|done|done].
Qed.

Lemma gauss_seidel_iterates : iterates gauss_seidel gauss_seidel_run.
Proof.
  intros s A b n Av bv tol max_iter HA Hb HAv Hbv Hpos. bounds.
  destruct (runs_to_elim _ _ _ (gauss_seidel_setup_runs A b s n Av bv HA Hb Hbv))
    as (out & s1 & Hsetup & -> & Hext & Hclock & Hticks & Hx & HA').
  eassert (runs_to _ s1 _) as Hloop.
  { eapply (gauss_seidel_loop_runs (length (heap s) + 1) b (length (heap s)) tol
       max_iter Av bv n HAv Hbv ltac:(lia) ltac:(lia) 0 None s1 (zeros n));
      eauto. shp. }
  apply runs_to_elim in Hloop as (out & s2 & Hloop & Hk & Hx' & ->).
  exists (length (heap s)), s2. unfold gauss_seidel, gauss_seidel_run.
  pose proof Hk as (Hc & Ht & _). subst n.
  split_and!; [|..|congruence|congruence|done|done].
  - intros x_exact.
    rewrite (bind_ok _ _ _ _ _ Hsetup). cbn beta iota.
    rewrite (bind_ok _ _ _ _ _ Hloop). cbn beta iota.
    by rewrite last_k_pred by by apply gs_spec_loop_pos.
  - eapply keeps_above; [|done|done]. by repeat constructor.
Qed.

Lemma gradient_iterates : iterates gradient gradient_run.
Proof.
  intros s A b n Av bv tol max_iter HA Hb HAv Hbv Hpos. bounds.
  destruct (runs_to_elim _ _ _ (gradient_setup_runs A b s n Av bv HA Hb HAv Hbv))
    as (out & s1 & Hsetup & -> & Hext & Hclock & Hticks & Hx & Hr & Hp).
  eassert (runs_to _ s1 _) as Hloop.
  { eapply (gradient_loop_runs A b (length (heap s)) tol max_iter Av bv n HAv Hbv
       ltac:(lia) ltac:(lia) 0 None (length (heap s) + 2) (length (heap s) + 3)
       s1 (zeros n)); eauto; try lia; shp. }
  apply runs_to_elim in Hloop as (out & s2 & Hloop & Hk & Hx' & e & ->).
  exists (length (heap s)), s2. unfold gradient, gradient_run.
  pose proof Hk as (Hc & Ht & _). subst n.
  pose proof (gd_spec_loop_pos Av bv tol max_iter (gd_spec_start Av bv) Hpos).
  unfold gd_spec_start in *.
  destruct (gd_spec_loop _ _ _ _ _) as [j w]. destruct e.
  split_and!; [|..|congruence|congruence|done|done].
  - intros x_exact.
    rewrite (bind_ok _ _ _ _ _ Hsetup). cbn beta iota.
    rewrite (bind_ok _ _ _ _ _ Hloop). cbn beta iota.
    by rewrite last_k_pred.
  - eapply keeps_above; [|done|done]. by repeat constructor.
Qed.

Lemma conjugate_gradient_iterates :
  iterates conjugate_gradient conjugate_gradient_run.
Proof.
  intros s A b n Av bv tol max_iter HA Hb HAv Hbv Hpos. bounds.
  destruct (runs_to_elim _ _ _ (cg_setup_runs A b s n Av bv HA Hb HAv Hbv))
    as (out & s1 & Hsetup & -> & Hext & Hclock & Hticks & Hx & Hr & Hp).
  eassert (runs_to _ s1 _) as Hloop.
  { eapply (cg_loop_runs A b (length (heap s)) (length (heap s) + 2) tol max_iter
       Av bv n HAv Hbv ltac:(lia) ltac:(lia) ltac:(lia) ltac:(lia) ltac:(lia)
       0 None (length (heap s) + 3) (dot (vsub bv (matvec Av (zeros n)))
                                         (vsub bv (matvec Av (zeros n))))
       s1 (zeros n)); eauto; try lia; shp. }
  apply runs_to_elim in Hloop as (out & s2 & Hloop & Hk & Hx' & e & ->).
  exists (length (heap s)), s2. unfold conjugate_gradient, conjugate_gradient_run.
  pose proof Hk as (Hc & Ht & _). subst n.
  pose proof (cg_spec_loop_pos Av bv tol max_iter (cg_loop_start Av bv) Hpos).
  unfold cg_loop_start in *.
  destruct (cg_spec_loop _ _ _ _ _) as [j w]. destruct e.
  split_and!; [|..|congruence|congruence|done|done].
  - intros x_exact.
    rewrite (bind_ok _ _ _ _ _ Hsetup). cbn beta iota.
    rewrite (bind_ok _ _ _ _ _ Hloop). cbn beta iota.
    by rewrite last_k_pred.
  - eapply keeps_above; [|done|done]. repeat constructor; lia.
Qed.
End Computes.

Section Regular.
Context {F : Type} {SC : Scalar F}.

Lemma jacobi_loop_until Av bv tol n x :
  jacobi_loop Av bv tol n x = iterate_until (jacobi_step Av bv tol) n x.
Proof.
  revert x. induction n as [|n IH]; intros x; [done|].
  cbn [jacobi_loop iterate_until]. unfold jacobi_step. cbv zeta.
  destruct (residual_below _ _ _ _); [done|]. by rewrite IH.
Qed.

Lemma gs_spec_loop_until Av bv tol n x :
  gs_spec_loop Av bv tol n x = iterate_until (gs_step Av bv tol) n x.
Proof.
  revert x. induction n as [|n IH]; intros x; [done|].
  cbn [gs_spec_loop iterate_until]. unfold gs_step, residual_below. cbv zeta.
  destruct (_ <? tol)%sc; [done|]. by rewrite IH.
Qed.

Lemma gd_spec_loop_until Av bv tol n v :
  gd_spec_loop Av bv tol n v = iterate_until (gd_spec_step Av bv tol) n v.
Proof.
  revert v. induction n as [|n IH]; intros v; [done|].
  cbn [gd_spec_loop iterate_until].
  destruct (gd_spec_step Av bv tol v) as [[] v']; [done|]. by rewrite IH.
Qed.

Lemma cg_spec_loop_until Av bv tol n v :
  cg_spec_loop Av bv tol n v = iterate_until (cg_spec_step Av bv tol) n v.
Proof.
  revert v. induction n as [|n IH]; intros v; [done|].
  cbn [cg_spec_loop iterate_until].
  destruct (cg_spec_step Av bv tol v) as [[] v']; [done|]. by rewrite IH.
Qed.

Lemma looser_false (tol tol' u : F) :
  (∀ u : F, (u <? tol)%sc = true → (u <? tol')%sc = true) →
  (u <? tol')%sc = false → (u <? tol)%sc = false.
Proof.
  intros H Hu. destruct (u <? tol)%sc eqn:E; [|done].
  by rewrite (H u E) in Hu.
Qed.

Lemma jacobi_run_regular : regular jacobi_run.
Proof.
  unfold regular, jacobi_run. split_and!.
  - intros. rewrite jacobi_loop_until. by apply iterate_until_bounds.
  - intros n Av bv tol k HAv Hbv. apply jacobi_loop_length; [done|].
    by rewrite length_zeros.
  - intros Av bv tol k k'. rewrite !jacobi_loop_until.
    apply iterate_until_stable.
  - intros Av bv tol k Hnever. rewrite jacobi_loop_until.
    apply iterate_until_exhausts. intros v. unfold jacobi_step. cbv zeta.
    unfold residual_below. by rewrite Hnever.
  - intros Av bv tol tol' k H. rewrite !jacobi_loop_until.
    apply iterate_until_looser.
    + intros v. unfold jacobi_step, residual_below. cbv zeta.
      destruct (_ <? tol)%sc eqn:E; [|done]. by rewrite (H _ E).
    + intros v. unfold jacobi_step, residual_below. cbv zeta.
      destruct (_ <? tol')%sc eqn:E; [done|].
      by rewrite (looser_false _ _ _ H E).
Qed.

Lemma gauss_seidel_run_regular : regular gauss_seidel_run.
Proof.
  unfold regular, gauss_seidel_run. split_and!.
  - intros. rewrite gs_spec_loop_until. by apply iterate_until_bounds.
  - intros n Av bv tol k HAv Hbv.
    by rewrite gs_spec_loop_length, length_zeros.
  - intros Av bv tol k k'. rewrite !gs_spec_loop_until.
    apply iterate_until_stable.
  - intros Av bv tol k Hnever. rewrite gs_spec_loop_until.
    apply iterate_until_exhausts. intros v. unfold gs_step. cbv zeta.
    unfold residual_below. by rewrite Hnever.
  - intros Av bv tol tol' k H. rewrite !gs_spec_loop_until.
    apply iterate_until_looser; [|done].
    intros v. unfold gs_step, residual_below. cbv zeta. apply H.
Qed.

Lemma gradient_run_regular : regular gradient_run.
Proof.
  unfold regular, gradient_run. split_and!.
  - intros Av bv tol k Hk. rewrite gd_spec_loop_until.
    pose proof (iterate_until_bounds (gd_spec_step Av bv tol) k
                  (gd_spec_start Av bv) Hk).
    by destruct (iterate_until _ _ _).
  - intros n Av bv tol k HAv Hbv.
    pose proof (gd_spec_loop_shaped n Av bv tol k (gd_spec_start Av bv) HAv)
      as (Hlen & _).
    { unfold gd_spec_start. repeat split; cbn; shp. }
    by destruct (gd_spec_loop _ _ _ _ _).
  - intros Av bv tol k k'. rewrite !gd_spec_loop_until.
    pose proof (iterate_until_stable (gd_spec_step Av bv tol) k k'
                  (gd_spec_start Av bv)) as H.
    destruct (iterate_until _ k _), (iterate_until _ k' _). simpl in *.
    intros H1 H2. by injection (H H1 H2) as -> ->.
  - intros Av bv tol k Hnever. rewrite gd_spec_loop_until.
    pose proof (iterate_until_exhausts (gd_spec_step Av bv tol) k
                  (gd_spec_start Av bv)) as H.
    destruct (iterate_until _ k _). simpl in *. apply H.
    intros v. unfold gd_spec_step. cbv zeta. by rewrite Hnever.
  - intros Av bv tol tol' k H. rewrite !gd_spec_loop_until.
    pose proof (iterate_until_looser (gd_spec_step Av bv tol)
      (gd_spec_step Av bv tol') k (gd_spec_start Av bv)) as Hle.
    destruct (iterate_until _ _ _), (iterate_until _ _ _). simpl in *.
    apply Hle.
    + intros v. unfold gd_spec_step. cbv zeta.
      destruct (_ <? tol)%sc eqn:E; [|done]. by rewrite (H _ E).
    + intros v. unfold gd_spec_step. cbv zeta.
      destruct (_ <? tol')%sc eqn:E; [done|].
      by rewrite (looser_false _ _ _ H E).
Qed.

Lemma conjugate_gradient_run_regular : regular conjugate_gradient_run.
Proof.
  unfold regular, conjugate_gradient_run. split_and!.
  - intros Av bv tol k Hk. rewrite cg_spec_loop_until.
    pose proof (iterate_until_bounds (cg_spec_step Av bv tol) k
                  (cg_loop_start Av bv) Hk).
    by destruct (iterate_until _ _ _).
  - intros n Av bv tol k HAv Hbv.
    pose proof (cg_spec_loop_shaped n Av bv tol k (cg_loop_start Av bv) HAv)
      as (Hlen & _).
    { unfold cg_loop_start. repeat split; cbn; shp. }
    by destruct (cg_spec_loop _ _ _ _ _).
  - intros Av bv tol k k'. rewrite !cg_spec_loop_until.
    pose proof (iterate_until_stable (cg_spec_step Av bv tol) k k'
                  (cg_loop_start Av bv)) as H.
    destruct (iterate_until _ k _), (iterate_until _ k' _). simpl in *.
    intros H1 H2. by injection (H H1 H2) as -> ->.
  - intros Av bv tol k Hnever. rewrite cg_spec_loop_until.
    pose proof (iterate_until_exhausts (cg_spec_step Av bv tol) k
                  (cg_loop_start Av bv)) as H.
    destruct (iterate_until _ k _). simpl in *. apply H.
    intros v. unfold cg_spec_step. cbv zeta.
    change (fsqrt (dot ?r ?r)) with (norm r). by rewrite Hnever.
  - intros Av bv tol tol' k H. rewrite !cg_spec_loop_until.
    pose proof (iterate_until_looser (cg_spec_step Av bv tol)
      (cg_spec_step Av bv tol') k (cg_loop_start Av bv)) as Hle.
    destruct (iterate_until _ _ _), (iterate_until _ _ _). simpl in *.
    apply Hle.
    + intros v. unfold cg_spec_step. cbv zeta.
      destruct (_ <? tol)%sc eqn:E; [|done]. by rewrite (H _ E).
    + intros v. unfold cg_spec_step. cbv zeta.
      destruct (_ <? tol')%sc eqn:E; [done|].
      by rewrite (looser_false _ _ _ H E).
Qed.
End Regular.

(** ** Calls through the dispatcher *)

Section Methods.
Context {F : Type} {SC : Scalar F}.
Implicit Types (s : state F).

(* The end of a call, when x_exact has the shape of the solution. *)
Lemma finish_returns x x_exact k start_time s xv xev :
  heap s !! x = Some (Vec xv) → heap s !! x_exact = Some (Vec xev) →
  length xv = length xev →
  ∃ s', finish x x_exact (Some k) start_time s =
          (Ok (x, k + 1, (clock s (ticks s) - start_time)%sc,
               (norm (vsub xv xev) / norm xev)%sc), s') ∧
        extends s s'.
Proof.
  intros Hx Hxe Hlen.
  destruct (runs_to_elim _ _ _
    (finish_runs x x_exact (Some k) start_time s xv xev Hx Hxe Hlen))
    as (out & s' & Heq & Hext & ->).
  by exists s'.
Qed.

(* And when it has not: the subtraction x - x_exact raises. *)
Lemma finish_raises x x_exact kv start_time s xv xev :
  heap s !! x = Some (Vec xv) → heap s !! x_exact = Some (Vec xev) →
  length xv ≠ length xev → length xv ≠ 1 → length xev ≠ 1 →
  finish x x_exact kv start_time s = (Raise shape_mismatch, s).
Proof.
  intros Hx Hxe Hlen Hxv Hxev.
  assert (np_sub x x_exact s = (Raise shape_mismatch, s)) as Hsub.
  { unfold np_sub, np_binop.
    rewrite (bind_ok _ _ _ _ _ (get_vec_eq _ _ _ Hx)).
    rewrite (bind_ok _ _ _ _ _ (get_vec_eq _ _ _ Hxe)).
    unfold broadcast. rewrite decide_False by done.
    by destruct xv as [|? [|??]], xev as [|? [|??]]. }
  unfold finish, bind at 1. by rewrite Hsub.
Qed.

Lemma iterates_computes (f : solver F) run :
  iterates f run → regular run → computes f run.
Proof.
  intros Hf (Hbound & Hlen & _ & _ & _).
  intros s A b x_exact n Av bv xev tol max_iter HA Hb Hxe HAv Hbv Hxev Hpos.
  destruct (Hf s A b n Av bv tol max_iter HA Hb HAv Hbv Hpos)
    as (x & s1 & Heq & Hext & Hc & Ht & Hlo & Hx).
  destruct (finish_returns x x_exact ((run Av bv tol max_iter).1 - 1)
    (clock s (ticks s)) s1 _ xev Hx (Hext _ _ Hxe)) as (s' & Heq' & Hext').
  { rewrite (Hlen n) by done. congruence. }
  exists x, s'. split_and!; [|by eapply extends_trans|done|by apply Hext'].
  rewrite Heq, Heq', Hc, Ht. do 4 f_equal.
  specialize (Hbound Av bv tol max_iter Hpos). f_equal. lia.
Qed.

(* Every entry of [method_map] is one of the four methods. *)
Lemma method_map_iterates (name : string) (f : solver F) :
  method_map !! name = Some f → ∃ run, iterates f run ∧ regular run.
Proof.
  intros Hf. unfold method_map in Hf.
  apply elem_of_list_to_map_2 in Hf.
  repeat (apply elem_of_cons in Hf as [[= _ ->]|Hf];
    [eauto using jacobi_iterates, jacobi_run_regular,
       gauss_seidel_iterates, gauss_seidel_run_regular,
       gradient_iterates, gradient_run_regular,
       conjugate_gradient_iterates, conjugate_gradient_run_regular|]).
  by apply elem_of_nil in Hf.
Qed.

Lemma solve_linear_system_iterates (method : string) :
  is_Some (method_map (F:=F) !! normalize method) →
  ∃ run, iterates (solve_linear_system method) run ∧ regular run.
Proof.
  intros [f Hf]. destruct (method_map_iterates _ _ Hf) as (run & Hc & Hr).
  exists run. split; [|done].
  intros s A b n Av bv tol max_iter HA Hb HAv Hbv Hpos.
  destruct (Hc s A b n Av bv tol max_iter HA Hb HAv Hbv Hpos)
    as (x & s' & Heq & Hrest).
  exists x, s'. split; [|done]. intros x_exact.
  unfold solve_linear_system. cbv zeta.
  destruct (method_map !! normalize method) as [f'|]; [|done].
  injection Hf as ->. apply Heq.
Qed.

Lemma solve_linear_system_computes (method : string) :
  is_Some (method_map (F:=F) !! normalize method) →
  ∃ run, computes (solve_linear_system method) run ∧ regular run.
Proof.
  intros (run & Hi & Hr)%solve_linear_system_iterates.
  eauto using iterates_computes.
Qed.

(** X1.  A call with an accepted method name, a square system of matching
    shapes and at least one iteration allowed raises nothing: it returns a
    vector of the length of the system that did not exist before the call
    (so it is none of A, b and x_exact), and an iteration count between 1
    and max_iter. *)
Theorem accepted_method_returns_new_vector
    s method A b x_exact n Av bv xev tol max_iter :
  is_Some (method_map (F:=F) !! normalize method) →
  heap s !! A = Some (Sparse Av) →
  heap s !! b = Some (Vec bv) →
  heap s !! x_exact = Some (Vec xev) →
  square n Av → length bv = n → length xev = n →
  0 < max_iter →
  ∃ x j t err s' xv,
    solve_linear_system method A b x_exact tol max_iter s
      = (Ok (x, j, t, err), s') ∧
    1 ≤ j ≤ max_iter ∧
    heap s !! x = None ∧ heap s' !! x = Some (Vec xv) ∧ length xv = n.
Proof.
  intros Hm HA Hb Hxe HAv Hbv Hxev Hpos.
  destruct (solve_linear_system_computes method Hm)
    as (run & Hc & Hbound & Hlen & _ & _ & _).
  destruct (Hc s A b x_exact n Av bv xev tol max_iter HA Hb Hxe HAv Hbv Hxev Hpos)
    as (x & s' & Heq & Hext & Hx & Hxv).
  eexists x, _, _, _, s', _. split_and!; [done|by apply Hbound..| |done|by eapply Hlen].
  by apply lookup_ge_None_2.
Qed.


(** X3.  A method called twice in a row on the same arguments returns the
    same iteration count, the same relative error and a solution with the
    same entries: the first call leaves nothing behind that the second one
    reads.  The two solutions are different objects, and the second call
    leaves the first solution as it was. *)
Theorem second_call_repeats_first
    s method A b x_exact n Av bv xev tol max_iter :
  is_Some (method_map (F:=F) !! normalize method) →
  heap s !! A = Some (Sparse Av) →
  heap s !! b = Some (Vec bv) →
  heap s !! x_exact = Some (Vec xev) →
  square n Av → length bv = n → length xev = n →
  0 < max_iter →
  ∃ x1 x2 j t1 t2 err s' xv,
    (let* r1 := solve_linear_system method A b x_exact tol max_iter in
     let* r2 := solve_linear_system method A b x_exact tol max_iter in
     ret (r1, r2)) s
      = (Ok ((x1, j, t1, err), (x2, j, t2, err)), s') ∧
    x1 ≠ x2 ∧
    heap s' !! x1 = Some (Vec xv) ∧ heap s' !! x2 = Some (Vec xv).
Proof.
  intros Hm HA Hb Hxe HAv Hbv Hxev Hpos.
  destruct (solve_linear_system_computes method Hm) as (run & Hc & _).
  destruct (Hc s A b x_exact n Av bv xev tol max_iter HA Hb Hxe HAv Hbv Hxev Hpos)
    as (x1 & s1 & Heq1 & Hext1 & Hlo1 & Hx1).
  destruct (Hc s1 A b x_exact n Av bv xev tol max_iter) as
    (x2 & s2 & Heq2 & Hext2 & Hlo2 & Hx2); auto.
  eexists x1, x2, _, _, _, _, s2, _. split_and!.
  - rewrite (bind_ok _ _ _ _ _ Heq1). rewrite (bind_ok _ _ _ _ _ Heq2). done.
  - apply lookup_lt_Some in Hx1. lia.
  - by apply Hext2.
  - done.
Qed.


(** X5.  A tolerance tol' that every number below tol is also below
    never costs iterations: on the same arguments the call with tol'
    returns an iteration count that is at most the one of the call with
    tol. *)
Theorem looser_tolerance_stops_no_later
    s method A b x_exact n Av bv xev tol tol' max_iter :
  (∀ u : F, (u <? tol)%sc = true → (u <? tol')%sc = true) →
  is_Some (method_map (F:=F) !! normalize method) →
  heap s !! A = Some (Sparse Av) →
  heap s !! b = Some (Vec bv) →
  heap s !! x_exact = Some (Vec xev) →
  square n Av → length bv = n → length xev = n →
  0 < max_iter →
  ∃ x x' j j' t err err' s1 s2,
    solve_linear_system method A b x_exact tol max_iter s
      = (Ok (x, j, t, err), s1) ∧
    solve_linear_system method A b x_exact tol' max_iter s
      = (Ok (x', j', t, err'), s2) ∧
    j' ≤ j.
Proof.
  intros Htol Hm HA Hb Hxe HAv Hbv Hxev Hpos.
  destruct (solve_linear_system_computes method Hm)
    as (run & Hc & _ & _ & _ & _ & Hlooser).
  destruct (Hc s A b x_exact n Av bv xev tol max_iter HA Hb Hxe HAv Hbv Hxev Hpos)
    as (x & s1 & Heq1 & _).
  destruct (Hc s A b x_exact n Av bv xev tol' max_iter HA Hb Hxe HAv Hbv Hxev Hpos)
    as (x' & s2 & Heq2 & _).
  eexists x, x', _, _, _, _, _, s1, s2.
  split_and!; [apply Heq1|apply Heq2|by apply Hlooser].
Qed.

(** X6.  x_exact is only looked at after the loop.  When its length is
    neither that of the system nor one (and the system is larger than one),
    the subtraction x - x_exact raises ValueError, and nothing is returned;
    by then the call has read the clock once and has computed the solution
    that a call with a well-shaped x_exact returns: it is in the heap that
    the exception leaves. *)
Theorem misshapen_x_exact_raises_after_iterating
    s method A b x_exact x_exact' n Av bv xev xev' tol max_iter :
  is_Some (method_map (F:=F) !! normalize method) →
  heap s !! A = Some (Sparse Av) →
  heap s !! b = Some (Vec bv) →
  heap s !! x_exact = Some (Vec xev) →
  heap s !! x_exact' = Some (Vec xev') →
  square n Av → length bv = n →
  length xev ≠ n → length xev ≠ 1 → n ≠ 1 →
  length xev' = n →
  0 < max_iter →
  ∃ x j t err s' s'' xv,
    solve_linear_system method A b x_exact tol max_iter s
      = (Raise shape_mismatch, s') ∧
    solve_linear_system method A b x_exact' tol max_iter s
      = (Ok (x, j, t, err), s'') ∧
    heap s' !! x = Some (Vec xv) ∧ heap s'' !! x = Some (Vec xv) ∧
    ticks s' = S (ticks s).
Proof.
  intros Hm HA Hb Hxe Hxe' HAv Hbv Hxev Hxev1 Hn1 Hxev' Hpos.
  destruct (solve_linear_system_iterates method Hm)
    as (run & Hf & _ & Hlen & _ & _ & _).
  destruct (Hf s A b n Av bv tol max_iter HA Hb HAv Hbv Hpos)
    as (x & s' & Heq & Hext & Hc & Ht & Hlo & Hx).
  specialize (Hlen n Av bv tol max_iter HAv Hbv).
  destruct (finish_returns x x_exact' ((run Av bv tol max_iter).1 - 1)
    (clock s (ticks s)) s' _ xev' Hx (Hext _ _ Hxe')) as (s'' & Heq' & Hext');
    [congruence|].
  eexists x, _, _, _, s', s'', _. rewrite !Heq.
  split_and!; [|apply Heq'|done|by apply Hext'|done].
  eapply finish_raises; [done|by apply Hext|congruence..].
Qed.
End Methods.

Section Mismatch.
Context {F : Type} {SC : Scalar F}.
Implicit Types (s : state F).

Lemma jacobi_mismatch s A b x_exact n Av bv tol max_iter :
  heap s !! A = Some (Sparse Av) → heap s !! b = Some (Vec bv) →
  square n Av → length bv ≠ n → 0 < max_iter →
  runs_to (jacobi A b x_exact tol max_iter) s (λ out _, out = Raise shape_mismatch).
Proof.
  intros HA Hb HAv Hbv Hpos. bounds. unfold jacobi, jacobi_setup.
  pose proof (length_diagonal _ _ HAv).
  apply runs_to_assoc. step np_zeros_like_eq.
  apply runs_to_assoc. step sp_diagonal_eq.
  apply runs_to_assoc. step sp_diags_eq.
  apply runs_to_assoc. step sp_diagonal_eq.
  apply runs_to_assoc. step np_reciprocal_eq.
  apply runs_to_assoc. step sp_diags_eq.
  apply runs_to_assoc. eapply runs_bind.
  { eapply sp_sub_eq; [lk|lk| |].
    - rewrite nrows_diags. unfold nrows. shp.
    - rewrite ncols_diags. shp. }
  cbn beta iota.
  apply runs_to_assoc. step process_time_eq.
  eapply runs_bind; [done|]. cbn beta iota.
  apply runs_raise_bind. destruct max_iter as [|k]; [lia|]. cbn [for_range].
  apply runs_raise_bind. unfold jacobi_body.
  eapply runs_raise; [|done].
  eapply sp_dot_raises; [lk|lk|].
  assert (square n (matsub Av (diags (diagonal Av)))) as HR.
  { apply length_matsub; [done|]. by apply square_diags. }
  rewrite (square_ncols _ _ HR), length_zeros. done.
Qed.

Lemma gradient_mismatch s A b x_exact n Av bv tol max_iter :
  heap s !! A = Some (Sparse Av) → heap s !! b = Some (Vec bv) →
  square n Av → length bv ≠ n →
  runs_to (gradient A b x_exact tol max_iter) s (λ out _, out = Raise shape_mismatch).
Proof.
  intros HA Hb HAv Hbv. bounds. unfold gradient, gradient_setup.
  apply runs_raise_bind. step np_zeros_like_eq.
  eapply runs_raise; [|done].
  eapply sp_dot_raises; [lk|lk|].
  rewrite (square_ncols _ _ HAv), length_zeros. done.
Qed.

Lemma conjugate_gradient_mismatch s A b x_exact n Av bv tol max_iter :
  heap s !! A = Some (Sparse Av) → heap s !! b = Some (Vec bv) →
  square n Av → length bv ≠ n →
  runs_to (conjugate_gradient A b x_exact tol max_iter) s
    (λ out _, out = Raise shape_mismatch).
Proof.
  intros HA Hb HAv Hbv. bounds.
  unfold conjugate_gradient, conjugate_gradient_setup.
  apply runs_raise_bind. step np_zeros_like_eq.
  eapply runs_raise; [|done].
  eapply sp_dot_raises; [lk|lk|].
  rewrite (square_ncols _ _ HAv), length_zeros. done.
Qed.

Lemma gauss_seidel_mismatch s A b x_exact n Av bv tol max_iter :
  heap s !! A = Some (Sparse Av) → heap s !! b = Some (Vec bv) →
  square n Av → length bv ≠ n → 0 < n → 0 < length bv → 0 < max_iter →
  runs_to (gauss_seidel A b x_exact tol max_iter) s
    (λ out _, out = Raise shape_mismatch).
Proof.
  intros HA Hb HAv Hbv Hn Hm Hpos. bounds.
  unfold gauss_seidel, gauss_seidel_setup.
  apply runs_to_assoc. step np_zeros_like_eq.
  apply runs_to_assoc. step process_time_eq.
  apply runs_to_assoc. step sp_toarray_eq.
  eapply runs_bind; [done|]. cbn beta iota.
  apply runs_raise_bind. destruct max_iter as [|k]; [lia|]. cbn [for_range].
  apply runs_raise_bind. unfold gauss_seidel_body.
  step np_copy_eq. step nd_shape0_eq.
  apply runs_raise_bind.
  destruct HAv as [HAn HAr]. unfold nrows. rewrite HAn.
  destruct n as [|n]; [lia|]. cbn [seq for_each].
  apply runs_raise_bind. unfold gauss_seidel_update.
  destruct bv as [|b0 bv]; [simpl in Hm; lia|].
  destruct Av as [|row Av]; [done|].
  apply Forall_cons in HAr as [Hrow _].
  eapply runs_bind; [eapply (np_getitem_eq _ _ 0); [lk|done]|]. cbn beta iota.
  eapply runs_bind; [eapply (nd_row_upto_eq _ _ 0 0); [lk|done]|]. cbn beta iota.
  eapply runs_bind; [eapply (np_upto_eq _ _ 0); lk|]. cbn beta iota.
  eapply runs_bind; [by apply matmul_eq|]. cbn beta iota.
  eapply runs_bind; [eapply (nd_row_from_eq _ _ 0 1); [lk|done]|]. cbn beta iota.
  eapply runs_bind; [eapply (np_from_eq _ _ 1); lk|]. cbn beta iota.
  eapply runs_raise; [|done]. apply matmul_raises.
  rewrite !length_drop, length_zeros. simpl in *. lia.
Qed.

(** X7.  When the length of b is not the size of the (non-empty) matrix,
    every method raises ValueError and returns nothing, whatever x_exact is:
    [gradient] and [conjugate_gradient] in A.dot(x) before their loop,
    [jacobi] in R.dot(x) and [gauss_seidel] in the product
    A[0, 1:] @ x_old[1:] of their first iteration. *)
Theorem mismatched_rhs_raises s method A b x_exact n Av bv tol max_iter :
  is_Some (method_map (F:=F) !! normalize method) →
  heap s !! A = Some (Sparse Av) →
  heap s !! b = Some (Vec bv) →
  square n Av → length bv ≠ n → 0 < n → 0 < length bv →
  0 < max_iter →
  (solve_linear_system method A b x_exact tol max_iter s).1
    = Raise shape_mismatch.
Proof.
  intros [f Hf] HA Hb HAv Hbv Hn Hm Hpos.
  assert (runs_to (f A b x_exact tol max_iter) s
            (λ out _, out = Raise shape_mismatch)) as Hrun.
  { unfold method_map in Hf. apply elem_of_list_to_map_2 in Hf.
    repeat (apply elem_of_cons in Hf as [[= _ ->]|Hf];
      [eauto using jacobi_mismatch, gauss_seidel_mismatch, gradient_mismatch,
         conjugate_gradient_mismatch|]).
    by apply elem_of_nil in Hf. }
  unfold solve_linear_system. cbv zeta.
  destruct (method_map !! normalize method) as [f'|]; [|done].
  injection Hf as ->. apply Hrun.
Qed.
End Mismatch.

(** ** Binary64: tests that never hold *)

Lemma binary_round_aux_unsigned prec emax mx ex lx :
  sf_unsigned (binary_round_aux prec emax false mx ex lx).
Proof.
  unfold binary_round_aux.
  destruct (shr_fexp prec emax mx ex lx) as [mrs' e'].
  destruct (shr_fexp prec emax _ e' loc_Exact) as [mrs'' e''].
  destruct (shr_m mrs''); [done| |done].
  by case_match.
Qed.

Lemma SFsqrt_unsigned prec emax x :
  sf_unsigned x → sf_unsigned (SFsqrt prec emax x).
Proof.
  destruct x as [s|s| |s mx ex]; simpl; intros Hx; subst; try done.
  case_match. case_match. apply binary_round_aux_unsigned.
Qed.

Lemma SFdiv_unsigned prec emax x y :
  sf_unsigned x → sf_unsigned y → sf_unsigned (SFdiv prec emax x y).
Proof.
  destruct x as [sx|sx| |sx mx ex], y as [sy|sy| |sy my ey]; simpl;
    intros Hx Hy; subst; try done.
  case_match. case_match. apply binary_round_aux_unsigned.
Qed.

Lemma SFmul_self_unsigned prec emax x : sf_unsigned (SFmul prec emax x x).
Proof.
  destruct x as [[]|[]| |[] mx ex]; simpl; try done;
    apply binary_round_aux_unsigned.
Qed.

Lemma SFadd_unsigned prec emax x y :
  sf_unsigned x → sf_unsigned y → sf_unsigned (SFadd prec emax x y).
Proof.
  destruct x as [sx|sx| |sx mx ex], y as [sy|sy| |sy my ey]; simpl;
    intros Hx Hy; subst; try done.
  change (cond_Zopp false ?z) with z.
  generalize (shl_align mx ex (ex `min` ey)).1 as m1.
  generalize (shl_align my ey (ex `min` ey)).1 as m2. intros m2 m1.
  change (Z.pos m1 + Z.pos m2)%Z with (Z.pos (m1 + m2)).
  unfold binary_normalize, binary_round.
  destruct (shl_align _ _ _) as [mz ez]. apply binary_round_aux_unsigned.
Qed.

Lemma SFltb_unsigned x t :
  sf_unsigned x → SFltb (S754_zero false) t = false → SFltb x t = false.
Proof.
  destruct x as [sx|sx| |sx mx ex], t as [st|st| |st mt et]; simpl;
    intros Hx; subst; unfold SFltb; simpl; try done; by destruct st.
Qed.

Lemma SFltb_over_zero x t :
  sf_unsigned x → SFltb (SFdiv prec emax x (S754_zero false)) t = false.
Proof.
  destruct x as [sx|sx| |sx mx ex]; simpl; intros Hx; subst; try done;
    by destruct t as [|[]| |].
Qed.

Lemma dot_self_unsigned (u : list float) : sf_unsigned (Prim2SF (dot u u)).
Proof.
  unfold dot. change fzero with 0%float.
  assert (sf_unsigned (Prim2SF 0)) as H0 by done.
  revert H0. generalize 0%float as acc.
  induction u as [|a u IH]; intros acc Hacc; [done|].
  simpl. apply IH. rewrite add_spec, mul_spec.
  apply SFadd_unsigned; [done|apply SFmul_self_unsigned].
Qed.

Lemma norm_unsigned (u : list float) : sf_unsigned (Prim2SF (norm u)).
Proof.
  unfold norm. simpl. rewrite sqrt_spec.
  apply SFsqrt_unsigned, dot_self_unsigned.
Qed.

Lemma never_passes_nonpositive_tol (bv : list float) (tol : float) :
  (0 <? tol)%float = false → never_passes bv tol.
Proof.
  intros H u. simpl. rewrite ltb_spec in H. rewrite ltb_spec, div_spec.
  apply SFltb_unsigned; [|done].
  apply SFdiv_unsigned; apply norm_unsigned.
Qed.

Lemma dot_zeros_float n : dot (zeros n) (zeros n) = 0%float.
Proof.
  unfold dot, zeros. induction n as [|n IH]; [done|]. simpl. apply IH.
Qed.

Lemma never_passes_zero_rhs n (tol : float) : never_passes (zeros n) tol.
Proof.
  intros u. unfold norm at 2. rewrite dot_zeros_float. simpl.
  rewrite ltb_spec, div_spec.
  change (Prim2SF (sqrt 0)) with (S754_zero false).
  apply SFltb_over_zero, norm_unsigned.
Qed.

Section Binary64.
Implicit Types (s : state float).

Lemma never_passes_runs_all s method A b x_exact n Av bv xev tol max_iter :
  never_passes bv tol →
  is_Some (method_map (F:=float) !! normalize method) →
  heap s !! A = Some (Sparse Av) →
  heap s !! b = Some (Vec bv) →
  heap s !! x_exact = Some (Vec xev) →
  square n Av → length bv = n → length xev = n →
  0 < max_iter →
  ∃ x t err s',
    solve_linear_system method A b x_exact tol max_iter s
      = (Ok (x, max_iter, t, err), s').
Proof.
  intros Hnever Hm HA Hb Hxe HAv Hbv Hxev Hpos.
  destruct (solve_linear_system_computes method Hm)
    as (run & Hc & _ & _ & _ & Hall & _).
  destruct (Hc s A b x_exact n Av bv xev tol max_iter HA Hb Hxe HAv Hbv Hxev Hpos)
    as (x & s' & Heq & _).
  rewrite (Hall Av bv tol max_iter Hnever) in Heq. eauto.
Qed.

(** X8.  In binary64, with b = 0 the relative residual is a division by
    |b| = 0, that is an infinity or a NaN, and the test [rel_res < tol] is
    false for every tol: each method makes all max_iter iterations. *)
Theorem zero_rhs_never_converges s method A b x_exact n Av xev tol max_iter :
  is_Some (method_map (F:=float) !! normalize method) →
  heap s !! A = Some (Sparse Av) →
  heap s !! b = Some (Vec (zeros n)) →
  heap s !! x_exact = Some (Vec xev) →
  square n Av → length xev = n →
  0 < max_iter →
  ∃ x t err s',
    solve_linear_system method A b x_exact tol max_iter s
      = (Ok (x, max_iter, t, err), s').
Proof.
  intros Hm HA Hb Hxe HAv Hxev Hpos.
  eapply never_passes_runs_all; eauto using never_passes_zero_rhs.
  apply length_zeros.
Qed.

(** X9.  In binary64, with a tolerance that is not above zero (zero, a
    negative number or a NaN) the test [rel_res < tol] never holds, since a
    relative residual is a quotient of two norms: each method makes all
    max_iter iterations. *)
Theorem nonpositive_tol_never_converges
    s method A b x_exact n Av bv xev tol max_iter :
  (0 <? tol)%float = false →
  is_Some (method_map (F:=float) !! normalize method) →
  heap s !! A = Some (Sparse Av) →
  heap s !! b = Some (Vec bv) →
  heap s !! x_exact = Some (Vec xev) →
  square n Av → length bv = n → length xev = n →
  0 < max_iter →
  ∃ x t err s',
    solve_linear_system method A b x_exact tol max_iter s
      = (Ok (x, max_iter, t, err), s').
Proof.
  intros Htol. apply never_passes_runs_all.
  by apply never_passes_nonpositive_tol.
Qed.
End Binary64.

(** ** Gradient and conjugate gradient *)

Section Same.
Context {F : Type} {SC : Scalar F}.
Implicit Types (s : state F).

(* The loops of [gradient] and [conjugate_gradient] go through the same
   x, r and p, as long as rsold is r . r. *)
Lemma gd_cg_spec_loop Av bv tol n x r p :
  (gd_spec_loop Av bv tol n (GDVars x r p)).1
    = (cg_spec_loop Av bv tol n (CGVars x r p (dot r r))).1 ∧
  gd_x (gd_spec_loop Av bv tol n (GDVars x r p)).2
    = cg_x (cg_spec_loop Av bv tol n (CGVars x r p (dot r r))).2.
Proof.
  revert x r p. induction n as [|n IH]; intros x r p; [done|].
  cbn [gd_spec_loop cg_spec_loop]. unfold gd_spec_step, cg_spec_step.
  cbn [gd_x gd_r gd_p cg_x cg_r cg_p cg_rsold]. cbv zeta.
  change (fsqrt (dot ?u ?u)) with (norm u).
  destruct (_ <? tol)%sc; [done|].
  match goal with |- context [gd_spec_loop _ _ _ n (GDVars ?x' ?r' ?p')] =>
    specialize (IH x' r' p') end.
  destruct (gd_spec_loop _ _ _ _ _), (cg_spec_loop _ _ _ _ _).
  simpl in *. destruct IH as [-> ->]. done.
Qed.

Lemma gradient_run_conjugate_gradient_run Av bv tol k :
  gradient_run Av bv tol k = conjugate_gradient_run Av bv tol k.
Proof.
  unfold gradient_run, conjugate_gradient_run, gd_spec_start, cg_loop_start.
  cbv zeta.
  pose proof (gd_cg_spec_loop Av bv tol k (zeros (length bv))
    (vsub bv (matvec Av (zeros (length bv))))
    (vsub bv (matvec Av (zeros (length bv))))) as [H1 H2].
  destruct (gd_spec_loop _ _ _ _ _), (cg_spec_loop _ _ _ _ _).
  simpl in *. by rewrite H1, H2.
Qed.

End Same.

Section ExactStop.
Implicit Types (s : state R).

Lemma fltb_exact (a b : R) : (a <? b)%sc = true → (a < b)%R.
Proof. simpl. by destruct (Rlt_dec a b). Qed.

Lemma cg_stop_true_residual n Av bv tol k :
  square n Av → length bv = n →
  (conjugate_gradient_run Av bv tol k).1 < k →
  (norm (vsub bv (matvec Av (conjugate_gradient_run Av bv tol k).2)) / norm bv
    < tol)%R.
Proof.
  intros HAv Hbv. unfold conjugate_gradient_run. rewrite cg_spec_loop_until.
  pose proof (iterate_until_stopped
    (λ v, cg_shaped n v ∧ cg_r v = vsub bv (matvec Av (cg_x v)))
    (λ w, (norm (vsub bv (matvec Av (cg_x w))) / norm bv < tol)%R)
    (cg_spec_step Av bv tol) k (cg_loop_start Av bv)) as H.
  destruct (iterate_until _ _ _) as [j w]. simpl in *. apply H.
  - intros v [(Hx & Hr & Hp) Hres]. unfold cg_spec_step. cbv zeta.
    case_match; [done|]. intros _. simpl. split.
    + unfold cg_shaped. simpl. split_and!; shp.
    + rewrite Hres. apply residual_update. congruence.
  - intros v [(Hx & Hr & Hp) Hres]. unfold cg_spec_step. cbv zeta.
    case_match eqn:Htest; [|done]. intros _. simpl.
    apply fltb_exact in Htest. rewrite Hres in Htest.
    rewrite residual_update in Htest by congruence. done.
  - unfold cg_loop_start. cbv zeta. simpl. split; [|by rewrite Hbv].
    unfold cg_shaped. simpl. split_and!; shp.
Qed.

(** X11.  In exact arithmetic (the real numbers, with Rocq's total
    division), when [gradient] or [conjugate_gradient] returns an iteration
    count below max_iter, the solution x it returns has |b - A x| / |b| < tol:
    the residual that the loop carries along and tests is the residual of
    the returned x. *)
Theorem early_stop_bounds_true_residual
    s A b x_exact n Av bv xev tol max_iter :
  heap s !! A = Some (Sparse Av) →
  heap s !! b = Some (Vec bv) →
  heap s !! x_exact = Some (Vec xev) →
  square n Av → length bv = n → length xev = n →
  0 < max_iter →
  (∃ x j t err s' xv,
     gradient A b x_exact tol max_iter s = (Ok (x, j, t, err), s') ∧
     heap s' !! x = Some (Vec xv) ∧
     (j < max_iter → (norm (vsub bv (matvec Av xv)) / norm bv < tol)%R)) ∧
  (∃ x j t err s' xv,
     conjugate_gradient A b x_exact tol max_iter s = (Ok (x, j, t, err), s') ∧
     heap s' !! x = Some (Vec xv) ∧
     (j < max_iter → (norm (vsub bv (matvec Av xv)) / norm bv < tol)%R)).
Proof.
  intros HA Hb Hxe HAv Hbv Hxev Hpos. split.
  - destruct (iterates_computes _ _ gradient_iterates gradient_run_regular
      s A b x_exact n Av bv xev tol max_iter HA Hb Hxe HAv Hbv Hxev Hpos)
      as (x & s' & Heq & _ & _ & Hx).
    eexists x, _, _, _, s', _. split_and!; [apply Heq|apply Hx|].
    rewrite gradient_run_conjugate_gradient_run.
    by apply (cg_stop_true_residual n).
  - destruct (iterates_computes _ _ conjugate_gradient_iterates
      conjugate_gradient_run_regular
      s A b x_exact n Av bv xev tol max_iter HA Hb Hxe HAv Hbv Hxev Hpos)
      as (x & s' & Heq & _ & _ & Hx).
    eexists x, _, _, _, s', _. split_and!; [apply Heq|apply Hx|].
    by apply (cg_stop_true_residual n).
Qed.
End ExactStop.

(** ** Jacobi and Gauss-Seidel *)

Section Stationary.
Context {F : Type} {SC : Scalar F}.
Implicit Types (s : state F).

Lemma jacobi_loop_spec Av bv tol n x :
  0 < n →
  let j := (jacobi_loop Av bv tol n x).1 in
  let w := (jacobi_loop Av bv tol n x).2 in
  let it i := Nat.iter i (jacobi_next Av bv) x in
  1 ≤ j ≤ n ∧
  (∀ i, 1 ≤ i < j → residual_below Av bv tol (it i) = false) ∧
  (residual_below Av bv tol (it j) = true ∧ w = it (j - 1)
   ∨ j = n ∧ residual_below Av bv tol (it j) = false ∧ w = it j).
Proof.
  revert x. induction n as [|n IH]; intros x Hn; [lia|]. cbv zeta.
  cbn [jacobi_loop].
  destruct (residual_below Av bv tol (jacobi_next Av bv x)) eqn:Htest.
  - simpl. split_and!; [lia|lia|intros; lia|]. by left.
  - destruct n as [|n].
    + simpl. split_and!; [lia|lia|intros; lia|]. by right.
    + specialize (IH (jacobi_next Av bv x) ltac:(lia)). cbv zeta in IH.
      destruct (jacobi_loop Av bv tol (S n) (jacobi_next Av bv x)) as [j w].
      simpl in IH |- *. destruct IH as (Hj & Hbefore & Hend).
      setoid_rewrite <- Nat.iter_succ_r in Hbefore.
      rewrite <- !Nat.iter_succ_r in Hend.
      split_and!; [lia|lia| |].
      * intros i Hi. destruct i as [|[|i]]; [lia|done|].
        apply Hbefore. lia.
      * destruct Hend as [[Hj' ->]|(-> & Hj' & ->)]; [left|right]; [|done].
        split; [done|]. replace (j - 0) with (S (j - 1)) by lia. done.
Qed.

Lemma gs_spec_loop_spec Av bv tol n x :
  0 < n →
  let j := (gs_spec_loop Av bv tol n x).1 in
  let w := (gs_spec_loop Av bv tol n x).2 in
  let it i := Nat.iter i (gs_sweep Av bv) x in
  1 ≤ j ≤ n ∧ w = it j ∧
  (∀ i, 1 ≤ i < j → residual_below Av bv tol (it i) = false) ∧
  (j < n → residual_below Av bv tol (it j) = true).
Proof.
  revert x. induction n as [|n IH]; intros x Hn; [lia|]. cbv zeta.
  cbn [gs_spec_loop]. fold (residual_below Av bv tol (gs_sweep Av bv x)).
  destruct (residual_below Av bv tol (gs_sweep Av bv x)) eqn:Htest.
  - simpl. split_and!; [lia|lia|done|intros; lia|done].
  - destruct n as [|n].
    + simpl. split_and!; [lia|lia|done|intros; lia|lia].
    + specialize (IH (gs_sweep Av bv x) ltac:(lia)). cbv zeta in IH.
      destruct (gs_spec_loop Av bv tol (S n) (gs_sweep Av bv x)) as [j w].
      simpl in IH |- *. destruct IH as (Hj & -> & Hbefore & Hend).
      setoid_rewrite <- Nat.iter_succ_r in Hbefore.
      rewrite <- !Nat.iter_succ_r in Hend.
      split_and!; [lia|lia|by rewrite <- Nat.iter_succ_r| |].
      * intros i Hi. destruct i as [|[|i]]; [lia|done|].
        apply Hbefore. lia.
      * intros ?. apply Hend. lia.
Qed.

(** X12.  What [jacobi] returns, for the iterates x_0 = 0,
    x_(i+1) = D^-1 (b - R x_i): the count j is the index of the first iterate
    whose relative residual is below tol, and the vector returned is the
    iterate before it, x_(j-1); when no iterate up to x_max_iter passes the
    test, j = max_iter and the vector returned is x_max_iter.  The relative
    error is that of the vector returned. *)
Theorem jacobi_returns_iterate_before_test
    s A b x_exact n Av bv xev tol max_iter :
  heap s !! A = Some (Sparse Av) →
  heap s !! b = Some (Vec bv) →
  heap s !! x_exact = Some (Vec xev) →
  square n Av → length bv = n → length xev = n →
  0 < max_iter →
  ∃ x j t s' xv,
    jacobi A b x_exact tol max_iter s
      = (Ok (x, j, t, (norm (vsub xv xev) / norm xev)%sc), s') ∧
    heap s' !! x = Some (Vec xv) ∧
    1 ≤ j ≤ max_iter ∧
    (∀ i, 1 ≤ i < j → residual_below Av bv tol (jacobi_iterate Av bv i) = false) ∧
    (residual_below Av bv tol (jacobi_iterate Av bv j) = true ∧
       xv = jacobi_iterate Av bv (j - 1)
     ∨ j = max_iter ∧
       residual_below Av bv tol (jacobi_iterate Av bv j) = false ∧
       xv = jacobi_iterate Av bv j).
Proof.
  intros HA Hb Hxe HAv Hbv Hxev Hpos.
  destruct (iterates_computes _ _ jacobi_iterates jacobi_run_regular
    s A b x_exact n Av bv xev tol max_iter HA Hb Hxe HAv Hbv Hxev Hpos)
    as (x & s' & Heq & _ & _ & Hx).
  pose proof (jacobi_loop_spec Av bv tol max_iter (zeros (length bv)) Hpos)
    as (Hj & Hbefore & Hend).
  eexists x, (jacobi_run Av bv tol max_iter).1, _, s',
    (jacobi_run Av bv tol max_iter).2.
  split_and!; [apply Heq|apply Hx|apply Hj..|apply Hbefore|apply Hend].
Qed.

(** X13.  What [gauss_seidel] returns, for the sweeps x_0 = 0,
    x_(i+1) = sweep x_i: the count j is the index of the first sweep whose
    relative residual is below tol, or max_iter when there is none before,
    and the vector returned is x_j itself.  A count below max_iter means
    that the returned vector passes the test. *)
Theorem gauss_seidel_returns_first_passing_sweep
    s A b x_exact n Av bv xev tol max_iter :
  heap s !! A = Some (Sparse Av) →
  heap s !! b = Some (Vec bv) →
  heap s !! x_exact = Some (Vec xev) →
  square n Av → length bv = n → length xev = n →
  0 < max_iter →
  ∃ x j t s',
    gauss_seidel A b x_exact tol max_iter s
      = (Ok (x, j, t, (norm (vsub (gs_iterate Av bv j) xev) / norm xev)%sc), s') ∧
    heap s' !! x = Some (Vec (gs_iterate Av bv j)) ∧
    1 ≤ j ≤ max_iter ∧
    (∀ i, 1 ≤ i < j → residual_below Av bv tol (gs_iterate Av bv i) = false) ∧
    (j < max_iter → residual_below Av bv tol (gs_iterate Av bv j) = true).
Proof.
  intros HA Hb Hxe HAv Hbv Hxev Hpos.
  destruct (iterates_computes _ _ gauss_seidel_iterates gauss_seidel_run_regular
    s A b x_exact n Av bv xev tol max_iter HA Hb Hxe HAv Hbv Hxev Hpos)
    as (x & s' & Heq & _ & _ & Hx).
  pose proof (gs_spec_loop_spec Av bv tol max_iter (zeros (length bv)) Hpos)
    as (Hj & Hw & Hbefore & Hend).
  unfold gauss_seidel_run in Heq, Hx. rewrite Hw in Heq, Hx.
  eexists x, (gs_spec_loop Av bv tol max_iter (zeros (length bv))).1, _, s'.
  split_and!; [apply Heq|apply Hx|apply Hj..|apply Hbefore|apply Hend].
Qed.
End Stationary.

(** ** Exact arithmetic on diagonal systems *)

Section Diag.
Context {F : Type} {SC : Scalar F}.
Implicit Types (d v : list F).

Lemma lookup_diags d i a :
  d !! i = Some a → diags d !! i = Some (<[i:=a]> (zeros (length d))).
Proof. intros H. unfold diags. by rewrite list_lookup_imap, H. Qed.

Lemma entry_diags d i a : d !! i = Some a → entry (diags d) i i = a.
Proof.
  intros H. unfold entry. rewrite (lookup_diags _ _ _ H). simpl.
  rewrite list_lookup_insert_eq; [done|].
  rewrite length_zeros. by eapply lookup_lt_Some.
Qed.

Lemma diagonal_diags d : diagonal (diags d) = d.
Proof.
  unfold diagonal. rewrite nrows_diags.
  assert (length d `min` ncols (diags d) = length d) as ->.
  { destruct d; [done|]. rewrite ncols_diags. lia. }
  apply list_eq. intros i. rewrite list_lookup_fmap.
  destruct (d !! i) as [a|] eqn:Hi.
  - rewrite lookup_seq_lt by by eapply lookup_lt_Some. simpl.
    by rewrite (entry_diags _ _ _ Hi).
  - rewrite lookup_seq_ge; [done|]. by apply lookup_ge_None.
Qed.
End Diag.

Section DiagExact.
Local Open Scope R_scope.
Implicit Types (d u v : list R) (s : state R).

Lemma dot_zeros_l n v : dot (zeros n) v = 0.
Proof.
  revert v. induction n as [|n IH]; intros [|b v]; try done.
  change (zeros (S n)) with (0 :: zeros n). rewrite dot_cons, IH. lra.
Qed.

Lemma dot_insert_zeros n i (a : R) v b :
  (i < n)%nat → v !! i = Some b → dot (<[i:=a]> (zeros n)) v = a * b.
Proof.
  revert i v. induction n as [|n IH]; intros i v Hi Hv; [lia|].
  destruct v as [|c v]; [done|]. change (zeros (S n)) with (0 :: zeros n).
  destruct i as [|i]; simpl in *.
  - injection Hv as ->. rewrite dot_cons, dot_zeros_l. lra.
  - rewrite dot_cons, (IH i v) by (done || lia). lra.
Qed.

(* D v, for the diagonal matrix D of d *)
Lemma matvec_diags d v :
  length d = length v → matvec (diags d) v = zip_with Rmult d v.
Proof.
  intros E. apply list_eq. intros i. unfold matvec.
  rewrite list_lookup_fmap, lookup_zip_with.
  destruct (d !! i) as [a|] eqn:Hd; simpl.
  - rewrite (lookup_diags _ _ _ Hd). simpl.
    destruct (lookup_lt_is_Some_2 v i) as [b Hv].
    { rewrite <- E. by eapply lookup_lt_Some. }
    rewrite Hv. simpl. f_equal.
    apply dot_insert_zeros; [by eapply lookup_lt_Some|done].
  - unfold diags. by rewrite list_lookup_imap, Hd.
Qed.

Lemma dot_vsub_self u v : dot (vsub u u) v = 0.
Proof.
  revert v. induction u as [|a u IH]; intros [|b v]; try done.
  change (vsub (a :: u) (a :: u)) with ((a - a) :: vsub u u).
  rewrite dot_cons, IH. lra.
Qed.

Lemma matvec_matsub_self (m : list (list R)) v :
  matvec (matsub m m) v = zeros (length m).
Proof.
  induction m as [|row m IH]; [done|].
  change (matvec (matsub (row :: m) (row :: m)) v)
    with (dot (vsub row row) v :: matvec (matsub m m) v).
  by rewrite IH, dot_vsub_self.
Qed.

Lemma vsub_self u : vsub u u = zeros (length u).
Proof.
  induction u as [|a u IH]; [done|].
  change (vsub (a :: u) (a :: u)) with ((a - a) :: vsub u u).
  rewrite IH. change (zeros (length (a :: u))) with (0 :: zeros (length u)).
  f_equal. lra.
Qed.

Lemma norm_zeros n : norm (zeros (F:=R) n) = 0.
Proof. unfold norm. rewrite dot_zeros_l. apply sqrt_0. Qed.

(* The first iterate of Jacobi solves a diagonal system. *)
Lemma jacobi_next_diags d bv :
  length bv = length d → Forall (λ a, a ≠ 0) d →
  matvec (diags d) (jacobi_next (diags d) bv (zeros (length bv))) = bv.
Proof.
  intros E Hd. unfold jacobi_next. rewrite diagonal_diags.
  pose proof (nrows_diags d) as Hn. unfold nrows in Hn.
  rewrite matvec_matsub_self, Hn, <- E, vsub_zeros.
  rewrite (matvec_diags (reciprocal d) bv) by by rewrite length_reciprocal.
  rewrite matvec_diags by (rewrite length_zip_with, length_reciprocal; lia).
  clear Hn. revert bv E.
  induction Hd as [|a d Ha Hd IH]; intros [|c bv] E; try done.
  simpl in *. rewrite IH by lia. f_equal. by field.
Qed.

Lemma dot_self_nonneg v : 0 <= dot v v.
Proof.
  induction v as [|a v IH]; [rewrite dot_nil_l; lra|]. rewrite dot_cons. nra.
Qed.

Lemma norm_nonzero v : dot v v ≠ 0 → norm v ≠ 0.
Proof.
  intros Hv E. apply Hv. unfold norm in E. simpl in E.
  by apply sqrt_eq_0; [apply dot_self_nonneg|].
Qed.

Lemma norm_zeros_vsub v : norm (vsub (zeros (length v)) v) = norm v.
Proof.
  unfold norm. f_equal. induction v as [|a v IH]; [done|].
  change (vsub (zeros (length (a :: v))) (a :: v))
    with ((0 - a) :: vsub (zeros (length v)) v).
  rewrite !dot_cons, IH. lra.
Qed.

(** X14.  In exact arithmetic, on a diagonal system with a nonzero
    diagonal, with b and x_exact not zero (so that no norm the call divides
    by is zero) and a tolerance above zero: the first iterate of Jacobi
    solves the system, so the loop stops in its first iteration, and
    [jacobi] returns the iteration count 1 and the zero vector it started
    from; the relative error it reports is 1. *)
Theorem jacobi_on_diagonal_system_returns_zero
    s A b x_exact n d bv xev tol max_iter :
  heap s !! A = Some (Sparse (diags d)) →
  heap s !! b = Some (Vec bv) →
  heap s !! x_exact = Some (Vec xev) →
  length d = n → length bv = n → length xev = n →
  Forall (λ a, a ≠ 0) d →
  dot bv bv ≠ 0 →
  dot xev xev ≠ 0 →
  0 < tol →
  (0 < max_iter)%nat →
  matvec (diags d) (jacobi_iterate (diags d) bv 1) = bv ∧
  norm (vsub (zeros n) xev) / norm xev = 1 ∧
  ∃ x t s',
    jacobi A b x_exact tol max_iter s
      = (Ok (x, 1%nat, t, norm (vsub (zeros n) xev) / norm xev), s') ∧
    heap s' !! x = Some (Vec (zeros n)).
Proof.
  intros HA Hb Hxe Hd Hbv Hxev Hnz Hbnz Hxnz Htol Hpos.
  assert (matvec (diags d) (jacobi_iterate (diags d) bv 1) = bv) as Hsol.
  { apply jacobi_next_diags; [congruence|done]. }
  split; [done|]. split.
  { rewrite <- Hxev, norm_zeros_vsub. apply Rinv_r, norm_nonzero, Hxnz. }
  assert (jacobi_run (diags d) bv tol max_iter = (1%nat, zeros n)) as Hrun.
  { unfold jacobi_run. destruct max_iter as [|k]; [lia|]. cbn [jacobi_loop].
    unfold residual_below. unfold jacobi_iterate in Hsol. simpl in Hsol.
    rewrite Hsol, vsub_self, norm_zeros. simpl.
    unfold Rdiv. rewrite Rmult_0_l. rewrite Hbv.
    by destruct (Rlt_dec 0 tol). }
  destruct (iterates_computes _ _ jacobi_iterates jacobi_run_regular
    s A b x_exact n (diags d) bv xev tol max_iter HA Hb Hxe) as
    (x & s' & Heq & _ & _ & Hx); [by apply square_diags|done..|].
  rewrite Hrun in Heq, Hx. by eexists x, _, s'.
Qed.
End DiagExact.

Section DiagEntries.
Context {F : Type} {SC : Scalar F}.
Implicit Types (d v : list F).

Lemma entry_diags_ne d i j : i ≠ j → entry (diags d) i j = fzero.
Proof.
  intros Hij. unfold entry, diags. rewrite list_lookup_imap.
  destruct (d !! i) as [a|]; simpl; [|done].
  rewrite list_lookup_insert_ne by done.
  unfold zeros. destruct (decide (j < length d)).
  - by rewrite lookup_replicate_2.
  - by rewrite (proj1 (lookup_replicate_None _ _ _)) by lia.
Qed.

(* Assigning the components 0, ..., k - 1 in turn, each to a value of its
   own. *)
Lemma foldl_insert_seq (g : nat → F) k (x : list F) :
  k ≤ length x →
  foldl (λ x i, <[i:=g i]> x) x (seq 0 k) = (g <$> seq 0 k) ++ drop k x.
Proof.
  induction k as [|k IH]; intros Hk; [by rewrite drop_0|].
  rewrite seq_S, foldl_snoc, fmap_app. simpl. rewrite IH by lia.
  rewrite insert_app_r_alt; rewrite length_fmap, length_seq; [|lia].
  rewrite Nat.sub_diag, <- app_assoc. f_equal.
  destruct (lookup_lt_is_Some_2 x k ltac:(lia)) as [y Hy].
  by rewrite (drop_S _ _ _ Hy).
Qed.
End DiagEntries.

Section GSDiag.
Local Open Scope R_scope.
Implicit Types (d u v : list R) (s : state R).

Lemma sum_over_zero js (f : nat → R) :
  (∀ j, j ∈ js → f j = 0) → sum_over js f = 0.
Proof.
  intros H. unfold sum_over. induction js as [|j js IH] using rev_ind; [done|].
  rewrite foldl_snoc, IH by (intros; apply H; set_solver).
  rewrite (H j) by set_solver. simpl. lra.
Qed.

Lemma gs_component_diags d bv x xo i a :
  d !! i = Some a →
  gs_component (diags d) bv x xo i = at_index bv i / a.
Proof.
  intros Hd. unfold gs_component. rewrite (entry_diags _ _ _ Hd).
  rewrite !sum_over_zero.
  - simpl. f_equal. lra.
  - intros j [??]%elem_of_seq. rewrite entry_diags_ne by lia. simpl. lra.
  - intros j [??]%elem_of_seq. rewrite entry_diags_ne by lia. simpl. lra.
Qed.

Lemma gs_sweep_from_diags d bv xo idx x :
  (∀ i, i ∈ idx → (i < length d)%nat) →
  gs_sweep_from (diags d) bv xo idx x
    = foldl (λ x i, <[i:=at_index bv i / at_index d i]> x) x idx.
Proof.
  unfold gs_sweep_from. revert x.
  induction idx as [|i idx IH]; intros x Hidx; [done|]. cbn [foldl].
  destruct (lookup_lt_is_Some_2 d i) as [a Ha]; [apply Hidx; set_solver|].
  rewrite (gs_component_diags _ _ _ _ _ _ Ha), (at_index_lookup _ _ _ Ha).
  apply IH. intros; apply Hidx; set_solver.
Qed.

(* One sweep of Gauss-Seidel on a diagonal system gives b / d. *)
Lemma gs_sweep_diags d bv xo :
  length xo = length d →
  gs_sweep (diags d) bv xo
    = (λ i, at_index bv i / at_index d i) <$> seq 0 (length d).
Proof.
  intros E. unfold gs_sweep.
  pose proof (nrows_diags d) as Hn. unfold nrows in Hn. rewrite Hn.
  rewrite gs_sweep_from_diags by (by intros i [_ ?]%elem_of_seq).
  rewrite foldl_insert_seq by lia.
  by rewrite drop_ge, app_nil_r by lia.
Qed.

Lemma matvec_gs_sweep_diags d bv xo :
  length xo = length d → length bv = length d → Forall (λ a, a ≠ 0) d →
  matvec (diags d) (gs_sweep (diags d) bv xo) = bv.
Proof.
  intros Exo Ebv Hd. rewrite gs_sweep_diags by done.
  rewrite matvec_diags by by rewrite length_fmap, length_seq.
  apply list_eq. intros i. rewrite lookup_zip_with, list_lookup_fmap.
  destruct (d !! i) as [a|] eqn:Ha; simpl.
  - rewrite lookup_seq_lt by by eapply lookup_lt_Some. simpl.
    destruct (lookup_lt_is_Some_2 bv i) as [c Hc].
    { rewrite Ebv. by eapply lookup_lt_Some. }
    rewrite Hc, (at_index_lookup _ _ _ Hc), (at_index_lookup _ _ _ Ha).
    f_equal. rewrite Forall_lookup in Hd. specialize (Hd _ _ Ha).
    by field.
  - symmetry. apply lookup_ge_None. rewrite Ebv. by apply lookup_ge_None.
Qed.

(** X15.  In exact arithmetic, on the same diagonal systems (a nonzero
    diagonal, b and x_exact not zero, a tolerance above zero)
    [gauss_seidel] returns after one sweep, and the vector it returns
    solves the system. *)
Theorem gauss_seidel_on_diagonal_system_is_exact
    s A b x_exact n d bv xev tol max_iter :
  heap s !! A = Some (Sparse (diags d)) →
  heap s !! b = Some (Vec bv) →
  heap s !! x_exact = Some (Vec xev) →
  length d = n → length bv = n → length xev = n →
  Forall (λ a, a ≠ 0) d →
  dot bv bv ≠ 0 →
  dot xev xev ≠ 0 →
  0 < tol →
  (0 < max_iter)%nat →
  ∃ x t s' xv,
    gauss_seidel A b x_exact tol max_iter s
      = (Ok (x, 1%nat, t, norm (vsub xv xev) / norm xev), s') ∧
    heap s' !! x = Some (Vec xv) ∧
    matvec (diags d) xv = bv.
Proof.
  intros HA Hb Hxe Hd Hbv Hxev Hnz Hbnz Hxnz Htol Hpos.
  pose proof (matvec_gs_sweep_diags d bv (zeros (length bv))) as Hsol.
  rewrite length_zeros in Hsol. do 2 (specialize (Hsol ltac:(congruence))).
  specialize (Hsol Hnz).
  assert (gauss_seidel_run (diags d) bv tol max_iter
            = (1%nat, gs_sweep (diags d) bv (zeros (length bv)))) as Hrun.
  { unfold gauss_seidel_run. destruct max_iter as [|k]; [lia|].
    cbn [gs_spec_loop]. rewrite Hsol, vsub_self, norm_zeros. simpl.
    unfold Rdiv. rewrite Rmult_0_l. by destruct (Rlt_dec 0 tol). }
  destruct (iterates_computes _ _ gauss_seidel_iterates gauss_seidel_run_regular
    s A b x_exact n (diags d) bv xev tol max_iter HA Hb Hxe) as
    (x & s' & Heq & _ & _ & Hx); [by apply square_diags|done..|].
  rewrite Hrun in Heq, Hx. by eexists x, _, s', _.
Qed.
End GSDiag.

Section Identity.
Local Open Scope R_scope.
Implicit Types (u v : list R) (s : state R).





End Identity.

(** ** The problem of the driver *)

Section DriverFacts.
Context {F : Type} {SC : Scalar F}.
Implicit Types (s : state F).

Lemma create_problem_eq s A n Av :
  heap s !! A = Some (Sparse Av) → square n Av →
  create_problem A s =
    (Ok (S (length (heap s)), length (heap s)),
     push (Vec (matvec Av (ones n))) (push (Vec (ones n)) s)).
Proof.
  intros HA HAv. bounds. unfold create_problem.
  rewrite (bind_ok _ _ _ _ _ (sp_shape0_eq _ _ _ HA)).
  unfold nrows. rewrite (square_nrows _ _ HAv).
  unfold np_ones, new_vec, alloc at 1, bind at 1. cbn beta iota.
  fold (push (Vec (ones n)) s).
  erewrite bind_ok; [|apply sp_dot_eq; [lk|lk|]].
  - unfold ret. do 3 f_equal. len.
  - rewrite length_ones. shp.
Qed.

(** X17.  [create_problem] followed by a call of an accepted method, as
    [run_experiments] chains them: on a square matrix, x_exact is the
    all-ones vector, b is A x_exact, both new objects that fit the matrix,
    A is unchanged, and the method returns a solution of the length of the
    system after between 1 and max_iter iterations. *)
Theorem created_problem_is_solved
    s method A n Av tol max_iter :
  is_Some (method_map (F:=F) !! normalize method) →
  heap s !! A = Some (Sparse Av) → square n Av →
  0 < max_iter →
  ∃ b x_exact x j t err s' xv,
    (let* (b, x_exact) := create_problem A in
     let* r := solve_linear_system method A b x_exact tol max_iter in
     ret (b, x_exact, r)) s
      = (Ok (b, x_exact, (x, j, t, err)), s') ∧
    heap s !! x_exact = None ∧ heap s !! b = None ∧ heap s !! x = None ∧
    b ≠ x_exact ∧ x ≠ b ∧ x ≠ x_exact ∧
    heap s' !! A = Some (Sparse Av) ∧
    heap s' !! x_exact = Some (Vec (ones n)) ∧
    heap s' !! b = Some (Vec (matvec Av (ones n))) ∧
    heap s' !! x = Some (Vec xv) ∧ length xv = n ∧
    1 ≤ j ≤ max_iter.
Proof.
  intros Hm HA HAv Hpos. bounds.
  pose proof (create_problem_eq s A n Av HA HAv) as Hcp.
  set (s1 := push (Vec (matvec Av (ones n))) (push (Vec (ones n)) s)) in *.
  destruct (solve_linear_system_computes method Hm)
    as (run & Hc & Hbound & Hlen & _ & _ & _).
  destruct (Hc s1 A (S (length (heap s))) (length (heap s)) n Av
    (matvec Av (ones n)) (ones n) tol max_iter) as (x & s' & Heq & Hext & Hnew & Hx);
    [unfold s1; lk|unfold s1; lk|unfold s1; lk|done|shp|apply length_ones|done|].
  assert (length (heap s1) = S (S (length (heap s)))) as Hs1
    by (unfold s1; len).
  eexists _, _, x, _, _, _, s', _. split_and!.
  - rewrite (bind_ok _ _ _ _ _ Hcp). cbn beta iota.
    by rewrite (bind_ok _ _ _ _ _ Heq).
  - by apply lookup_ge_None.
  - apply lookup_ge_None. lia.
  - apply lookup_ge_None. lia.
  - lia.
  - lia.
  - lia.
  - apply Hext. unfold s1. lk.
  - apply Hext. unfold s1. lk.
  - apply Hext. unfold s1. lk.
  - done.
  - apply (Hlen n); [done|shp].
  - by apply Hbound.
  - by apply Hbound.
Qed.

(** X18.  [create_problem] on a matrix whose number of columns is not its
    number of rows: x_exact has one entry for each row, the product
    A.dot(x_exact) needs one for each column, and the call raises ValueError.
    What existed before the call is unchanged. *)
Theorem create_problem_rejects_non_square s A Av :
  heap s !! A = Some (Sparse Av) →
  ncols Av ≠ nrows Av →
  ∃ s', create_problem A s = (Raise shape_mismatch, s') ∧
        heap s `prefix_of` heap s'.
Proof.
  intros HA Hne. unfold create_problem.
  rewrite (bind_ok _ _ _ _ _ (sp_shape0_eq _ _ _ HA)).
  unfold np_ones, new_vec, alloc at 1, bind at 1. cbn beta iota.
  fold (push (Vec (ones (nrows Av))) s).
  exists (push (Vec (ones (nrows Av))) s). split; [|by apply prefix_app_r].
  unfold bind at 1.
  rewrite (sp_dot_raises _ A _ Av (ones (nrows Av))); [done|lk|lk|].
  by rewrite length_ones.
Qed.
End DriverFacts.

(** ** Method names *)

Section Names.
Context {F : Type} {SC : Scalar F}.

Lemma normalize_char_idemp c : normalize_char (normalize_char c) = normalize_char c.
Proof. by destruct c as [[] [] [] [] [] [] [] []]. Qed.

(** X19.  Normalizing a method name twice is normalizing it once; the
    dispatcher does the same on a name and on its normal form. *)
Theorem normalize_idempotent (method : string) A b x_exact tol max_iter :
  normalize (normalize method) = normalize method ∧
  solve_linear_system (F:=F) (normalize method) A b x_exact tol max_iter
    = solve_linear_system method A b x_exact tol max_iter.
Proof.
  assert (normalize (normalize method) = normalize method) as H.
  { rewrite !normalize_map, str_map_map. apply str_map_ext.
    intros c. apply normalize_char_idemp. }
  split; [done|]. unfold solve_linear_system. by rewrite H.
Qed.
End Names.

(** ** The further properties at concrete problems *)

Lemma accepted_method_returns_new_vector_witness :
  ∃ x j t err s' xv,
    solve_linear_system "Gauss-Seidel" 0 1 2 tol_1e6 50 diag_problem
      = (Ok (x, j, t, err), s') ∧
    1 ≤ j ≤ 50 ∧
    heap diag_problem !! x = None ∧ heap s' !! x = Some (Vec xv) ∧ length xv = 3.
Proof.
  apply (accepted_method_returns_new_vector diag_problem "Gauss-Seidel" 0 1 2 3
           diag234 [2; 3; 4]%float [1; 1; 1]%float tol_1e6 50);
    [by eexists|reflexivity|reflexivity|reflexivity| |reflexivity|reflexivity|lia].
  split; [reflexivity|]. repeat constructor.
Defined.


Lemma second_call_repeats_first_witness :
  ∃ x1 x2 j t1 t2 err s' xv,
    (let* r1 := solve_linear_system "cg" 0 1 2 tol_1e6 50 in
     let* r2 := solve_linear_system "cg" 0 1 2 tol_1e6 50 in
     ret (r1, r2)) diag_problem
      = (Ok ((x1, j, t1, err), (x2, j, t2, err)), s') ∧
    x1 ≠ x2 ∧
    heap s' !! x1 = Some (Vec xv) ∧ heap s' !! x2 = Some (Vec xv).
Proof.
  apply (second_call_repeats_first diag_problem "cg" 0 1 2 3
           diag234 [2; 3; 4]%float [1; 1; 1]%float tol_1e6 50);
    [by eexists|reflexivity|reflexivity|reflexivity| |reflexivity|reflexivity|lia].
  split; [reflexivity|]. repeat constructor.
Defined.


Lemma looser_tolerance_stops_no_later_witness :
  ∃ x x' j j' t err err' s1 s2,
    solve_linear_system "cg" 0 1 2 (1 / 1000000)%R 50 spd_problem
      = (Ok (x, j, t, err), s1) ∧
    solve_linear_system "cg" 0 1 2 (1 / 10000)%R 50 spd_problem
      = (Ok (x', j', t, err'), s2) ∧
    j' ≤ j.
Proof.
  apply (looser_tolerance_stops_no_later spd_problem "cg" 0 1 2 2 spd2
           [5; 4]%R [1; 1]%R (1 / 1000000)%R (1 / 10000)%R 50);
    [|by eexists|reflexivity|reflexivity|reflexivity| |reflexivity|reflexivity|lia].
  - intros u. simpl.
    destruct (Rlt_dec u (1 / 1000000)), (Rlt_dec u (1 / 10000)); try done. lra.
  - split; [reflexivity|]. repeat constructor.
Defined.

Lemma misshapen_x_exact_raises_after_iterating_witness :
  ∃ x j t err s' s'' xv,
    solve_linear_system "cg" 0 1 4 tol_1e6 50 diag_problem_more
      = (Raise shape_mismatch, s') ∧
    solve_linear_system "cg" 0 1 2 tol_1e6 50 diag_problem_more
      = (Ok (x, j, t, err), s'') ∧
    heap s' !! x = Some (Vec xv) ∧ heap s'' !! x = Some (Vec xv) ∧
    ticks s' = S (ticks diag_problem_more).
Proof.
  apply (misshapen_x_exact_raises_after_iterating diag_problem_more "cg" 0 1 4 2 3
           diag234 [2; 3; 4]%float [1; 1]%float [1; 1; 1]%float tol_1e6 50);
    [by eexists|reflexivity|reflexivity|reflexivity|reflexivity|
     |reflexivity|simpl; lia|simpl; lia|lia|reflexivity|lia].
  split; [reflexivity|]. repeat constructor.
Defined.

Lemma mismatched_rhs_raises_witness :
  (solve_linear_system "gs" 0 4 2 tol_1e6 50 diag_problem_more).1
    = Raise shape_mismatch.
Proof.
  apply (mismatched_rhs_raises diag_problem_more "gs" 0 4 2 3 diag234
           [1; 1]%float tol_1e6 50);
    [by eexists|reflexivity|reflexivity| |simpl; lia|lia|simpl; lia|lia].
  split; [reflexivity|]. repeat constructor.
Defined.

Lemma zero_rhs_never_converges_witness :
  ∃ x t err s',
    solve_linear_system "gradient" 0 1 2 tol_1e6 50 zero_rhs_problem
      = (Ok (x, 50, t, err), s').
Proof.
  apply (zero_rhs_never_converges zero_rhs_problem "gradient" 0 1 2 3
           diag234 [1; 1; 1]%float tol_1e6 50);
    [by eexists|reflexivity|reflexivity|reflexivity| |reflexivity|lia].
  split; [reflexivity|]. repeat constructor.
Defined.

Lemma nonpositive_tol_never_converges_witness :
  ∃ x t err s',
    solve_linear_system "jacobi" 0 1 2 0%float 50 diag_problem
      = (Ok (x, 50, t, err), s').
Proof.
  apply (nonpositive_tol_never_converges diag_problem "jacobi" 0 1 2 3
           diag234 [2; 3; 4]%float [1; 1; 1]%float 0%float 50);
    [reflexivity|by eexists|reflexivity|reflexivity|reflexivity|
     |reflexivity|reflexivity|lia].
  split; [reflexivity|]. repeat constructor.
Defined.


Lemma early_stop_bounds_true_residual_witness :
  (∃ x j t err s' xv,
     gradient 0 1 2 (1 / 1000000)%R 50 spd_problem = (Ok (x, j, t, err), s') ∧
     heap s' !! x = Some (Vec xv) ∧
     (j < 50 →
      (norm (vsub [5; 4]%R (matvec spd2 xv)) / norm [5; 4]%R < 1 / 1000000)%R)) ∧
  (∃ x j t err s' xv,
     conjugate_gradient 0 1 2 (1 / 1000000)%R 50 spd_problem
       = (Ok (x, j, t, err), s') ∧
     heap s' !! x = Some (Vec xv) ∧
     (j < 50 →
      (norm (vsub [5; 4]%R (matvec spd2 xv)) / norm [5; 4]%R < 1 / 1000000)%R)).
Proof.
  apply (early_stop_bounds_true_residual spd_problem 0 1 2 2 spd2
           [5; 4]%R [1; 1]%R (1 / 1000000)%R 50);
    [reflexivity|reflexivity|reflexivity| |reflexivity|reflexivity|lia].
  split; [reflexivity|]. repeat constructor.
Defined.

Lemma jacobi_returns_iterate_before_test_witness :
  ∃ x j t s' xv,
    jacobi 0 1 2 tol_1e6 50 diag_problem
      = (Ok (x, j, t, (norm (vsub xv [1; 1; 1]%float) / norm [1; 1; 1]%float)%sc), s') ∧
    heap s' !! x = Some (Vec xv) ∧
    1 ≤ j ≤ 50 ∧
    (∀ i, 1 ≤ i < j →
       residual_below diag234 [2; 3; 4]%float tol_1e6
         (jacobi_iterate diag234 [2; 3; 4]%float i) = false) ∧
    (residual_below diag234 [2; 3; 4]%float tol_1e6
       (jacobi_iterate diag234 [2; 3; 4]%float j) = true ∧
       xv = jacobi_iterate diag234 [2; 3; 4]%float (j - 1)
     ∨ j = 50 ∧
       residual_below diag234 [2; 3; 4]%float tol_1e6
         (jacobi_iterate diag234 [2; 3; 4]%float j) = false ∧
       xv = jacobi_iterate diag234 [2; 3; 4]%float j).
Proof.
  apply (jacobi_returns_iterate_before_test diag_problem 0 1 2 3
           diag234 [2; 3; 4]%float [1; 1; 1]%float tol_1e6 50);
    [reflexivity|reflexivity|reflexivity| |reflexivity|reflexivity|lia].
  split; [reflexivity|]. repeat constructor.
Defined.

Lemma gauss_seidel_returns_first_passing_sweep_witness :
  ∃ x j t s',
    gauss_seidel 0 1 2 tol_1e6 50 diag_problem
      = (Ok (x, j, t,
             (norm (vsub (gs_iterate diag234 [2; 3; 4]%float j) [1; 1; 1]%float)
              / norm [1; 1; 1]%float)%sc), s') ∧
    heap s' !! x = Some (Vec (gs_iterate diag234 [2; 3; 4]%float j)) ∧
    1 ≤ j ≤ 50 ∧
    (∀ i, 1 ≤ i < j →
       residual_below diag234 [2; 3; 4]%float tol_1e6
         (gs_iterate diag234 [2; 3; 4]%float i) = false) ∧
    (j < 50 →
       residual_below diag234 [2; 3; 4]%float tol_1e6
         (gs_iterate diag234 [2; 3; 4]%float j) = true).
Proof.
  apply (gauss_seidel_returns_first_passing_sweep diag_problem 0 1 2 3
           diag234 [2; 3; 4]%float [1; 1; 1]%float tol_1e6 50);
    [reflexivity|reflexivity|reflexivity| |reflexivity|reflexivity|lia].
  split; [reflexivity|]. repeat constructor.
Defined.

Lemma jacobi_on_diagonal_system_returns_zero_witness :
  matvec (diags [2; 3; 4]%R) (jacobi_iterate (diags [2; 3; 4]%R) [2; 3; 4]%R 1)
    = [2; 3; 4]%R ∧
  (norm (vsub (zeros 3) [1; 1; 1]%R) / norm [1; 1; 1]%R = 1)%R ∧
  ∃ x t s',
    jacobi 0 1 2 (1 / 1000000)%R 50 diag_problem_exact
      = (Ok (x, 1, t, (norm (vsub (zeros 3) [1; 1; 1]%R) / norm [1; 1; 1]%R)%R), s') ∧
    heap s' !! x = Some (Vec (zeros 3)).
Proof.
  apply (jacobi_on_diagonal_system_returns_zero diag_problem_exact 0 1 2 3
           [2; 3; 4]%R [2; 3; 4]%R [1; 1; 1]%R (1 / 1000000)%R 50);
    [reflexivity|reflexivity|reflexivity|reflexivity|reflexivity|reflexivity
    |repeat constructor; lra|unfold dot; simpl; lra|unfold dot; simpl; lra
    |lra|lia].
Defined.

Lemma gauss_seidel_on_diagonal_system_is_exact_witness :
  ∃ x t s' xv,
    gauss_seidel 0 1 2 (1 / 1000000)%R 50 diag_problem_exact
      = (Ok (x, 1, t, (norm (vsub xv [1; 1; 1]%R) / norm [1; 1; 1]%R)%R), s') ∧
    heap s' !! x = Some (Vec xv) ∧
    matvec (diags [2; 3; 4]%R) xv = [2; 3; 4]%R.
Proof.
  apply (gauss_seidel_on_diagonal_system_is_exact diag_problem_exact 0 1 2 3
           [2; 3; 4]%R [2; 3; 4]%R [1; 1; 1]%R (1 / 1000000)%R 50);
    [reflexivity|reflexivity|reflexivity|reflexivity|reflexivity|reflexivity
    |repeat constructor; lra|unfold dot; simpl; lra|unfold dot; simpl; lra
    |lra|lia].
Defined.


Lemma created_problem_is_solved_witness :
  ∃ b x_exact x j t err s' xv,
    (let* (b, x_exact) := create_problem 0 in
     let* r := solve_linear_system "cg" 0 b x_exact tol_1e6 50 in
     ret (b, x_exact, r)) diag_problem
      = (Ok (b, x_exact, (x, j, t, err)), s') ∧
    heap diag_problem !! x_exact = None ∧ heap diag_problem !! b = None ∧
    heap diag_problem !! x = None ∧
    b ≠ x_exact ∧ x ≠ b ∧ x ≠ x_exact ∧
    heap s' !! 0 = Some (Sparse diag234) ∧
    heap s' !! x_exact = Some (Vec (ones 3)) ∧
    heap s' !! b = Some (Vec (matvec diag234 (ones 3))) ∧
    heap s' !! x = Some (Vec xv) ∧ length xv = 3 ∧
    1 ≤ j ≤ 50.
Proof.
  apply (created_problem_is_solved diag_problem "cg" 0 3 diag234 tol_1e6 50);
    [by eexists|reflexivity| |lia].
  split; [reflexivity|]. repeat constructor.
Defined.

Lemma create_problem_rejects_non_square_witness :
  ∃ s', create_problem 0 wide_matrix = (Raise shape_mismatch, s') ∧
        heap wide_matrix `prefix_of` heap s'.
Proof.
  apply (create_problem_rejects_non_square wide_matrix 0
           [[1; 2; 3]; [4; 5; 6]]%float); [reflexivity|simpl; lia].
Defined.
